(** * A shallow embedding of the per-iteration path-tracing pipeline

    Source: [src/pathtrace.cu].  The file embeds the kernels
    ([generateRayFromCamera], [computeIntersections], [shadeFakeMaterial],
    [finalGather], [getMaterialId], [updateGeoms], [sendImageToPBO]), the
    session set-up ([pathtraceInit], [pathtraceResume]) and the host driver
    [pathtrace] with its depth loop, and proves properties of the stream
    compaction, the loop, the nearest-hit search, the shading rules, the
    seeding of the random engines and the accumulation buffer.

    Conventions.
    - A [float] is an IEEE-754 binary32 value ([spec_float] at precision 24,
      maximal exponent 128); every operation is rounded on its own, to
      nearest even.
    - An [int] is a [Z]; where the source relies on the 32-bit
      representation (the hashed seeds) the wrap-around is written out.
      Array indices and counts are [nat].
    - A device array is a [list]; [l !! i] reads a slot, [<[i:=x]> l] and
      [alter f i l] write one.  A write past the end of the list is dropped.
    - A kernel launch runs the body of every thread of the grid, in the
      order of the global thread index.  The threads of one launch touch
      disjoint slots, so that order cannot be observed.
    - What [pathtrace.cu] takes from other translation units (the geometry
      type, the primitive tests, [scatterRay], [utilhash], thrust's random
      engine, [glm::normalize]) is collected in the record [Collab]. *)

From Stdlib Require Import ZArith Lia Bool String Floats.SpecFloat.
From stdpp Require Import base list.

Open Scope Z_scope.

(** ** binary32 arithmetic *)

Module F32.

Definition float : Type := spec_float.

Definition prec : Z := 24.
Definition emax : Z := 128.

Definition add : float -> float -> float := SFadd prec emax.
Definition sub : float -> float -> float := SFsub prec emax.
Definition mul : float -> float -> float := SFmul prec emax.
Definition div : float -> float -> float := SFdiv prec emax.

(** [ltb a b] is the C++ comparison [a < b]: false when either side is a
    NaN. *)
Definition ltb : float -> float -> bool := SFltb.

(** [(float) z] for an [int] [z]. *)
Definition of_int (z : Z) : float := binary_normalize prec emax z 0 false.

(** The literals of the source. *)
Definition zero : float := S754_zero false.                      (* 0.0f  *)
Definition one : float := S754_finite false 8388608 (-23).       (* 1.0f  *)
Definition minus_one : float := S754_finite true 8388608 (-23).  (* -1.0f *)
Definition half : float := S754_finite false 8388608 (-24).      (* 0.5f  *)
Definition minus_half : float := S754_finite true 8388608 (-24). (* -0.5f *)
Definition one_point_four : float :=
  S754_finite false 11744051 (-23).                              (* 1.4f  *)
Definition FLT_MAX : float := S754_finite false 16777215 104.

Definition is_nan (a : float) : bool :=
  match a with S754_nan => true | _ => false end.

End F32.

Abbreviation float := F32.float.

(** ** binary64, used by one expression of [sendImageToPBO] *)

Module F64.

Definition prec : Z := 53.
Definition emax : Z := 1024.

Definition mul : spec_float -> spec_float -> spec_float := SFmul prec emax.

(** The literal [255.0]. *)
Definition c255 : spec_float := S754_finite false 8972014882652160 (-45).

(** [(int) d]: the value is truncated towards zero.  The source leaves the
    conversion of a NaN or of a value outside [int] undefined; the device
    instruction saturates and sends a NaN to 0, which is what is written
    here. *)
Definition to_int (d : spec_float) : Z :=
  match d with
  | S754_zero _ | S754_nan => 0
  | S754_infinity s => if s then - 2 ^ 31 else 2 ^ 31 - 1
  | S754_finite s m e =>
      let a := if 0 <=? e then Z.pos m * 2 ^ e else Z.pos m / 2 ^ (- e) in
      let v := if s then - a else a in
      Z.max (- 2 ^ 31) (Z.min (2 ^ 31 - 1) v)
  end.

End F64.

(** ** glm vectors *)

Record vec3 : Type := mkvec3 { vx : float; vy : float; vz : float }.

Module Glm.

Definition vec3_splat (a : float) : vec3 := mkvec3 a a a.

Definition vadd (a b : vec3) : vec3 :=
  mkvec3 (F32.add (vx a) (vx b)) (F32.add (vy a) (vy b)) (F32.add (vz a) (vz b)).

Definition vsub (a b : vec3) : vec3 :=
  mkvec3 (F32.sub (vx a) (vx b)) (F32.sub (vy a) (vy b)) (F32.sub (vz a) (vz b)).

(** [a * b] on two vectors is component-wise. *)
Definition vmul (a b : vec3) : vec3 :=
  mkvec3 (F32.mul (vx a) (vx b)) (F32.mul (vy a) (vy b)) (F32.mul (vz a) (vz b)).

(** [a * s] for a vector and a scalar. *)
Definition vscale (a : vec3) (s : float) : vec3 :=
  mkvec3 (F32.mul (vx a) s) (F32.mul (vy a) s) (F32.mul (vz a) s).

(** [s * a]. *)
Definition scalev (s : float) (a : vec3) : vec3 :=
  mkvec3 (F32.mul s (vx a)) (F32.mul s (vy a)) (F32.mul s (vz a)).

(** [v[i]] as an rvalue.  Components are 0, 1 and 2; the source has no
    defined behaviour for another index and the embedding reads 0.0f. *)
Definition vget (v : vec3) (i : Z) : float :=
  if i =? 0 then vx v else if i =? 1 then vy v else if i =? 2 then vz v
  else F32.zero.

(** [v[i] = a]; another index than 0, 1, 2 writes nothing. *)
Definition vset (v : vec3) (i : Z) (a : float) : vec3 :=
  if i =? 0 then mkvec3 a (vy v) (vz v)
  else if i =? 1 then mkvec3 (vx v) a (vz v)
  else if i =? 2 then mkvec3 (vx v) (vy v) a
  else v.

End Glm.

(** ** 32-bit integers *)

Module Int32.

Definition uint32 (z : Z) : Z := z mod 2 ^ 32.
Definition int32 (z : Z) : Z := (z + 2 ^ 31) mod 2 ^ 32 - 2 ^ 31.

Definition shl (a n : Z) : Z := int32 (Z.shiftl a n).

(** [a % b] of C++ truncates towards zero. *)
Definition rem (a b : Z) : Z := Z.rem a b.

End Int32.

(** ** The structures of the scene *)

Record Ray : Type := mkRay { origin : vec3; direction : vec3 }.

Record PathSegment : Type := mkPathSegment {
  ray : Ray;
  color : vec3;
  pixelIndex : Z;
  remainingBounces : Z
}.

Record ShadeableIntersection : Type := mkShadeableIntersection {
  t : float;
  surfaceNormal : vec3;
  materialId : Z
}.

(** Modelled from the spec: the enumeration [GeomType] of [sceneStructs.h],
    which is not part of the sources at hand.  The spec has a closed set of
    two primitive kinds and the source tests for [CUBE] and [SPHERE]. *)
Inductive GeomType : Type := SPHERE | CUBE.

(** Modelled from the spec: the structure [Material] of [sceneStructs.h],
    with the fields [shadeFakeMaterial] reads: base color, emittance, the
    reflective and refractive flags, the index of refraction, optionally
    three of them for dispersion, and the roughness. *)
Record Dispersion : Type := mkDispersion {
  hasDispersion : bool;
  dispIndexOfRefraction : vec3
}.

Record Material : Type := mkMaterial {
  mcolor : vec3;
  emittance : float;
  hasReflective : bool;
  hasRefractive : bool;
  indexOfRefraction : float;
  dispersion : Dispersion;
  roughness : float
}.

(** Modelled from the spec: the part of [Camera] that the kernels read with
    the build's switches ([AA] on, [DOF] off). *)
Record Camera : Type := mkCamera {
  resolution_x : nat;
  resolution_y : nat;
  position : vec3;
  view : vec3;
  up : vec3;
  right : vec3;
  pixelLength_x : float;
  pixelLength_y : float;
  exposure : float
}.

(** ** Collaborators

    Declarations that [pathtrace.cu] includes and calls but does not
    define.  The theorems hold for every value of this record. *)

Record Collab : Type := mkCollab {
  (** [struct Geom]: the type tag, the material reference and
      [Geom::update(dT)]. *)
  Geom : Type;
  geom_type : Geom -> GeomType;
  materialid : Geom -> Z;
  update : Geom -> float -> Geom;
  (** The primitive tests return the hit distance and write the hit point,
      the normal and the outside flag through their reference arguments;
      the spec has them pure. *)
  boxIntersectionTest : Geom -> Ray -> float * vec3 * vec3 * bool;
  sphereIntersectionTest : Geom -> Ray -> float * vec3 * vec3 * bool;
  (** [scatterRay(pathSegment, intersect, normal, hasReflective,
      hasRefractive, indexOfRefraction, color, roughness, rng)]; the engine
      is given by its seed. *)
  scatterRay : PathSegment -> vec3 -> vec3 -> bool -> bool -> float -> vec3 ->
               float -> Z -> PathSegment;
  (** [unsigned int utilhash(unsigned int)]. *)
  utilhash : Z -> Z;
  (** [uniform_real seed k a b] is the draw number [k] (from 0) that a
      [thrust::uniform_real_distribution<float>(a, b)] takes from a
      [thrust::default_random_engine] seeded with [seed]. *)
  uniform_real : Z -> nat -> float -> float -> float;
  (** [glm::normalize]. *)
  normalize : vec3 -> vec3
}.

(** Modelled from the spec: the resolved scene handed over by the loader
    ([Scene] and its [state] in [scene.h]): trace depth, camera, ordered
    geometry and material lists, and the host copy of the image. *)
Record Scene (X : Collab) : Type := mkScene {
  traceDepth : Z;
  camera : Camera;
  geoms : list (Geom X);
  materials : list Material;
  image : list vec3
}.
Arguments mkScene {X}.
Arguments traceDepth {X}.
Arguments camera {X}.
Arguments geoms {X}.
Arguments materials {X}.
Arguments image {X}.

(** ** Kernel launches *)

Module Cuda.

(** [kernel<<<blocks, blockSize>>>(...)]: the body runs once for every
    global thread index [blockIdx.x * blockDim.x + threadIdx.x]. *)
Definition launch {M : Type} (blocks blockSize : nat)
    (body : nat -> M -> M) (m : M) : M :=
  foldl (fun m idx => body idx m) m (seq 0 (blocks * blockSize)).

(** A launch with a two-dimensional grid of two-dimensional blocks. *)
Definition launch2d {M : Type} (blocks_x blocks_y bsize_x bsize_y : nat)
    (body : nat -> nat -> M -> M) (m : M) : M :=
  foldl (fun m y =>
           foldl (fun m x => body x y m) m (seq 0 (blocks_x * bsize_x)))
        m (seq 0 (blocks_y * bsize_y)).

(** A launch whose grid has no block is refused by the runtime with
    [cudaErrorInvalidConfiguration]; no thread runs and the error stays
    pending until [cudaGetLastError] reads it. *)
Definition invalid_configuration (blocks : nat) : bool := (blocks =? 0)%nat.

(** [(n + blockSize - 1) / blockSize]. *)
Definition blocks_for (n blockSize : nat) : nat :=
  ((n + blockSize - 1) / blockSize)%nat.

End Cuda.

(** ** thrust primitives *)

Module Thrust.

(** [thrust::remove_if(first, last, stencil, thrust::logical_not<bool>())]
    on the range [vals]: the elements whose stencil is false are removed
    and the others are moved to the front in their order.  The result is
    the new logical range. *)
Fixpoint remove_if {A : Type} (vals : list A) (stencil : list bool)
    : list A :=
  match vals, stencil with
  | v :: vals', s :: stencil' =>
      if negb s then remove_if vals' stencil'
      else v :: remove_if vals' stencil'
  | _, _ => []
  end.

(** The array after [remove_if] on its first [n] slots: the kept elements
    in front; the slots from the new end on keep what they held (thrust
    leaves them unspecified, its device back end does not write them). *)
Definition remove_if_in_place {A : Type} (n : nat) (arr : list A)
    (stencil : list bool) : list A :=
  let kept := remove_if (take n arr) (take n stencil) in
  kept ++ drop (length kept) arr.

(** [thrust::sort_by_key(keys, keys + n, values)] with 8-bit keys is a
    least-significant-digit radix sort, which keeps elements with equal
    keys in their order.  It is written as a stable insertion sort on the
    pairs of a key and a value. *)
Fixpoint insert_by_key {A : Type} (k : Z) (v : A) (l : list (Z * A))
    : list (Z * A) :=
  match l with
  | [] => [(k, v)]
  | (k', v') :: l' =>
      if k <=? k' then (k, v) :: (k', v') :: l'
      else (k', v') :: insert_by_key k v l'
  end.

Fixpoint sort_pairs {A : Type} (l : list (Z * A)) : list (Z * A) :=
  match l with
  | [] => []
  | (k, v) :: l' => insert_by_key k v (sort_pairs l')
  end.

Definition sort_by_key {A : Type} (keys : list Z) (vals : list A)
    : list Z * list A :=
  let sorted := sort_pairs (zip keys vals) in
  (sorted.*1, sorted.*2).

(** The two arrays after [sort_by_key] on their first [n] slots. *)
Definition sort_by_key_in_place {A : Type} (n : nat) (keys : list Z)
    (vals : list A) : list Z * list A :=
  let '(ks, vs) := sort_by_key (take n keys) (take n vals) in
  (ks ++ drop (length ks) keys, vs ++ drop (length vs) vals).

End Thrust.

(** ** The kernels *)

Section Kernels.

Context (X : Collab).

Import Glm.

(** *** Seeding *)

(** [makeSeededRandomEngine(iter, index, depth)]; the engine is identified
    with the seed [h] it is built from. *)
Definition makeSeededRandomEngine (iter index depth : Z) : Z :=
  let h :=
    Z.lxor
      (utilhash X (Int32.uint32
         (Z.lor (Z.lor (Int32.shl 1 31) (Int32.shl depth 22)) iter)))
      (utilhash X (Int32.uint32 index)) in
  Int32.int32 h.

(** *** generateRayFromCamera ([AA] on, [DOF] off) *)

Definition generateRayFromCamera_thread (cam : Camera) (iter traceDepth : Z)
    (x y : nat) (pathSegments : list PathSegment) : list PathSegment :=
  if ((x <? resolution_x cam) && (y <? resolution_y cam))%nat then
    let index := (x + y * resolution_x cam)%nat in
    let rng := makeSeededRandomEngine iter (Z.of_nat index) traceDepth in
    let dx := uniform_real X rng 0 F32.minus_half F32.half in
    let dy := uniform_real X rng 1 F32.minus_half F32.half in
    let sx :=
      F32.add (F32.sub (F32.of_int (Z.of_nat x))
                       (F32.mul (F32.of_int (Z.of_nat (resolution_x cam)))
                                F32.half)) dx in
    let sy :=
      F32.add (F32.sub (F32.of_int (Z.of_nat y))
                       (F32.mul (F32.of_int (Z.of_nat (resolution_y cam)))
                                F32.half)) dy in
    let dir :=
      normalize X
        (vsub (vsub (view cam)
                    (vscale (vscale (right cam) (pixelLength_x cam)) sx))
              (vscale (vscale (up cam) (pixelLength_y cam)) sy)) in
    <[index := {| ray := {| origin := position cam; direction := dir |};
                  color := mkvec3 F32.one F32.one F32.one;
                  pixelIndex := Z.of_nat index;
                  remainingBounces := traceDepth |}]> pathSegments
  else pathSegments.

(** *** computeIntersections *)

(** The locals of the search that live across the loop over the
    primitives. *)
Record HitState : Type := mkHitState {
  t_min : float;
  hit_geom_index : Z;
  intersect_point : vec3;
  normal : vec3
}.

(** [intersect_point] and [normal] are declared without an initial value
    and read only after the loop has assigned them; they start at zero
    here. *)
Definition hit_init : HitState :=
  {| t_min := F32.FLT_MAX; hit_geom_index := -1;
     intersect_point := vec3_splat F32.zero;
     normal := vec3_splat F32.zero |}.

Definition intersectionTest (geom : Geom X) (r : Ray)
    : float * vec3 * vec3 * bool :=
  match geom_type X geom with
  | CUBE => boxIntersectionTest X geom r
  | SPHERE => sphereIntersectionTest X geom r
  end.

(** One turn of [for (int i = 0; i < geoms_size; i++)]. *)
Definition hit_step (r : Ray) (i : Z) (geom : Geom X) (s : HitState)
    : HitState :=
  let '(t, tmp_intersect, tmp_normal, _) := intersectionTest geom r in
  if F32.ltb F32.zero t && F32.ltb t (t_min s) then
    {| t_min := t; hit_geom_index := i;
       intersect_point := tmp_intersect; normal := tmp_normal |}
  else s.

Fixpoint hit_loop (r : Ray) (i : Z) (gs : list (Geom X)) (s : HitState)
    : HitState :=
  match gs with
  | [] => s
  | geom :: gs' => hit_loop r (i + 1) gs' (hit_step r i geom s)
  end.

Definition computeIntersections_thread (depth : Z) (num_paths : nat)
    (pathSegments : list PathSegment) (geoms : list (Geom X))
    (geoms_size : nat) (path_index : nat)
    (m : list ShadeableIntersection * list bool)
    : list ShadeableIntersection * list bool :=
  let '(intersections, hasIntersection) := m in
  if (path_index <? num_paths)%nat then
    match pathSegments !! path_index with
    | None => m
    | Some pathSegment =>
        let s := hit_loop (ray pathSegment) 0 (take geoms_size geoms)
                          hit_init in
        if hit_geom_index s =? -1 then
          (alter (fun rec => {| t := F32.minus_one;
                                surfaceNormal := surfaceNormal rec;
                                materialId := materialId rec |})
                 path_index intersections,
           <[path_index := false]> hasIntersection)
        else
          (alter (fun rec =>
                    {| t := t_min s;
                       surfaceNormal := normal s;
                       materialId :=
                         match geoms !! Z.to_nat (hit_geom_index s) with
                         | Some g => materialid X g
                         | None => materialId rec
                         end |})
                 path_index intersections,
           <[path_index := true]> hasIntersection)
    end
  else m.

(** *** shadeFakeMaterial *)

(** The index of refraction and the color handed to [scatterRay]. *)
Definition m_indexOfRefraction (iter : Z) (material : Material) : float :=
  if hasDispersion (dispersion material) then
    vget (dispIndexOfRefraction (dispersion material)) (Int32.rem iter 3)
  else indexOfRefraction material.

Definition m_color (iter : Z) (material : Material) : vec3 :=
  if hasDispersion (dispersion material) then
    vset (vec3_splat F32.zero) (Int32.rem iter 3)
         (F32.mul F32.one_point_four
                  (vget (mcolor material) (Int32.rem iter 3)))
  else mcolor material.

(** What a thread with [idx < num_paths] does to its path segment, once
    the intersection record and the material are read. *)
Definition shade_segment (iter : Z) (idx : nat)
    (intersection : ShadeableIntersection) (material : Material)
    (seg : PathSegment) : PathSegment :=
  let rng := makeSeededRandomEngine iter (Z.of_nat idx) 0 in
  let materialColor := mcolor material in
  if F32.ltb F32.zero (emittance material) then
    {| ray := ray seg;
       color := vmul (color seg) (vscale materialColor (emittance material));
       pixelIndex := pixelIndex seg;
       remainingBounces := 0 |}
  else
    let point :=
      vadd (origin (ray seg))
           (vscale (direction (ray seg)) (t intersection)) in
    scatterRay X seg point (surfaceNormal intersection)
               (hasReflective material) (hasRefractive material)
               (m_indexOfRefraction iter material) (m_color iter material)
               (roughness material) rng.

(** [materials[intersection.materialId]]; an identifier outside the table
    has no defined behaviour in the source and the thread then leaves its
    segment as it is. *)
Definition material_at (materials : list Material) (id : Z)
    : option Material :=
  if id <? 0 then None else materials !! Z.to_nat id.

(** The store of the [else] branch has no bound of its own: a thread
    whose index lies behind [pathSegments] writes behind the array in the
    source, which has no defined behaviour.  Here such a thread changes
    nothing; what is proved of the other buffers asks for a grid that lies
    inside the array. *)
Definition shadeFakeMaterial_thread (iter : Z) (num_paths : nat)
    (shadeableIntersections : list ShadeableIntersection)
    (materials : list Material) (idx : nat)
    (pathSegments : list PathSegment) : list PathSegment :=
  if (idx <? num_paths)%nat then
    match pathSegments !! idx with
    | None => pathSegments
    | Some seg =>
        if remainingBounces seg =? 0 then pathSegments
        else
          match shadeableIntersections !! idx with
          | None => pathSegments
          | Some intersection =>
              match material_at materials (materialId intersection) with
              | None => pathSegments
              | Some material =>
                  <[idx := shade_segment iter idx intersection material seg]>
                    pathSegments
              end
          end
    end
  else
    alter (fun seg => {| ray := ray seg;
                         color := vec3_splat F32.zero;
                         pixelIndex := pixelIndex seg;
                         remainingBounces := remainingBounces seg |})
          idx pathSegments.

(** *** finalGather *)

(** [image[iterationPath.pixelIndex] += iterationPath.color] is a read and
    a write without synchronisation: two threads of a launch whose paths
    carry the same pixel index race in the source.  The launch is followed
    here in the order of the thread indices, which is what the source does
    when the active paths carry distinct pixel indices. *)
Definition finalGather_thread (nPaths : nat)
    (iterationPaths : list PathSegment) (index : nat) (image : list vec3)
    : list vec3 :=
  if (index <? nPaths)%nat then
    match iterationPaths !! index with
    | None => image
    | Some iterationPath =>
        if pixelIndex iterationPath <? 0 then image
        else alter (fun pix => vadd pix (color iterationPath))
                   (Z.to_nat (pixelIndex iterationPath)) image
    end
  else image.

(** *** getMaterialId *)

(** [unsigned char id = isecs->materialId]: the record read is the first
    one of the array, for every thread. *)
Definition getMaterialId_thread (nPaths : nat)
    (isecs : list ShadeableIntersection) (index : nat)
    (m : list Z * list Z) : list Z * list Z :=
  let '(materialIds_isec, materialIds_path) := m in
  if (index <? nPaths)%nat then
    match isecs !! 0%nat with
    | None => m
    | Some first =>
        let id := materialId first mod 256 in
        (<[index := id]> materialIds_isec, <[index := id]> materialIds_path)
    end
  else m.

(** *** updateGeoms *)

(** The random time offset of a primitive. *)
Definition geom_dT (iter : Z) (index : nat) (exposure : float) : float :=
  let h :=
    Int32.int32
      (Z.lxor (utilhash X (Int32.uint32 (Z.lor (Int32.shl 1 31) iter)))
              (utilhash X (Int32.uint32 (Z.of_nat index)))) in
  F32.mul (uniform_real X h 0 F32.zero F32.one) exposure.

Definition updateGeoms_thread (nGeoms : nat) (iter : Z) (exposure : float)
    (index : nat) (geoms : list (Geom X)) : list (Geom X) :=
  if (index <? nGeoms)%nat then
    alter (fun g => update X g (geom_dT iter index exposure)) index geoms
  else geoms.

(** *** sendImageToPBO *)

Record uchar4 : Type := mkuchar4 { cx : Z; cy : Z; cz : Z; cw : Z }.

Definition clamp (v lo hi : Z) : Z := Z.min (Z.max v lo) hi.

(** [glm::clamp((int)(pix.x / iter * 255.0), 0, 255)] *)
Definition to_channel (p : float) (iter : Z) : Z :=
  clamp (F64.to_int (F64.mul (F32.div p (F32.of_int iter)) F64.c255)) 0 255.

Definition sendImageToPBO_thread (res_x res_y : nat) (iter : Z)
    (image : list vec3) (x y : nat) (pbo : list uchar4) : list uchar4 :=
  if ((x <? res_x) && (y <? res_y))%nat then
    let index := (x + y * res_x)%nat in
    match image !! index with
    | None => pbo
    | Some pix =>
        <[index := {| cx := to_channel (vx pix) iter;
                      cy := to_channel (vy pix) iter;
                      cz := to_channel (vz pix) iter;
                      cw := 0 |}]> pbo
    end
  else pbo.

End Kernels.

(** ** The host side: session set-up and [pathtrace] *)

(** How a call ends: it returns, or [checkCUDAErrorFn] finds a pending
    device error and calls [exit(EXIT_FAILURE)] after printing the name of
    the operation, or the fuel given to the depth loop is used up. *)
Inductive result (A : Type) : Type :=
| Done (a : A)
| Exit (msg : string)
| OutOfFuel.
Arguments Done {A}.
Arguments Exit {A}.
Arguments OutOfFuel {A}.

Definition result_map {A B : Type} (f : A -> B) (r : result A) : result B :=
  match r with
  | Done a => Done (f a)
  | Exit msg => Exit msg
  | OutOfFuel => OutOfFuel
  end.

Section Host.

Context (X : Collab).

(** The static device pointers of the translation unit.  The two key
    arrays exist in a build with [SORT_BY_MATERIAL] only and are empty
    otherwise. *)
Record Device : Type := mkDevice {
  dev_image : list vec3;
  dev_geoms : list (Geom X);
  dev_materials : list Material;
  dev_paths : list PathSegment;
  dev_intersections : list ShadeableIntersection;
  dev_hasIntersection : list bool;
  dev_materialIds_isec : list Z;
  dev_materialIds_path : list Z
}.

Definition pixelcount (scene : Scene X) : nat :=
  (resolution_x (camera scene) * resolution_y (camera scene))%nat.

(** A record whose bytes are all zero. *)
Definition zero_intersection : ShadeableIntersection :=
  {| t := F32.zero; surfaceNormal := Glm.vec3_splat F32.zero;
     materialId := 0 |}.

(** [pathtraceInit].  [cudaMalloc] does not initialise [dev_paths]; what
    the slots hold is given by [uninit]. *)
Definition pathtraceInit (SORT_BY_MATERIAL : bool) (scene : Scene X)
    (uninit : nat -> PathSegment) : Device :=
  let n := pixelcount scene in
  {| dev_image := replicate n (Glm.vec3_splat F32.zero);
     dev_paths := map uninit (seq 0 n);
     dev_geoms := geoms scene;
     dev_materials := materials scene;
     dev_intersections := replicate n zero_intersection;
     dev_hasIntersection := replicate n false;
     dev_materialIds_isec := if SORT_BY_MATERIAL then replicate n 255 else [];
     dev_materialIds_path := if SORT_BY_MATERIAL then replicate n 255 else []
  |}.

(** [pathtraceResume]: as [pathtraceInit], but the image buffer is loaded
    from the image of the scene. *)
Definition pathtraceResume (SORT_BY_MATERIAL : bool) (scene : Scene X)
    (uninit : nat -> PathSegment) : Device :=
  let n := pixelcount scene in
  {| dev_image := take n (image scene);
     dev_paths := map uninit (seq 0 n);
     dev_geoms := geoms scene;
     dev_materials := materials scene;
     dev_intersections := replicate n zero_intersection;
     dev_hasIntersection := replicate n false;
     dev_materialIds_isec := if SORT_BY_MATERIAL then replicate n 255 else [];
     dev_materialIds_path := if SORT_BY_MATERIAL then replicate n 255 else []
  |}.

Definition blockSize1d : nat := 128.

(** The variables of [pathtrace] that live across the depth loop:
    the device arrays, [depth], [num_paths], and whether a launch has left
    an error that no [checkCUDAError] has read yet. *)
Record LoopState : Type := mkLoopState {
  dev : Device;
  depth : Z;
  num_paths : nat;
  pending_error : bool
}.

(** The stream compaction of one pass: both [remove_if] calls read the
    same stencil; [num_paths] becomes the distance from the start of the
    intersections to their new end. *)
Definition compaction (num_paths : nat)
    (intersections : list ShadeableIntersection)
    (paths : list PathSegment) (hasIntersection : list bool)
    : list ShadeableIntersection * list PathSegment * nat :=
  let intersections' :=
    Thrust.remove_if_in_place num_paths intersections hasIntersection in
  let paths' :=
    Thrust.remove_if_in_place num_paths paths hasIntersection in
  let new_end :=
    length (Thrust.remove_if (take num_paths intersections)
                             (take num_paths hasIntersection)) in
  (intersections', paths', new_end).

(** The block under [#if SORT_BY_MATERIAL]: the keys are read by
    [getMaterialId], then each array is sorted with its own copy of the
    keys.  [checkCUDAError("get Material Ids")] follows a launch on the grid
    that has passed the check of the tracing launch, and cannot fire. *)
Definition sortByMaterial (blocks num_paths : nat)
    (materialIds_isec materialIds_path : list Z)
    (intersections : list ShadeableIntersection) (paths : list PathSegment)
    : list Z * list Z * list ShadeableIntersection * list PathSegment :=
  let '(ids_isec, ids_path) :=
    Cuda.launch blocks blockSize1d
      (getMaterialId_thread num_paths intersections)
      (materialIds_isec, materialIds_path) in
  let '(ids_isec', intersections') :=
    Thrust.sort_by_key_in_place num_paths ids_isec intersections in
  let '(ids_path', paths') :=
    Thrust.sort_by_key_in_place num_paths ids_path paths in
  (ids_isec', ids_path', intersections', paths').

(** One turn of [while (!iterationComplete)], up to and without the test
    [depth == traceDepth]. *)
Definition depthPass (SORT_BY_MATERIAL : bool) (scene : Scene X) (iter : Z)
    (s : LoopState) : result LoopState :=
  let d := dev s in
  let cam := camera scene in
  (* clean shading chunks *)
  let isects0 := replicate (pixelcount scene) zero_intersection in
  let nGeoms := length (geoms scene) in
  let numblocksUpdateGeoms := Cuda.blocks_for nGeoms blockSize1d in
  let geoms1 :=
    Cuda.launch numblocksUpdateGeoms blockSize1d
      (updateGeoms_thread X nGeoms iter (exposure cam)) (dev_geoms d) in
  let err1 :=
    pending_error s || Cuda.invalid_configuration numblocksUpdateGeoms in
  (* tracing *)
  let numblocksPathSegmentTracing :=
    Cuda.blocks_for (num_paths s) blockSize1d in
  let '(isects1, flags1) :=
    Cuda.launch numblocksPathSegmentTracing blockSize1d
      (computeIntersections_thread X (depth s) (num_paths s) (dev_paths d)
         geoms1 nGeoms)
      (isects0, dev_hasIntersection d) in
  let err2 :=
    err1 || Cuda.invalid_configuration numblocksPathSegmentTracing in
  (* checkCUDAError("trace one bounce") *)
  if err2 then Exit "trace one bounce"
  else
    let depth' := depth s + 1 in
    (* Stream Compaction *)
    let '(isects2, paths2, num_paths') :=
      compaction (num_paths s) isects1 (dev_paths d) flags1 in
    let '(ids_isec, ids_path, isects3, paths3) :=
      if SORT_BY_MATERIAL then
        sortByMaterial numblocksPathSegmentTracing num_paths'
          (dev_materialIds_isec d) (dev_materialIds_path d) isects2 paths2
      else (dev_materialIds_isec d, dev_materialIds_path d, isects2, paths2)
    in
    (* Shading Stage *)
    let paths4 :=
      Cuda.launch numblocksPathSegmentTracing blockSize1d
        (shadeFakeMaterial_thread X iter num_paths' isects3
           (dev_materials d))
        paths3 in
    Done {| dev := {| dev_image := dev_image d;
                      dev_geoms := geoms1;
                      dev_materials := dev_materials d;
                      dev_paths := paths4;
                      dev_intersections := isects3;
                      dev_hasIntersection := flags1;
                      dev_materialIds_isec := ids_isec;
                      dev_materialIds_path := ids_path |};
            depth := depth';
            num_paths := num_paths';
            pending_error :=
              Cuda.invalid_configuration numblocksPathSegmentTracing |}.

(** [k] passes in a row, whatever the depth counter says. *)
Fixpoint passes (SORT_BY_MATERIAL : bool) (scene : Scene X) (iter : Z)
    (k : nat) (s : LoopState) : result LoopState :=
  match k with
  | O => Done s
  | S k' =>
      match depthPass SORT_BY_MATERIAL scene iter s with
      | Done s' => passes SORT_BY_MATERIAL scene iter k' s'
      | Exit msg => Exit msg
      | OutOfFuel => OutOfFuel
      end
  end.

(** [while (!iterationComplete) { ...; if (depth == traceDepth)
    { iterationComplete = true; } }].  The loop has no bound of its own;
    [fuel] bounds the number of passes the embedding follows. *)
Fixpoint depthLoop (SORT_BY_MATERIAL : bool) (scene : Scene X) (iter : Z)
    (fuel : nat) (s : LoopState) : result LoopState :=
  match fuel with
  | O => OutOfFuel
  | S fuel' =>
      match depthPass SORT_BY_MATERIAL scene iter s with
      | Done s' =>
          if depth s' =? traceDepth scene then Done s'
          else depthLoop SORT_BY_MATERIAL scene iter fuel' s'
      | Exit msg => Exit msg
      | OutOfFuel => OutOfFuel
      end
  end.

(** What the host sees of a call of [pathtrace]: the device arrays, the
    image copied back into the scene, and the pixel buffer.  The optional
    telemetry ([guiData->TracedDepth]) is left out. *)
Record HostState : Type := mkHostState {
  device : Device;
  scene_image : list vec3;
  pbo : list uchar4
}.

Definition blockSize2d : nat := 8.

(** [pathtrace(pbo, frame, iter)]; [scene] is [hst_scene]. *)
Definition pathtrace (SORT_BY_MATERIAL : bool) (scene : Scene X)
    (fuel : nat) (iter : Z) (h : HostState) : result HostState :=
  let d := device h in
  let cam := camera scene in
  let blocks_x := Cuda.blocks_for (resolution_x cam) blockSize2d in
  let blocks_y := Cuda.blocks_for (resolution_y cam) blockSize2d in
  let paths0 :=
    Cuda.launch2d blocks_x blocks_y blockSize2d blockSize2d
      (generateRayFromCamera_thread X cam iter (traceDepth scene))
      (dev_paths d) in
  if Cuda.invalid_configuration blocks_x
     || Cuda.invalid_configuration blocks_y
  then Exit "generate camera ray"
  else
    let s0 :=
      {| dev := {| dev_image := dev_image d;
                   dev_geoms := dev_geoms d;
                   dev_materials := dev_materials d;
                   dev_paths := paths0;
                   dev_intersections := dev_intersections d;
                   dev_hasIntersection := dev_hasIntersection d;
                   dev_materialIds_isec := dev_materialIds_isec d;
                   dev_materialIds_path := dev_materialIds_path d |};
         depth := 0;
         num_paths := pixelcount scene;
         pending_error := false |} in
    match depthLoop SORT_BY_MATERIAL scene iter fuel s0 with
    | Done s =>
        (* Assemble this iteration and apply it to the image *)
        let numBlocksPixels :=
          Cuda.blocks_for (pixelcount scene) blockSize1d in
        let image' :=
          Cuda.launch numBlocksPixels blockSize1d
            (finalGather_thread (num_paths s) (dev_paths (dev s)))
            (dev_image (dev s)) in
        (* Send results to OpenGL buffer for rendering *)
        let pbo' :=
          Cuda.launch2d blocks_x blocks_y blockSize2d blockSize2d
            (sendImageToPBO_thread (resolution_x cam) (resolution_y cam)
               iter image')
            (pbo h) in
        if pending_error s || Cuda.invalid_configuration numBlocksPixels
        then Exit "pathtrace"
        else
          Done {| device := {| dev_image := image';
                               dev_geoms := dev_geoms (dev s);
                               dev_materials := dev_materials (dev s);
                               dev_paths := dev_paths (dev s);
                               dev_intersections := dev_intersections (dev s);
                               dev_hasIntersection :=
                                 dev_hasIntersection (dev s);
                               dev_materialIds_isec :=
                                 dev_materialIds_isec (dev s);
                               dev_materialIds_path :=
                                 dev_materialIds_path (dev s) |};
                  scene_image :=
                    take (pixelcount scene) image'
                      ++ drop (pixelcount scene) (scene_image h);
                  pbo := pbo' |}
    | Exit msg => Exit msg
    | OutOfFuel => OutOfFuel
    end.

(** Modelled from the spec: the driver, which is not part of the sources
    at hand, runs one call of [pathtrace] per iteration with consecutive
    iteration indices.  [iterations first count] runs the iterations
    [first], ..., [first + count - 1]. *)
Fixpoint iterations (SORT_BY_MATERIAL : bool) (scene : Scene X) (fuel : nat)
    (first : Z) (count : nat) (h : HostState) : result HostState :=
  match count with
  | O => Done h
  | S count' =>
      match pathtrace SORT_BY_MATERIAL scene fuel first h with
      | Done h' =>
          iterations SORT_BY_MATERIAL scene fuel (first + 1) count' h'
      | Exit msg => Exit msg
      | OutOfFuel => OutOfFuel
      end
  end.

End Host.

Arguments dev_image {X}.
Arguments dev_geoms {X}.
Arguments dev_materials {X}.
Arguments dev_paths {X}.
Arguments dev_intersections {X}.
Arguments dev_hasIntersection {X}.
Arguments dev_materialIds_isec {X}.
Arguments dev_materialIds_path {X}.
Arguments mkDevice {X}.
Arguments dev {X}.
Arguments depth {X}.
Arguments num_paths {X}.
Arguments pending_error {X}.
Arguments mkLoopState {X}.
Arguments device {X}.
Arguments scene_image {X}.
Arguments pbo {X}.
Arguments mkHostState {X}.

(** ** A small scene to run the embedding on

    One concrete choice of the collaborators, used to evaluate the
    definitions above on explicit inputs. *)

Module Demo.

(** A primitive that every ray meets at distance [rest + dT] once it is
    updated with [dT]; [shown] is the distance the tests report. *)
Record geom : Type := mkgeom {
  kind : GeomType;
  mat : Z;
  rest : float;
  shown : float
}.

Definition report (g : geom) (r : Ray) : float * vec3 * vec3 * bool :=
  (shown g, origin r, direction r, true).

(** A diffuse bounce that keeps the ray: the throughput is multiplied by
    the color handed over and the budget goes down by one. *)
Definition bounce (seg : PathSegment) (point nor : vec3) (refl refr : bool)
    (ior : float) (col : vec3) (rough : float) (rng : Z) : PathSegment :=
  {| ray := ray seg; color := Glm.vmul (color seg) col;
     pixelIndex := pixelIndex seg;
     remainingBounces := remainingBounces seg - 1 |}.

Definition hash (a : Z) : Z := (a * 2654435761 + 40503) mod 2 ^ 32.

Definition collab : Collab :=
  {| Geom := geom;
     geom_type := kind;
     materialid := mat;
     update := fun g dT =>
       {| kind := kind g; mat := mat g; rest := rest g;
          shown := F32.add (rest g) dT |};
     boxIntersectionTest := report;
     sphereIntersectionTest := report;
     scatterRay := bounce;
     utilhash := hash;
     uniform_real := fun seed k a b => a;
     normalize := fun v => v |}.

Definition v0 : vec3 := Glm.vec3_splat F32.zero.
Definition v1 : vec3 := Glm.vec3_splat F32.one.

Definition cam (w h : nat) : Camera :=
  {| resolution_x := w; resolution_y := h; position := v0; view := v1;
     up := v0; right := v0; pixelLength_x := F32.one;
     pixelLength_y := F32.one; exposure := F32.zero |}.

Definition no_dispersion : Dispersion :=
  {| hasDispersion := false; dispIndexOfRefraction := v1 |}.

Definition light : Material :=
  {| mcolor := v1; emittance := F32.one; hasReflective := false;
     hasRefractive := false; indexOfRefraction := F32.one;
     dispersion := no_dispersion; roughness := F32.zero |}.

Definition matte : Material :=
  {| mcolor := v1; emittance := F32.zero; hasReflective := false;
     hasRefractive := false; indexOfRefraction := F32.one;
     dispersion := no_dispersion; roughness := F32.zero |}.

(** A matte material with dispersion. *)
Definition prism : Material :=
  {| mcolor := v1; emittance := F32.zero; hasReflective := false;
     hasRefractive := true; indexOfRefraction := F32.one;
     dispersion := {| hasDispersion := true;
                      dispIndexOfRefraction :=
                        mkvec3 F32.one F32.one_point_four F32.half |};
     roughness := F32.zero |}.

Definition wall (m : Z) (d : float) : geom :=
  {| kind := CUBE; mat := m; rest := d; shown := d |}.

Definition blank : PathSegment :=
  {| ray := {| origin := v0; direction := v0 |}; color := v0;
     pixelIndex := 0; remainingBounces := 0 |}.

Definition scene_of (w h : nat) (td : Z) (gs : list geom)
    (ms : list Material) : Scene collab :=
  @mkScene collab td (cam w h) gs ms (replicate (w * h) v0).

Definition start (sorted : bool) (sc : Scene collab) : HostState collab :=
  {| device := pathtraceInit collab sorted sc (fun _ => blank);
     scene_image := image sc;
     pbo := replicate (pixelcount collab sc) (mkuchar4 0 0 0 0) |}.

(** A lit wall in front of a camera of two pixels. *)
Definition lit_room : Scene collab :=
  scene_of 2 1 3 [wall 0 F32.one] [light].

(** The same camera in front of a wall that no ray meets. *)
Definition void : Scene collab :=
  scene_of 2 1 3 [wall 0 F32.minus_one] [light].



(** A matte wall and a lit one behind it. *)
Definition matte_room : Scene collab :=
  scene_of 2 1 2 [wall 0 F32.one; wall 1 F32.FLT_MAX] [matte; light].

End Demo.

(** * Properties *)

(** ** Stream compaction *)

Section Compaction.

Context {A : Type}.
Implicit Types (vals : list A) (stencil : list bool).

(** The flag of a pair of an element and its stencil. *)
Definition kept {B : Type} (p : B * bool) : Prop := p.2 = true.

#[global] Instance kept_dec {B : Type} (p : B * bool) : Decision (kept p).
Proof. unfold kept. apply _. Defined.

Lemma remove_if_filter vals stencil :
  Thrust.remove_if vals stencil = (filter kept (zip vals stencil)).*1.
Proof.
  revert stencil.
  induction vals as [|v vals IH]; intros [|s stencil]; try done.
  change (zip (v :: vals) (s :: stencil)) with ((v, s) :: zip vals stencil).
  cbn [Thrust.remove_if].
  destruct s; cbn [negb].
  - rewrite filter_cons_True by done. rewrite fmap_cons. by rewrite IH.
  - rewrite filter_cons_False by (unfold kept; simpl; congruence). apply IH.
Qed.

Lemma remove_if_sublist vals stencil :
  sublist (Thrust.remove_if vals stencil) vals.
Proof.
  revert stencil.
  induction vals as [|v vals IH]; intros [|s stencil]; simpl;
    try apply sublist_nil_l.
  destruct s; simpl.
  - apply sublist_skip, IH.
  - apply sublist_cons, IH.
Qed.

Lemma remove_if_length_true vals stencil :
  (length stencil <= length vals)%nat ->
  length (Thrust.remove_if vals stencil)
  = length (filter (fun b : bool => b = true) stencil).
Proof.
  revert stencil.
  induction vals as [|v vals IH]; intros [|s stencil] Hlen;
    cbn [length] in Hlen; try done; try lia.
  cbn [Thrust.remove_if].
  destruct s; cbn [negb].
  - rewrite filter_cons_True by done. cbn [length]. rewrite IH; [done | lia].
  - rewrite filter_cons_False by congruence. apply IH. lia.
Qed.

Lemma remove_if_in_place_take n vals stencil :
  take (length (Thrust.remove_if (take n vals) (take n stencil)))
       (Thrust.remove_if_in_place n vals stencil)
  = Thrust.remove_if (take n vals) (take n stencil).
Proof. unfold Thrust.remove_if_in_place. by rewrite take_app_length. Qed.

End Compaction.

Lemma remove_if_zip {A B : Type} (a : list A) (b : list B) stencil :
  Thrust.remove_if (zip a b) stencil
  = zip (Thrust.remove_if a stencil) (Thrust.remove_if b stencil).
Proof.
  revert b stencil.
  induction a as [|x a IH]; intros [|y b] [|s stencil]; try done.
  - cbn. destruct s; cbn; [done|].
    by destruct (Thrust.remove_if a stencil).
  - change (zip (x :: a) (y :: b)) with ((x, y) :: zip a b).
    cbn [Thrust.remove_if]. destruct s; cbn [negb]; [|apply IH].
    rewrite IH. done.
Qed.

(** C1.  Compaction is a stable partition on the intersection flag, done in
    lockstep on both arrays: the new active range of each array is the old
    one filtered by the flags, in the old order; the pairs made of path [i]
    and record [i] after compaction are the pairs of before whose flag is
    true; and the active count is the number of flags that are true. *)
Theorem compaction_stable_partition (n : nat)
    (intersections : list ShadeableIntersection) (paths : list PathSegment)
    (hasIntersection : list bool)
    (intersections' : list ShadeableIntersection) (paths' : list PathSegment)
    (n' : nat) :
  (n <= length intersections)%nat ->
  (n <= length paths)%nat ->
  (n <= length hasIntersection)%nat ->
  compaction n intersections paths hasIntersection
    = (intersections', paths', n') ->
  take n' paths'
    = (filter kept (zip (take n paths) (take n hasIntersection))).*1
  /\ take n' intersections'
    = (filter kept (zip (take n intersections) (take n hasIntersection))).*1
  /\ zip (take n' paths') (take n' intersections')
    = (filter kept (zip (zip (take n paths) (take n intersections))
                        (take n hasIntersection))).*1
  /\ sublist (take n' paths') (take n paths)
  /\ sublist (take n' intersections') (take n intersections)
  /\ n' = length (filter (fun b : bool => b = true) (take n hasIntersection))
  /\ length (take n' paths') = n'
  /\ length (take n' intersections') = n'.
Proof.
  intros Hi Hp Hf Hc. unfold compaction in Hc.
  injection Hc as <- <- <-.
  assert (Hlen : forall {A} (l : list A), (n <= length l)%nat ->
            length (Thrust.remove_if (take n l) (take n hasIntersection))
            = length (filter (fun b : bool => b = true)
                             (take n hasIntersection))).
  { intros A l Hl. apply remove_if_length_true.
    rewrite !length_take. lia. }
  assert (Hpt :
    take (length (Thrust.remove_if (take n intersections)
                                   (take n hasIntersection)))
         (Thrust.remove_if_in_place n paths hasIntersection)
    = Thrust.remove_if (take n paths) (take n hasIntersection)).
  { rewrite (Hlen _ intersections Hi), <- (Hlen _ paths Hp).
    apply remove_if_in_place_take. }
  rewrite Hpt, remove_if_in_place_take.
  rewrite <- !remove_if_filter, <- remove_if_zip.
  repeat split; try done.
  - apply remove_if_sublist.
  - apply remove_if_sublist.
  - by apply Hlen.
  - rewrite (Hlen _ paths Hp). symmetry. by apply Hlen.
Qed.

Lemma compaction_stable_partition_witness :
  take 2 [Demo.blank; Demo.blank; Demo.blank]
  = (filter kept (zip (take 3 [Demo.blank; Demo.blank; Demo.blank])
                      (take 3 [true; false; true]))).*1.
Proof.
  refine (proj1 (compaction_stable_partition 3
           (replicate 3 zero_intersection)
           [Demo.blank; Demo.blank; Demo.blank] [true; false; true]
           _ _ 2%nat _ _ _ _)); simpl; try lia; reflexivity.
Defined.

(** ** Kernel launches as array transformers *)

Section Launch.

Context {A : Type}.

Lemma launch_ext {M : Type} blocks bsize (f g : nat -> M -> M) (m : M) :
  (forall idx m', f idx m' = g idx m') ->
  Cuda.launch blocks bsize f m = Cuda.launch blocks bsize g m.
Proof.
  intros Hfg. unfold Cuda.launch.
  generalize (seq 0 (blocks * bsize)). intros l. revert m.
  induction l as [|i l IH]; intros m; [done|].
  cbn [foldl]. rewrite Hfg. apply IH.
Qed.

(** A launch whose thread [idx] rewrites slot [idx], and nothing else,
    rewrites every slot the grid covers. *)
Lemma launch_alter_lookup blocks bsize (g : nat -> A -> A) (m : list A)
    (i : nat) :
  Cuda.launch blocks bsize (fun idx m => alter (g idx) idx m) m !! i
  = (if (i <? blocks * bsize)%nat then g i else id) <$> m !! i.
Proof.
  unfold Cuda.launch. generalize (blocks * bsize)%nat. intros N.
  induction N as [|N IH].
  - cbn. by destruct (m !! i).
  - rewrite seq_S, foldl_app. cbn [foldl plus].
    rewrite list_lookup_alter. case_decide as Hi.
    + subst i. rewrite IH.
      replace (N <? N)%nat with false by (symmetry; apply Nat.ltb_ge; lia).
      replace (N <? S N)%nat with true by (symmetry; apply Nat.ltb_lt; lia).
      by destruct (m !! N).
    + rewrite IH.
      destruct (Nat.ltb_spec i N), (Nat.ltb_spec i (S N)); try done; lia.
Qed.

Lemma launch_alter_length blocks bsize (g : nat -> A -> A) (m : list A) :
  length (Cuda.launch blocks bsize (fun idx m => alter (g idx) idx m) m)
  = length m.
Proof.
  unfold Cuda.launch. generalize (seq 0 (blocks * bsize)). intros l.
  revert m. induction l as [|i l IH]; intros m; [done|].
  cbn [foldl]. rewrite IH. apply length_alter.
Qed.

Lemma launch_alter blocks bsize (g : nat -> A -> A) (m : list A) :
  Cuda.launch blocks bsize (fun idx m => alter (g idx) idx m) m
  = imap (fun i x => if (i <? blocks * bsize)%nat then g i x else x) m.
Proof.
  apply list_eq. intros i.
  rewrite launch_alter_lookup, list_lookup_imap.
  by destruct (Nat.ltb_spec i (blocks * bsize)), (m !! i).
Qed.

(** A launch on two arrays whose threads treat each array on its own. *)
Lemma launch_pair {B : Type} blocks bsize (f : nat -> list A -> list A)
    (g : nat -> list B -> list B) (a : list A) (b : list B) :
  Cuda.launch blocks bsize (fun idx m => (f idx m.1, g idx m.2)) (a, b)
  = (Cuda.launch blocks bsize f a, Cuda.launch blocks bsize g b).
Proof.
  unfold Cuda.launch. generalize (seq 0 (blocks * bsize)). intros l.
  revert a b. induction l as [|i l IH]; intros a b; [done|].
  cbn [foldl]. apply IH.
Qed.

Lemma blocks_for_covers (n : nat) :
  (n <= Cuda.blocks_for n blockSize1d * blockSize1d)%nat.
Proof.
  unfold Cuda.blocks_for, blockSize1d.
  pose proof (Nat.div_mod (n + 128 - 1) 128 ltac:(lia)) as Hd.
  pose proof (Nat.mod_upper_bound (n + 128 - 1) 128 ltac:(lia)). lia.
Qed.

Lemma blocks_for_zero (n bs : nat) :
  (0 < bs)%nat ->
  Cuda.invalid_configuration (Cuda.blocks_for n bs) = true <-> n = 0%nat.
Proof.
  intros Hbs. unfold Cuda.invalid_configuration, Cuda.blocks_for.
  rewrite Nat.eqb_eq. split.
  - intros Hz. apply Nat.div_small_iff in Hz; lia.
  - intros ->. apply Nat.div_small. lia.
Qed.

End Launch.

(** ** The depth pass, stage by stage *)

Section PassStages.

Context (X : Collab) (SORT_BY_MATERIAL : bool) (scene : Scene X) (iter : Z).
Implicit Types s : LoopState X.

Definition pass_geoms s : list (Geom X) :=
  Cuda.launch (Cuda.blocks_for (length (geoms scene)) blockSize1d)
    blockSize1d
    (updateGeoms_thread X (length (geoms scene)) iter
       (exposure (camera scene)))
    (dev_geoms (dev s)).

Definition pass_traced s : list ShadeableIntersection * list bool :=
  Cuda.launch (Cuda.blocks_for (num_paths s) blockSize1d) blockSize1d
    (computeIntersections_thread X (depth s) (num_paths s)
       (dev_paths (dev s)) (pass_geoms s) (length (geoms scene)))
    (replicate (pixelcount X scene) zero_intersection,
     dev_hasIntersection (dev s)).

Definition pass_failed s : bool :=
  pending_error s
  || Cuda.invalid_configuration
       (Cuda.blocks_for (length (geoms scene)) blockSize1d)
  || Cuda.invalid_configuration (Cuda.blocks_for (num_paths s) blockSize1d).

Definition pass_compacted s
    : list ShadeableIntersection * list PathSegment * nat :=
  compaction (num_paths s) (pass_traced s).1 (dev_paths (dev s))
             (pass_traced s).2.

Definition pass_sorted s
    : list Z * list Z * list ShadeableIntersection * list PathSegment :=
  if SORT_BY_MATERIAL then
    sortByMaterial (Cuda.blocks_for (num_paths s) blockSize1d)
      (pass_compacted s).2
      (dev_materialIds_isec (dev s)) (dev_materialIds_path (dev s))
      (pass_compacted s).1.1 (pass_compacted s).1.2
  else (dev_materialIds_isec (dev s), dev_materialIds_path (dev s),
        (pass_compacted s).1.1, (pass_compacted s).1.2).

Definition pass_shaded s : list PathSegment :=
  Cuda.launch (Cuda.blocks_for (num_paths s) blockSize1d) blockSize1d
    (shadeFakeMaterial_thread X iter (pass_compacted s).2
       (pass_sorted s).1.2 (dev_materials (dev s)))
    (pass_sorted s).2.

Definition pass_state s : LoopState X :=
  {| dev := {| dev_image := dev_image (dev s);
               dev_geoms := pass_geoms s;
               dev_materials := dev_materials (dev s);
               dev_paths := pass_shaded s;
               dev_intersections := (pass_sorted s).1.2;
               dev_hasIntersection := (pass_traced s).2;
               dev_materialIds_isec := (pass_sorted s).1.1.1;
               dev_materialIds_path := (pass_sorted s).1.1.2 |};
     depth := depth s + 1;
     num_paths := (pass_compacted s).2;
     pending_error :=
       Cuda.invalid_configuration
         (Cuda.blocks_for (num_paths s) blockSize1d) |}.

Lemma depthPass_unfold s :
  depthPass X SORT_BY_MATERIAL scene iter s
  = if pass_failed s then Exit "trace one bounce" else Done (pass_state s).
Proof.
  unfold depthPass, pass_failed, pass_state, pass_shaded, pass_sorted.
  unfold pass_compacted.
  fold (pass_geoms s). fold (pass_traced s).
  destruct (pass_traced s) as [isects1 flags1]. cbn [fst snd].
  destruct (_ || _ || _); [done|].
  destruct (compaction _ _ _ _) as [[isects2 paths2] n']. cbn [fst snd].
  destruct SORT_BY_MATERIAL; [|done].
  by destruct (sortByMaterial _ _ _ _ _ _) as [[[? ?] ?] ?].
Qed.

Lemma depthPass_Done s s' :
  depthPass X SORT_BY_MATERIAL scene iter s = Done s' ->
  pass_failed s = false /\ s' = pass_state s.
Proof.
  rewrite depthPass_unfold. destruct (pass_failed s); [done|].
  intros [= <-]. done.
Qed.

Lemma pass_failed_false s :
  pass_failed s = false <->
  pending_error s = false /\ geoms scene <> [] /\ num_paths s <> 0%nat.
Proof.
  unfold pass_failed. rewrite !orb_false_iff.
  pose proof (blocks_for_zero (length (geoms scene)) blockSize1d
                ltac:(unfold blockSize1d; lia)) as Hg.
  pose proof (blocks_for_zero (num_paths s) blockSize1d
                ltac:(unfold blockSize1d; lia)) as Hn.
  destruct (Cuda.invalid_configuration (Cuda.blocks_for (length _) _)),
           (Cuda.invalid_configuration (Cuda.blocks_for (num_paths s) _)).
  all: split; [intros [[? ?] ?] | intros (? & Hg' & Hn')]; try done.
  all: repeat split; try done.
  all: try (intros Heq; rewrite Heq in Hg; cbn in Hg;
            destruct Hg as [_ Hg]; by specialize (Hg eq_refl)).
  all: try (intros Heq; destruct Hn as [_ Hn]; by specialize (Hn Heq)).
  all: try (exfalso; apply Hn'; by apply Hn).
  all: try (exfalso; apply Hg'; apply length_zero_iff_nil; by apply Hg).
Qed.

End PassStages.

(** ** The depth loop *)

Section DepthLoop.

Context (X : Collab) (SORT_BY_MATERIAL : bool) (scene : Scene X) (iter : Z).
Implicit Types s : LoopState X.

(** The state in which [pathtrace] enters the loop. *)
Definition loop_entry (d : Device X) : LoopState X :=
  {| dev := {| dev_image := dev_image d;
               dev_geoms := dev_geoms d;
               dev_materials := dev_materials d;
               dev_paths :=
                 Cuda.launch2d
                   (Cuda.blocks_for (resolution_x (camera scene)) blockSize2d)
                   (Cuda.blocks_for (resolution_y (camera scene)) blockSize2d)
                   blockSize2d blockSize2d
                   (generateRayFromCamera_thread X (camera scene) iter
                      (traceDepth scene))
                   (dev_paths d);
               dev_intersections := dev_intersections d;
               dev_hasIntersection := dev_hasIntersection d;
               dev_materialIds_isec := dev_materialIds_isec d;
               dev_materialIds_path := dev_materialIds_path d |};
     depth := 0;
     num_paths := pixelcount X scene;
     pending_error := false |}.

Lemma passes_depth k s s' :
  passes X SORT_BY_MATERIAL scene iter k s = Done s' ->
  depth s' = depth s + Z.of_nat k.
Proof.
  revert s. induction k as [|k IH]; intros s; cbn [passes].
  - intros [= <-]. lia.
  - destruct (depthPass _ _ _ _ s) as [s1| |] eqn:Hp; try done.
    intros Hk. apply IH in Hk. apply depthPass_Done in Hp as [_ ->].
    cbn [depth pass_state] in Hk. lia.
Qed.

Lemma depthLoop_is_passes fuel s :
  depth s < traceDepth scene ->
  (Z.to_nat (traceDepth scene - depth s) <= fuel)%nat ->
  depthLoop X SORT_BY_MATERIAL scene iter fuel s
  = passes X SORT_BY_MATERIAL scene iter
           (Z.to_nat (traceDepth scene - depth s)) s.
Proof.
  remember (Z.to_nat (traceDepth scene - depth s)) as k eqn:Hk.
  revert s fuel Hk. induction k as [|k IH]; intros s fuel Hk Hlt Hfuel.
  - lia.
  - destruct fuel as [|fuel]; [lia|]. cbn [depthLoop passes].
    destruct (depthPass _ _ _ _ s) as [s1| |] eqn:Hp; try done.
    apply depthPass_Done in Hp as [_ ->].
    cbn [depth pass_state].
    destruct (Z.eqb_spec (depth s + 1) (traceDepth scene)) as [He|Hne].
    + replace k with 0%nat by lia. done.
    + apply IH; cbn [depth pass_state]; lia.
Qed.

Lemma depthLoop_Done_depth fuel s s' :
  depthLoop X SORT_BY_MATERIAL scene iter fuel s = Done s' ->
  depth s' = traceDepth scene /\ depth s < depth s'.
Proof.
  revert s. induction fuel as [|fuel IH]; intros s; cbn [depthLoop]; [done|].
  destruct (depthPass _ _ _ _ s) as [s1| |] eqn:Hp; try done.
  apply depthPass_Done in Hp as [_ ->]. cbn [depth pass_state].
  destruct (Z.eqb_spec (depth s + 1) (traceDepth scene)) as [He|Hne].
  - intros [= <-]. cbn [depth pass_state]. lia.
  - intros Hl. apply IH in Hl. cbn [depth pass_state] in Hl. lia.
Qed.

Lemma depthPass_num_paths s s' :
  depthPass X SORT_BY_MATERIAL scene iter s = Done s' ->
  (num_paths s' <= num_paths s)%nat.
Proof.
  intros Hp. apply depthPass_Done in Hp as [_ ->].
  cbn [num_paths pass_state]. unfold pass_compacted, compaction.
  cbn [snd].
  etransitivity; [apply sublist_length, remove_if_sublist|].
  rewrite length_take. lia.
Qed.

Lemma passes_num_paths k s s' :
  passes X SORT_BY_MATERIAL scene iter k s = Done s' ->
  (num_paths s' <= num_paths s)%nat.
Proof.
  revert s. induction k as [|k IH]; intros s; cbn [passes].
  - by intros [= <-].
  - destruct (depthPass _ _ _ _ s) as [s1| |] eqn:Hp; try done.
    intros Hk. apply IH in Hk. apply depthPass_num_paths in Hp. lia.
Qed.

End DepthLoop.

(** C2 (as the code has it).  The loop leaves through the test
    [depth == traceDepth] and through nothing else: from a depth below the
    trace depth it performs as many passes as separate the two, one after
    the other, and whenever it returns the depth counter equals the trace
    depth.  The number of active paths is not looked at. *)
Theorem depthLoop_exits_on_depth_only (X : Collab) (SORT_BY_MATERIAL : bool)
    (scene : Scene X) (iter : Z) (fuel : nat) (s : LoopState X) :
  (depth s < traceDepth scene ->
   (Z.to_nat (traceDepth scene - depth s) <= fuel)%nat ->
   depthLoop X SORT_BY_MATERIAL scene iter fuel s
   = passes X SORT_BY_MATERIAL scene iter
            (Z.to_nat (traceDepth scene - depth s)) s)
  /\ (forall s', depthLoop X SORT_BY_MATERIAL scene iter fuel s = Done s' ->
                 depth s' = traceDepth scene /\ depth s < depth s').
Proof.
  split.
  - apply depthLoop_is_passes.
  - apply depthLoop_Done_depth.
Qed.

(** C3 (as the code has it).  The active count never grows from one depth
    to the next and never exceeds the pixel count. *)
Theorem active_count_shrinks (X : Collab) (SORT_BY_MATERIAL : bool)
    (scene : Scene X) (iter : Z) (d : Device X) (k : nat)
    (s1 s2 : LoopState X) :
  passes X SORT_BY_MATERIAL scene iter k (loop_entry X scene iter d)
    = Done s1 ->
  depthPass X SORT_BY_MATERIAL scene iter s1 = Done s2 ->
  (num_paths s2 <= num_paths s1)%nat
  /\ (num_paths s1 <= pixelcount X scene)%nat
  /\ depth s1 = Z.of_nat k /\ depth s2 = Z.of_nat k + 1.
Proof.
  intros Hk Hp.
  pose proof (passes_num_paths _ _ _ _ _ _ _ Hk) as H1.
  pose proof (passes_depth _ _ _ _ _ _ _ Hk) as H2.
  pose proof (depthPass_num_paths _ _ _ _ _ _ Hp) as H3.
  apply depthPass_Done in Hp as [_ ->].
  cbn [num_paths depth loop_entry pass_state] in *. lia.
Qed.

Lemma depthLoop_exits_on_depth_only_witness :
  result_map depth
    (depthLoop Demo.collab false Demo.lit_room 1 5
       (loop_entry Demo.collab Demo.lit_room 1
          (device (Demo.start false Demo.lit_room))))
  = Done (traceDepth Demo.lit_room).
Proof.
  rewrite (proj1 (depthLoop_exits_on_depth_only Demo.collab false
                    Demo.lit_room 1 5 _));
    [vm_compute; reflexivity | vm_compute; reflexivity | vm_compute; lia].
Defined.

(** Reading a result. *)
Definition is_done {A : Type} (r : result A) : bool :=
  match r with Done _ => true | _ => false end.

Definition done_or {A : Type} (a : A) (r : result A) : A :=
  match r with Done a' => a' | _ => a end.

Lemma is_done_eq {A : Type} (a : A) (r : result A) :
  is_done r = true -> r = Done (done_or a r).
Proof. by destruct r. Qed.

(** The states of the loop in the demonstration scenes. *)
Definition void_entry : LoopState Demo.collab :=
  loop_entry Demo.collab Demo.void 1 (device (Demo.start false Demo.void)).

Definition lit_entry : LoopState Demo.collab :=
  loop_entry Demo.collab Demo.lit_room 1
    (device (Demo.start false Demo.lit_room)).

Definition void_after_one_pass : LoopState Demo.collab :=
  done_or void_entry (depthPass Demo.collab false Demo.void 1 void_entry).

Definition lit_after_one_pass : LoopState Demo.collab :=
  done_or lit_entry (passes Demo.collab false Demo.lit_room 1 1 lit_entry).

Definition lit_after_two_passes : LoopState Demo.collab :=
  done_or lit_entry
    (depthPass Demo.collab false Demo.lit_room 1 lit_after_one_pass).

(** C2 fails as stated: in the scene [Demo.void] the first pass leaves no
    active path while the depth is below the trace depth, and the loop does
    not stop there: it goes into a further pass, whose tracing launch has
    an empty grid and ends the process. *)
Lemma depthLoop_goes_on_without_paths :
  exists s1,
    depthPass Demo.collab false Demo.void 1 void_entry = Done s1
    /\ num_paths s1 = 0%nat
    /\ depth s1 < traceDepth Demo.void
    /\ result_map depth (depthLoop Demo.collab false Demo.void 1 5 void_entry)
       = Exit "trace one bounce".
Proof.
  exists void_after_one_pass.
  split; [apply is_done_eq; vm_compute; reflexivity|].
  split; [vm_compute; reflexivity|].
  split; vm_compute; reflexivity.
Qed.

Lemma active_count_shrinks_witness :
  (num_paths lit_after_two_passes <= num_paths lit_after_one_pass)%nat
  /\ (num_paths lit_after_one_pass <= pixelcount Demo.collab Demo.lit_room)%nat
  /\ depth lit_after_one_pass = Z.of_nat 1
  /\ depth lit_after_two_passes = Z.of_nat 1 + 1.
Proof.
  refine (active_count_shrinks Demo.collab false Demo.lit_room 1
            (device (Demo.start false Demo.lit_room)) 1
            lit_after_one_pass lit_after_two_passes _ _);
    apply is_done_eq; vm_compute; reflexivity.
Defined.

(** C3 fails as stated: in the scene [Demo.lit_room] both paths meet the
    light in the first pass, which sets their budget to 0; at depth 1 they
    are in the active set all the same, and they still are after the second
    pass. *)
Lemma terminated_path_stays_active :
  exists s1 s2 seg,
    passes Demo.collab false Demo.lit_room 1 1 lit_entry = Done s1
    /\ depth s1 = 1
    /\ num_paths s1 = 2%nat
    /\ dev_paths (dev s1) !! 0%nat = Some seg
    /\ remainingBounces seg = 0
    /\ depthPass Demo.collab false Demo.lit_room 1 s1 = Done s2
    /\ num_paths s2 = 2%nat.
Proof.
  exists lit_after_one_pass, lit_after_two_passes,
    (mkPathSegment (mkRay Demo.v0 Demo.v1) Demo.v1 0 0).
  split; [apply is_done_eq; vm_compute; reflexivity|].
  split; [vm_compute; reflexivity|].
  split; [vm_compute; reflexivity|].
  split; [vm_compute; reflexivity|].
  split; [vm_compute; reflexivity|].
  split; [apply is_done_eq; vm_compute; reflexivity|].
  vm_compute; reflexivity.
Qed.
(** ** Geometry update *)

Section GeometryUpdate.

Context (X : Collab) (SORT_BY_MATERIAL : bool) (scene : Scene X) (iter : Z).
Implicit Types s : LoopState X.

Lemma updateGeoms_thread_alter nGeoms exposure index (gs : list (Geom X)) :
  updateGeoms_thread X nGeoms iter exposure index gs
  = alter (fun g => if (index <? nGeoms)%nat
                    then update X g (geom_dT X iter index exposure) else g)
          index gs.
Proof.
  unfold updateGeoms_thread. destruct (index <? nGeoms)%nat; [done|].
  symmetry. by apply list_alter_id.
Qed.

Lemma pass_geoms_imap s :
  length (dev_geoms (dev s)) = length (geoms scene) ->
  pass_geoms X scene iter s
  = imap (fun index g =>
            update X g (geom_dT X iter index (exposure (camera scene))))
         (dev_geoms (dev s)).
Proof.
  intros Hlen. unfold pass_geoms.
  erewrite launch_ext by (intros; apply updateGeoms_thread_alter).
  rewrite launch_alter. apply imap_ext. intros i g Hi.
  apply lookup_lt_Some in Hi. rewrite Hlen in Hi.
  pose proof (blocks_for_covers (length (geoms scene))) as Hc.
  destruct (Nat.ltb_spec i
              (Cuda.blocks_for (length (geoms scene)) blockSize1d
               * blockSize1d)); [|lia].
  destruct (Nat.ltb_spec i (length (geoms scene))); [done|lia].
Qed.

End GeometryUpdate.

(** C10.  The time offset of a primitive is a function of the iteration
    index, the primitive index and the exposure; the depth is no input of
    it.  After [k] passes of one iteration every primitive has gone [k]
    times through its update rule, each time with this one offset. *)
Theorem geometry_update_same_dT_every_pass (X : Collab)
    (SORT_BY_MATERIAL : bool) (scene : Scene X) (iter : Z) (k : nat)
    (s s' : LoopState X) :
  length (dev_geoms (dev s)) = length (geoms scene) ->
  passes X SORT_BY_MATERIAL scene iter k s = Done s' ->
  dev_geoms (dev s')
  = imap (fun index g =>
            Nat.iter k
              (fun g' =>
                 update X g' (geom_dT X iter index (exposure (camera scene))))
              g)
         (dev_geoms (dev s)).
Proof.
  revert s. induction k as [|k IH]; intros s Hlen; cbn [passes].
  - (* no pass: nothing has been updated *)
    intros [= <-]. apply list_eq. intros i. rewrite list_lookup_imap.
    by destruct (_ !! i).
  - (* one pass, then [k] more from the state it leaves *)
    destruct (depthPass _ _ _ _ s) as [s1| |] eqn:Hp; try done.
    apply depthPass_Done in Hp as [_ ->]. intros Hk.
    apply IH in Hk.
    2:{ cbn [dev dev_geoms pass_state]. rewrite pass_geoms_imap by done.
        by rewrite length_imap. }
    rewrite Hk. cbn [dev dev_geoms pass_state].
    rewrite pass_geoms_imap by done.
    apply list_eq. intros i. rewrite !list_lookup_imap.
    destruct (dev_geoms (dev s) !! i); cbn [fmap option_fmap option_map];
      [|done].
    by rewrite Nat.iter_succ_r.
Qed.


Lemma geometry_update_same_dT_every_pass_witness :
  dev_geoms
    (dev (done_or lit_entry
            (passes Demo.collab false Demo.lit_room 1 2 lit_entry)))
  = imap (fun index g =>
            Nat.iter 2
              (fun g' =>
                 update Demo.collab g'
                   (geom_dT Demo.collab 1 index
                      (exposure (camera Demo.lit_room))))
              g)
         (dev_geoms (dev lit_entry)).
Proof.
  refine (geometry_update_same_dT_every_pass Demo.collab false Demo.lit_room
            1 2 lit_entry _ _ _).
  - vm_compute; reflexivity.
  - apply is_done_eq; vm_compute; reflexivity.
Defined.

(** ** Shading *)

Lemma alter_lookup_Some {A : Type} (f : A -> A) (l : list A) i x :
  l !! i = Some x -> alter f i l = <[i := f x]> l.
Proof.
  intros Hx. apply list_eq. intros j.
  rewrite list_lookup_alter, list_lookup_insert.
  apply lookup_lt_Some in Hx as Hlt.
  destruct (decide (i = j)) as [<-|Hne].
  - rewrite decide_True by done. by rewrite Hx.
  - rewrite decide_False by (intros [? ?]; done). done.
Qed.

Lemma alter_lookup_None {A : Type} (f : A -> A) (l : list A) i :
  l !! i = None -> alter f i l = l.
Proof.
  intros Hx. apply list_eq. intros j. rewrite list_lookup_alter.
  destruct (decide (i = j)) as [<-|Hne]; [|done]. by rewrite Hx.
Qed.

Section Shading.

Context (X : Collab) (iter : Z) (num_paths : nat)
        (shadeableIntersections : list ShadeableIntersection)
        (materials : list Material).

(** What the thread [idx] of [shadeFakeMaterial] makes of the segment in
    its slot. *)
Definition shade_slot (idx : nat) (seg : PathSegment) : PathSegment :=
  if (idx <? num_paths)%nat then
    if remainingBounces seg =? 0 then seg
    else
      match shadeableIntersections !! idx with
      | None => seg
      | Some intersection =>
          match material_at materials (materialId intersection) with
          | None => seg
          | Some material => shade_segment X iter idx intersection material seg
          end
      end
  else {| ray := ray seg; color := Glm.vec3_splat F32.zero;
          pixelIndex := pixelIndex seg;
          remainingBounces := remainingBounces seg |}.

Lemma shadeFakeMaterial_thread_alter idx (paths : list PathSegment) :
  shadeFakeMaterial_thread X iter num_paths shadeableIntersections materials
    idx paths
  = alter (shade_slot idx) idx paths.
Proof.
  unfold shadeFakeMaterial_thread, shade_slot.
  destruct (idx <? num_paths)%nat; [|reflexivity].
  destruct (paths !! idx) as [seg|] eqn:Hseg.
  - rewrite (alter_lookup_Some _ _ _ _ Hseg).
    destruct (remainingBounces seg =? 0).
    { symmetry. by apply list_insert_id. }
    destruct (shadeableIntersections !! idx) as [isect|].
    2:{ symmetry. by apply list_insert_id. }
    destruct (material_at materials (materialId isect)) as [material|].
    2:{ symmetry. by apply list_insert_id. }
    reflexivity.
  - symmetry. by apply alter_lookup_None.
Qed.

Lemma shadeFakeMaterial_lookup blocks (paths : list PathSegment) idx :
  (idx < blocks * blockSize1d)%nat ->
  Cuda.launch blocks blockSize1d
    (shadeFakeMaterial_thread X iter num_paths shadeableIntersections
       materials) paths !! idx
  = shade_slot idx <$> paths !! idx.
Proof.
  intros Hidx.
  erewrite launch_ext by (intros; apply shadeFakeMaterial_thread_alter).
  rewrite launch_alter_lookup.
  by destruct (Nat.ltb_spec idx (blocks * blockSize1d)); [|lia].
Qed.

End Shading.

(** C5.  In the shading launch, a path of the active range whose budget is
    not used up and whose material has a positive emittance gets its color
    multiplied by (material color times emittance) and its budget set to 0;
    a path whose budget is 0 keeps its whole state, and its thread writes
    nothing. *)
Theorem shading_emissive_and_exhausted (X : Collab) (iter : Z)
    (blocks num_paths : nat)
    (shadeableIntersections : list ShadeableIntersection)
    (materials : list Material) (paths : list PathSegment) (idx : nat)
    (seg : PathSegment) :
  (idx < num_paths)%nat ->
  (idx < blocks * blockSize1d)%nat ->
  paths !! idx = Some seg ->
  (forall intersection material,
     0 < remainingBounces seg ->
     shadeableIntersections !! idx = Some intersection ->
     material_at materials (materialId intersection) = Some material ->
     F32.ltb F32.zero (emittance material) = true ->
     Cuda.launch blocks blockSize1d
       (shadeFakeMaterial_thread X iter num_paths shadeableIntersections
          materials) paths !! idx
     = Some {| ray := ray seg;
               color := Glm.vmul (color seg)
                          (Glm.vscale (mcolor material) (emittance material));
               pixelIndex := pixelIndex seg;
               remainingBounces := 0 |})
  /\ (remainingBounces seg = 0 ->
      Cuda.launch blocks blockSize1d
        (shadeFakeMaterial_thread X iter num_paths shadeableIntersections
           materials) paths !! idx
      = Some seg
      /\ shadeFakeMaterial_thread X iter num_paths shadeableIntersections
           materials idx paths
         = paths).
Proof.
  intros Hn Hb Hseg.
  apply Nat.ltb_lt in Hn as Hn'.
  split.
  - intros isect material Hpos Hi Hm He.
    rewrite shadeFakeMaterial_lookup by done. rewrite Hseg. cbn.
    unfold shade_slot. rewrite Hn', Hi, Hm.
    destruct (Z.eqb_spec (remainingBounces seg) 0); [lia|].
    unfold shade_segment. by rewrite He.
  - intros Hz. split.
    + rewrite shadeFakeMaterial_lookup by done. rewrite Hseg. cbn.
      unfold shade_slot. rewrite Hn', Hz. done.
    + unfold shadeFakeMaterial_thread. rewrite Hn', Hseg, Hz. done.
Qed.

(** A path that has three bounces left. *)
Definition fresh_path : PathSegment :=
  mkPathSegment (mkRay Demo.v0 Demo.v1) Demo.v1 1 3.

Lemma shading_emissive_and_exhausted_witness :
  Cuda.launch 1 blockSize1d
    (shadeFakeMaterial_thread Demo.collab 1 2
       (replicate 2 zero_intersection) [Demo.light])
    [Demo.blank; fresh_path] !! 1%nat
  = Some {| ray := ray fresh_path;
            color := Glm.vmul (color fresh_path)
                       (Glm.vscale (mcolor Demo.light)
                                   (emittance Demo.light));
            pixelIndex := pixelIndex fresh_path;
            remainingBounces := 0 |}
  /\ Cuda.launch 1 blockSize1d
       (shadeFakeMaterial_thread Demo.collab 1 2
          (replicate 2 zero_intersection) [Demo.light])
       [Demo.blank; fresh_path] !! 0%nat
     = Some Demo.blank.
Proof.
  split.
  - refine (proj1 (shading_emissive_and_exhausted Demo.collab 1 1 2
             (replicate 2 zero_intersection) [Demo.light]
             [Demo.blank; fresh_path] 1 fresh_path _ _ _)
             zero_intersection Demo.light _ _ _ _);
      vm_compute; reflexivity || lia.
  - refine (proj1 (proj2 (shading_emissive_and_exhausted Demo.collab 1 1 2
             (replicate 2 zero_intersection) [Demo.light]
             [Demo.blank; fresh_path] 0 Demo.blank _ _ _) _));
      vm_compute; reflexivity || lia.
Defined.

(** ** Dispersion *)

(** The mean of three samples the way the accumulation buffer forms it:
    the samples are added in their order and the sum is divided by their
    number. *)
Definition mean_of_three (a b c : vec3) : vec3 :=
  let sum := Glm.vadd (Glm.vadd a b) c in
  mkvec3 (F32.div (vx sum) (F32.of_int 3)) (F32.div (vy sum) (F32.of_int 3))
         (F32.div (vz sum) (F32.of_int 3)).

Lemma vget_vset v c a k :
  0 <= c < 3 -> 0 <= k < 3 ->
  Glm.vget (Glm.vset v c a) k = if k =? c then a else Glm.vget v k.
Proof.
  intros Hc Hk. unfold Glm.vget, Glm.vset.
  assert (Hcs : c = 0 \/ c = 1 \/ c = 2) by lia.
  assert (Hks : k = 0 \/ k = 1 \/ k = 2) by lia.
  destruct Hcs as [-> | [-> | ->]], Hks as [-> | [-> | ->]]; reflexivity.
Qed.

(** C6 (as the code has it).  For a material with dispersion and an
    iteration index [iter >= 0], the index of refraction handed to
    [scatterRay] is the one of channel [iter mod 3]; the color handed over is
    zero outside that channel and 1.4f times the base color in it; hence
    over three consecutive iterations every channel is served once, with
    1.4f times its base value. *)
Theorem dispersion_selects_channel (X : Collab) (iter : Z)
    (material : Material) :
  0 <= iter ->
  hasDispersion (dispersion material) = true ->
  m_indexOfRefraction iter material
  = Glm.vget (dispIndexOfRefraction (dispersion material)) (iter mod 3)
  /\ (forall k, 0 <= k < 3 ->
        Glm.vget (m_color iter material) k
        = if k =? iter mod 3
          then F32.mul F32.one_point_four (Glm.vget (mcolor material) k)
          else F32.zero)
  /\ (forall idx intersection seg,
        F32.ltb F32.zero (emittance material) = false ->
        shade_segment X iter idx intersection material seg
        = scatterRay X seg
            (Glm.vadd (origin (ray seg))
                      (Glm.vscale (direction (ray seg)) (t intersection)))
            (surfaceNormal intersection)
            (hasReflective material) (hasRefractive material)
            (Glm.vget (dispIndexOfRefraction (dispersion material))
                      (iter mod 3))
            (Glm.vset (Glm.vec3_splat F32.zero) (iter mod 3)
               (F32.mul F32.one_point_four
                        (Glm.vget (mcolor material) (iter mod 3))))
            (roughness material)
            (makeSeededRandomEngine X iter (Z.of_nat idx) 0))
  /\ (forall k, 0 <= k < 3 ->
        exists j, iter <= j <= iter + 2 /\ j mod 3 = k
          /\ Glm.vget (m_color j material) k
             = F32.mul F32.one_point_four (Glm.vget (mcolor material) k)
          /\ forall j', iter <= j' <= iter + 2 -> j' <> j ->
               Glm.vget (m_color j' material) k = F32.zero).
Proof.
  intros Hiter Hdisp.
  assert (Hrem : forall j, 0 <= j -> Int32.rem j 3 = j mod 3).
  { intros j Hj. unfold Int32.rem. apply Z.rem_mod_nonneg; lia. }
  assert (Hcol : forall j k, 0 <= j -> 0 <= k < 3 ->
            Glm.vget (m_color j material) k
            = if k =? j mod 3
              then F32.mul F32.one_point_four (Glm.vget (mcolor material) k)
              else F32.zero).
  { intros j k Hj Hk. unfold m_color. rewrite Hdisp, (Hrem j Hj).
    pose proof (Z.mod_pos_bound j 3 ltac:(lia)) as Hb.
    rewrite vget_vset by done.
    destruct (Z.eqb_spec k (j mod 3)) as [->|Hne]; [done|].
    unfold Glm.vget, Glm.vec3_splat. cbn [vx vy vz].
    by repeat destruct (_ =? _). }
  split; [|split; [|split]].
  - unfold m_indexOfRefraction. by rewrite Hdisp, (Hrem iter Hiter).
  - intros k Hk. by apply Hcol.
  - intros idx isect seg He. unfold shade_segment. rewrite He.
    unfold m_indexOfRefraction, m_color.
    by rewrite Hdisp, (Hrem iter Hiter).
  - intros k Hk. exists (iter + (k - iter) mod 3).
    pose proof (Z.mod_pos_bound (k - iter) 3 ltac:(lia)) as Hb.
    assert (Hj : (iter + (k - iter) mod 3) mod 3 = k).
    { rewrite Zplus_mod_idemp_r. replace (iter + (k - iter)) with k by lia.
      apply Z.mod_small. lia. }
    split; [lia|]. split; [exact Hj|]. split.
    + rewrite Hcol by lia. rewrite Hj. by rewrite Z.eqb_refl.
    + intros j' Hj' Hne. rewrite Hcol by lia.
      destruct (Z.eqb_spec k (j' mod 3)) as [Heq|]; [|done].
      exfalso. apply Hne.
      assert (Hd : (j' - iter) mod 3 = (k - iter) mod 3).
      { rewrite Heq. rewrite Zminus_mod_idemp_l. done. }
      rewrite <- Hd. rewrite Z.mod_small by lia. lia.
Qed.

Lemma dispersion_selects_channel_witness :
  m_indexOfRefraction 4 Demo.prism = F32.one_point_four.
Proof.
  refine (proj1 (dispersion_selects_channel Demo.collab 4 Demo.prism _ _));
    [lia | reflexivity].
Defined.

(** C6 fails as stated: with the base color (1, 1, 1) the colors handed over
    in the iterations 0, 1 and 2 have the mean (1.4/3, 1.4/3, 1.4/3) and
    not the base color. *)
Lemma three_iterations_do_not_average_to_base_color :
  mean_of_three (m_color 0 Demo.prism) (m_color 1 Demo.prism)
                (m_color 2 Demo.prism)
  = Glm.vec3_splat (S754_finite false 15658735 (-25))
  /\ mean_of_three (m_color 0 Demo.prism) (m_color 1 Demo.prism)
                   (m_color 2 Demo.prism)
     <> mcolor Demo.prism.
Proof. split; [vm_compute; reflexivity | vm_compute; discriminate]. Qed.

(** ** Seeding of the shading stage *)

(** C7 (what the code does).  The shading kernel is not given the depth:
    the segments a pass produces are the same whatever the depth counter
    holds, and the engine handed to [scatterRay] is seeded from the
    iteration index, the slot of the path in the compacted array and the
    constant 0. *)
Theorem shading_seed_ignores_depth (X : Collab) (SORT_BY_MATERIAL : bool)
    (scene : Scene X) (iter : Z) (s : LoopState X) (d : Z) (idx : nat)
    (intersection : ShadeableIntersection) (material : Material)
    (seg : PathSegment) :
  result_map (fun s' => dev_paths (dev s'))
    (depthPass X SORT_BY_MATERIAL scene iter
       {| dev := dev s; depth := d; num_paths := num_paths s;
          pending_error := pending_error s |})
  = result_map (fun s' => dev_paths (dev s'))
      (depthPass X SORT_BY_MATERIAL scene iter s)
  /\ shade_segment X iter idx intersection material seg
     = if F32.ltb F32.zero (emittance material)
       then {| ray := ray seg;
               color := Glm.vmul (color seg)
                          (Glm.vscale (mcolor material) (emittance material));
               pixelIndex := pixelIndex seg;
               remainingBounces := 0 |}
       else scatterRay X seg
              (Glm.vadd (origin (ray seg))
                        (Glm.vscale (direction (ray seg)) (t intersection)))
              (surfaceNormal intersection)
              (hasReflective material) (hasRefractive material)
              (m_indexOfRefraction iter material) (m_color iter material)
              (roughness material)
              (makeSeededRandomEngine X iter (Z.of_nat idx) 0).
Proof.
  split; [|reflexivity].
  rewrite !depthPass_unfold.
  unfold pass_failed. cbn [pending_error num_paths].
  destruct (_ || _ || _); reflexivity.
Qed.

(** ** The order of binary32 values *)

Section FloatOrder.

Ltac float_order :=
  unfold F32.ltb, SFltb, SFcompare, F32.is_nan;
  repeat match goal with
         | x : float |- _ => destruct x as [[|]|[|]| |[|] ? ?]
         end;
  try done;
  change (Pos.compare_cont Eq) with Pos.compare;
  repeat match goal with
         | |- context [Z.compare ?a ?b] =>
             destruct (Z.compare_spec a b); try subst; try done; try lia
         | |- context [Pos.compare ?a ?b] =>
             destruct (Pos.compare_spec a b); try subst; cbn [CompOpp];
             try done; try lia
         end.

Lemma ltb_irrefl (a : float) : F32.ltb a a = false.
Proof. float_order. Qed.

Lemma ltb_trans (a b c : float) :
  F32.ltb a b = true -> F32.ltb b c = true -> F32.ltb a c = true.
Proof. float_order. Qed.

(** A value that is not below [b], and no NaN, is above everything that
    is below [b]. *)
Lemma ltb_not_below (a b c : float) :
  F32.ltb a b = true -> F32.ltb c b = false -> F32.is_nan c = false ->
  F32.ltb a c = true.
Proof. float_order. Qed.

Lemma ltb_not_nan (a b : float) :
  F32.ltb a b = true -> F32.is_nan a = false /\ F32.is_nan b = false.
Proof. float_order. Qed.

End FloatOrder.

(** ** The nearest hit *)

Section NearestHit.

Context (X : Collab).

(** The distance and the normal that the test of a primitive reports. *)
Definition hit_distance (geom : Geom X) (r : Ray) : float :=
  (intersectionTest X geom r).1.1.1.

Definition hit_normal (geom : Geom X) (r : Ray) : vec3 :=
  (intersectionTest X geom r).1.2.

(** A hit that the search can take: in front of the origin and below the
    initial value of [t_min]. *)
Definition takable (d : float) : bool :=
  F32.ltb F32.zero d && F32.ltb d F32.FLT_MAX.

Lemma hit_step_eq r i geom s :
  hit_step X r i geom s
  = if F32.ltb F32.zero (hit_distance geom r)
       && F32.ltb (hit_distance geom r) (t_min s)
    then {| t_min := hit_distance geom r; hit_geom_index := i;
            intersect_point := (intersectionTest X geom r).1.1.2;
            normal := hit_normal geom r |}
    else s.
Proof.
  unfold hit_step, hit_distance, hit_normal.
  by destruct (intersectionTest X geom r) as [[[d p] n] o].
Qed.

(** What the search knows after the primitives [seen]. *)
Definition searched (r : Ray) (seen : list (Geom X)) (s : HitState)
    : Prop :=
  (hit_geom_index s = -1
   /\ t_min s = F32.FLT_MAX
   /\ forall j g, seen !! j = Some g -> takable (hit_distance g r) = false)
  \/ (exists (k : nat) g,
        hit_geom_index s = Z.of_nat k
        /\ seen !! k = Some g
        /\ t_min s = hit_distance g r
        /\ normal s = hit_normal g r
        /\ F32.ltb F32.zero (hit_distance g r) = true
        /\ F32.ltb (hit_distance g r) F32.FLT_MAX = true
        /\ (forall j g', seen !! j = Some g' ->
              F32.ltb F32.zero (hit_distance g' r) = true ->
              F32.ltb (hit_distance g' r) (hit_distance g r) = false)
        /\ (forall j g', (j < k)%nat -> seen !! j = Some g' ->
              F32.ltb F32.zero (hit_distance g' r) = true ->
              F32.ltb (hit_distance g r) (hit_distance g' r) = true)).

Lemma searched_init r : searched r [] hit_init.
Proof. left. repeat split. intros j g Hj. by destruct j. Qed.

Lemma searched_step r seen geom s :
  searched r seen s ->
  searched r (seen ++ [geom])
           (hit_step X r (Z.of_nat (length seen)) geom s).
Proof.
  intros Hs. rewrite hit_step_eq.
  set (d := hit_distance geom r).
  destruct (F32.ltb F32.zero d) eqn:Hpos; cbn [andb].
  2:{ (* not in front of the origin: nothing changes *)
      destruct Hs as [(Hi & Ht & Hno) | (k & g & Hi & Hk & Ht & Hn & Hp & Hm & Hnear & Hfirst)].
      - left. repeat split; try done. intros j g' Hj.
        apply lookup_snoc_Some in Hj as [[_ Hj] | [_ <-]]; [by eapply Hno|].
        unfold takable. fold d. by rewrite Hpos.
      - right. exists k, g. repeat split; try done.
        + by apply lookup_app_l_Some.
        + intros j g' Hj Hpos'.
          apply lookup_snoc_Some in Hj as [[_ Hj] | [_ <-]];
            [by eapply Hnear|]. fold d in Hpos'. congruence.
        + intros j g' Hjk Hj Hpos'.
          apply lookup_snoc_Some in Hj as [[_ Hj] | [-> _]];
            [by eapply Hfirst|].
          apply lookup_lt_Some in Hk. lia. }
  destruct (F32.ltb d (t_min s)) eqn:Hlt.
  - (* a nearer hit *)
    right. exists (length seen), geom.
    cbn [t_min hit_geom_index normal].
    assert (Hmax : F32.ltb d F32.FLT_MAX = true).
    { destruct Hs as [(_ & Ht & _) | (k & g & _ & _ & Ht & _ & _ & Hm & _)].
      - by rewrite <- Ht.
      - rewrite Ht in Hlt. by eapply ltb_trans. }
    assert (Hfar : forall j g', seen !! j = Some g' ->
              F32.ltb F32.zero (hit_distance g' r) = true ->
              F32.ltb (hit_distance g' r) (t_min s) = false).
    { intros j g' Hj Hpos'.
      destruct Hs as [(_ & Ht & Hno) | (k & g & _ & _ & Ht & _ & _ & _ & Hnear & _)].
      - specialize (Hno j g' Hj). unfold takable in Hno.
        rewrite Hpos' in Hno. by rewrite Ht.
      - rewrite Ht. by eapply Hnear. }
    repeat split; try done.
    + apply lookup_snoc_Some. by right.
    + intros j g' Hj Hpos'.
      apply lookup_snoc_Some in Hj as [[_ Hj] | [_ <-]];
        [|apply ltb_irrefl].
      destruct (F32.ltb (hit_distance g' r) (hit_distance geom r)) eqn:Hc;
        [|done].
      fold d in Hc.
      rewrite <- (Hfar j g' Hj Hpos'). symmetry. by eapply ltb_trans.
    + intros j g' Hjk Hj Hpos'.
      apply lookup_snoc_Some in Hj as [[_ Hj] | [-> _]]; [|lia].
      eapply ltb_not_below; [exact Hlt | by eapply Hfar |].
      by apply ltb_not_nan in Hpos' as [_ ?].
  - (* not nearer than what is held *)
    destruct Hs as [(Hi & Ht & Hno) | (k & g & Hi & Hk & Ht & Hn & Hp & Hm & Hnear & Hfirst)].
    + left. repeat split; try done. intros j g' Hj.
      apply lookup_snoc_Some in Hj as [[_ Hj] | [_ <-]]; [by eapply Hno|].
      unfold takable. fold d. rewrite Hpos. cbn [andb]. by rewrite <- Ht.
    + right. exists k, g. repeat split; try done.
      * by apply lookup_app_l_Some.
      * intros j g' Hj Hpos'.
        apply lookup_snoc_Some in Hj as [[_ Hj] | [_ <-]];
          [by eapply Hnear|]. fold d. by rewrite <- Ht.
      * intros j g' Hjk Hj Hpos'.
        apply lookup_snoc_Some in Hj as [[_ Hj] | [-> _]];
          [by eapply Hfirst|].
        apply lookup_lt_Some in Hk. lia.
Qed.

Lemma searched_loop r gs seen s :
  searched r seen s ->
  searched r (seen ++ gs) (hit_loop X r (Z.of_nat (length seen)) gs s).
Proof.
  revert seen s. induction gs as [|geom gs IH]; intros seen s Hs.
  - by rewrite app_nil_r.
  - cbn [hit_loop].
    replace (seen ++ geom :: gs) with ((seen ++ [geom]) ++ gs)
      by (by rewrite <- app_assoc).
    replace (Z.of_nat (length seen) + 1)
      with (Z.of_nat (length (seen ++ [geom])))
      by (rewrite length_app; cbn [length]; lia).
    apply IH. by apply searched_step.
Qed.

Lemma hit_loop_searched r gs :
  searched r gs (hit_loop X r 0 gs hit_init).
Proof. apply (searched_loop r gs [] hit_init), searched_init. Qed.

(** The threads of [computeIntersections], slot by slot. *)
Definition isect_slot (num_paths : nat) (pathSegments : list PathSegment)
    (geoms : list (Geom X)) (geoms_size : nat) (path_index : nat)
    (rec : ShadeableIntersection) : ShadeableIntersection :=
  if (path_index <? num_paths)%nat then
    match pathSegments !! path_index with
    | None => rec
    | Some pathSegment =>
        let s := hit_loop X (ray pathSegment) 0 (take geoms_size geoms)
                          hit_init in
        if hit_geom_index s =? -1 then
          {| t := F32.minus_one; surfaceNormal := surfaceNormal rec;
             materialId := materialId rec |}
        else
          {| t := t_min s; surfaceNormal := normal s;
             materialId :=
               match geoms !! Z.to_nat (hit_geom_index s) with
               | Some g => materialid X g
               | None => materialId rec
               end |}
    end
  else rec.

Definition flag_slot (num_paths : nat) (pathSegments : list PathSegment)
    (geoms : list (Geom X)) (geoms_size : nat) (path_index : nat)
    (flag : bool) : bool :=
  if (path_index <? num_paths)%nat then
    match pathSegments !! path_index with
    | None => flag
    | Some pathSegment =>
        negb (hit_geom_index
                (hit_loop X (ray pathSegment) 0 (take geoms_size geoms)
                          hit_init) =? -1)
    end
  else flag.

Lemma computeIntersections_thread_alter depth num_paths pathSegments geoms
    geoms_size path_index (m : list ShadeableIntersection * list bool) :
  computeIntersections_thread X depth num_paths pathSegments geoms
    geoms_size path_index m
  = (alter (isect_slot num_paths pathSegments geoms geoms_size path_index)
           path_index m.1,
     alter (flag_slot num_paths pathSegments geoms geoms_size path_index)
           path_index m.2).
Proof.
  destruct m as [isects flags].
  unfold computeIntersections_thread, isect_slot, flag_slot. cbn [fst snd].
  destruct (path_index <? num_paths)%nat.
  2:{ by rewrite !list_alter_id. }
  destruct (pathSegments !! path_index) as [seg|].
  2:{ by rewrite !list_alter_id. }
  rewrite !list_insert_alter.
  by destruct (hit_geom_index _ =? -1).
Qed.

Lemma computeIntersections_launch blocks depth num_paths pathSegments geoms
    geoms_size (isects : list ShadeableIntersection) (flags : list bool) :
  Cuda.launch blocks blockSize1d
    (computeIntersections_thread X depth num_paths pathSegments geoms
       geoms_size) (isects, flags)
  = (Cuda.launch blocks blockSize1d
       (fun idx m =>
          alter (isect_slot num_paths pathSegments geoms geoms_size idx)
                idx m) isects,
     Cuda.launch blocks blockSize1d
       (fun idx m =>
          alter (flag_slot num_paths pathSegments geoms geoms_size idx)
                idx m) flags).
Proof.
  erewrite launch_ext by (intros; apply computeIntersections_thread_alter).
  apply (launch_pair blocks blockSize1d
           (fun idx m => alter (isect_slot _ _ _ _ idx) idx m)
           (fun idx m => alter (flag_slot _ _ _ _ idx) idx m)).
Qed.

End NearestHit.

(** What the intersection stage has to leave in the slot of a path with the
    ray [r]: either no primitive has a takable hit, the distance is -1 and
    the flag is false; or the record holds the distance, the normal and the
    material of the first primitive, in list order, among those whose hit
    in front of the origin is nearest, and the flag is true. *)
Definition nearest_hit_recorded (X : Collab) (geoms : list (Geom X)) (r : Ray)
    (rec : option ShadeableIntersection) (flag : option bool) : Prop :=
  ((forall j g, geoms !! j = Some g -> takable (hit_distance X g r) = false)
   /\ t <$> rec = Some F32.minus_one
   /\ flag = Some false)
  \/ (exists (k : nat) g,
        geoms !! k = Some g
        /\ F32.ltb F32.zero (hit_distance X g r) = true
        /\ F32.ltb (hit_distance X g r) F32.FLT_MAX = true
        /\ (forall j g', geoms !! j = Some g' ->
              F32.ltb F32.zero (hit_distance X g' r) = true ->
              F32.ltb (hit_distance X g' r) (hit_distance X g r) = false)
        /\ (forall j g', (j < k)%nat -> geoms !! j = Some g' ->
              F32.ltb F32.zero (hit_distance X g' r) = true ->
              F32.ltb (hit_distance X g r) (hit_distance X g' r) = true)
        /\ rec = Some {| t := hit_distance X g r;
                         surfaceNormal := hit_normal X g r;
                         materialId := materialid X g |}
        /\ flag = Some true).

(** C4 (as the code has it).  For a path of the active range, the
    intersection launch tests the ray against the primitives in list order
    and keeps the nearest hit among those with a distance above 0 and below
    [FLT_MAX], the first one in list order on a tie, with its normal and
    material; when there is no such hit the distance is -1 and the flag is
    false, otherwise the flag is true. *)
Theorem computeIntersections_nearest_hit (X : Collab) (blocks : nat)
    (depth : Z) (num_paths : nat) (pathSegments : list PathSegment)
    (geoms : list (Geom X)) (intersections : list ShadeableIntersection)
    (hasIntersection : list bool) (path_index : nat) (seg : PathSegment) :
  (path_index < num_paths)%nat ->
  (path_index < blocks * blockSize1d)%nat ->
  pathSegments !! path_index = Some seg ->
  (path_index < length intersections)%nat ->
  (path_index < length hasIntersection)%nat ->
  nearest_hit_recorded X geoms (ray seg)
    ((Cuda.launch blocks blockSize1d
        (computeIntersections_thread X depth num_paths pathSegments geoms
           (length geoms))
        (intersections, hasIntersection)).1 !! path_index)
    ((Cuda.launch blocks blockSize1d
        (computeIntersections_thread X depth num_paths pathSegments geoms
           (length geoms))
        (intersections, hasIntersection)).2 !! path_index).
Proof.
  intros Hn Hb Hseg Hi Hf.
  rewrite computeIntersections_launch. cbn [fst snd].
  rewrite !launch_alter_lookup.
  destruct (Nat.ltb_spec path_index (blocks * blockSize1d)); [|lia].
  apply lookup_lt_is_Some in Hi as [rec Hrec].
  apply lookup_lt_is_Some in Hf as [flag Hflag].
  rewrite Hrec, Hflag. cbn [fmap option_fmap option_map].
  unfold isect_slot, flag_slot.
  apply Nat.ltb_lt in Hn. rewrite Hn, Hseg.
  rewrite take_ge by done.
  pose proof (hit_loop_searched X (ray seg) geoms) as Hs.
  destruct Hs as [(Hidx & _ & Hno)
                 | (k & g & Hidx & Hk & Ht & Hnor & Hp & Hm & Hnear & Hfirst)].
  - left. rewrite Hidx. cbn. done.
  - right. exists k, g. rewrite Hidx.
    destruct (Z.eqb_spec (Z.of_nat k) (-1)); [lia|].
    rewrite Nat2Z.id, Hk, Ht, Hnor. cbn [negb]. done.
Qed.

Lemma computeIntersections_nearest_hit_witness :
  nearest_hit_recorded Demo.collab (geoms Demo.matte_room) (ray fresh_path)
    ((Cuda.launch 1 blockSize1d
        (computeIntersections_thread Demo.collab 0 1 [fresh_path]
           (geoms Demo.matte_room) (length (geoms Demo.matte_room)))
        ([zero_intersection], [false])).1 !! 0%nat)
    ((Cuda.launch 1 blockSize1d
        (computeIntersections_thread Demo.collab 0 1 [fresh_path]
           (geoms Demo.matte_room) (length (geoms Demo.matte_room)))
        ([zero_intersection], [false])).2 !! 0%nat).
Proof.
  apply (computeIntersections_nearest_hit Demo.collab 1 0 1 [fresh_path]
           (geoms Demo.matte_room) [zero_intersection] [false] 0 fresh_path);
    vm_compute; reflexivity || lia.
Defined.

(** C4 fails as stated: a primitive hit at the distance [FLT_MAX], or at
    the distance +infinity, has a positive hit distance, and yet the record
    gets the distance -1 and the flag false, because the search starts from
    [t_min = FLT_MAX] and takes strictly smaller distances only. *)
Lemma hit_at_FLT_MAX_is_not_recorded :
  F32.ltb F32.zero
    (hit_distance Demo.collab (Demo.wall 0 F32.FLT_MAX) (ray fresh_path))
  = true
  /\ (Cuda.launch 1 blockSize1d
        (computeIntersections_thread Demo.collab 0 1 [fresh_path]
           [Demo.wall 0 F32.FLT_MAX] 1)
        ([zero_intersection], [true])).2 !! 0%nat
     = Some false
  /\ t <$> (Cuda.launch 1 blockSize1d
              (computeIntersections_thread Demo.collab 0 1 [fresh_path]
                 [Demo.wall 0 F32.FLT_MAX] 1)
              ([zero_intersection], [true])).1 !! 0%nat
     = Some F32.minus_one
  /\ F32.ltb F32.zero
       (hit_distance Demo.collab (Demo.wall 0 (S754_infinity false))
          (ray fresh_path))
     = true
  /\ (Cuda.launch 1 blockSize1d
        (computeIntersections_thread Demo.collab 0 1 [fresh_path]
           [Demo.wall 0 (S754_infinity false)] 1)
        ([zero_intersection], [true])).2 !! 0%nat
     = Some false.
Proof. repeat split; vm_compute; reflexivity. Qed.

(** ** Launches that overwrite what they find *)

Section Overwrite.

Context {K A : Type}.

(** A sequence of guarded stores whose values do not depend on the array:
    two arrays of one length that agree wherever no store lands end up
    equal. *)
Lemma foldl_insert_agree (c : K -> bool) (ix : K -> nat) (v : K -> A)
    (ks : list K) (p q : list A) :
  length p = length q ->
  (forall i, p !! i = q !! i \/ exists k, k ∈ ks /\ c k = true /\ ix k = i) ->
  foldl (fun m k => if c k then <[ix k := v k]> m else m) p ks
  = foldl (fun m k => if c k then <[ix k := v k]> m else m) q ks.
Proof.
  revert p q. induction ks as [|k ks IH]; intros p q Hlen Hag.
  - apply list_eq. intros i.
    destruct (Hag i) as [?|(k & Hk & _)]; [done|].
    by apply elem_of_nil in Hk.
  - cbn [foldl]. apply IH.
    + destruct (c k); [by rewrite !length_insert | done].
    + intros i.
      destruct (Hag i) as [Heq|(k0 & Hk0 & Hc & Hi)].
      * left. destruct (c k); [|done].
        rewrite !list_lookup_insert, Hlen, Heq. done.
      * apply elem_of_cons in Hk0 as [->|Hk0]; [|right; by exists k0].
        left. rewrite Hc, !list_lookup_insert, Hlen, Hi.
        case_decide as Hd; [done|].
        rewrite !(proj2 (lookup_ge_None _ _)); [done| |]; lia.
Qed.

Lemma foldl_insert_length (c : K -> bool) (ix : K -> nat) (v : K -> A)
    (ks : list K) (p : list A) :
  length (foldl (fun m k => if c k then <[ix k := v k]> m else m) p ks)
  = length p.
Proof.
  revert p. induction ks as [|k ks IH]; intros p; [done|].
  cbn [foldl]. rewrite IH. destruct (c k); [apply length_insert | done].
Qed.

End Overwrite.

(** The threads of a two-dimensional grid, in the order in which
    [Cuda.launch2d] runs them. *)
Definition grid2d (blocks_x blocks_y bsize_x bsize_y : nat)
    : list (nat * nat) :=
  y ← seq 0 (blocks_y * bsize_y);
  (fun x => (x, y)) <$> seq 0 (blocks_x * bsize_x).

Lemma launch2d_grid {M : Type} bx by' sx sy (body : nat -> nat -> M -> M)
    (m : M) :
  Cuda.launch2d bx by' sx sy body m
  = foldl (fun m xy => body xy.1 xy.2 m) m (grid2d bx by' sx sy).
Proof.
  unfold Cuda.launch2d, grid2d.
  generalize (seq 0 (by' * sy)). intros ys. revert m.
  induction ys as [|y ys IH]; intros m; [done|].
  cbn [foldl mbind list_bind]. rewrite foldl_app, <- IH. f_equal.
  by rewrite foldl_fmap.
Qed.

Lemma blocks_for_covers_any (n bs : nat) :
  (0 < bs)%nat -> (n <= Cuda.blocks_for n bs * bs)%nat.
Proof.
  intros Hbs. unfold Cuda.blocks_for.
  pose proof (Nat.div_mod (n + bs - 1) bs ltac:(lia)) as Hd.
  pose proof (Nat.mod_upper_bound (n + bs - 1) bs ltac:(lia)). nia.
Qed.

(** Every pixel has its thread in the grid of [pathtrace]. *)
Lemma grid2d_covers (res_x res_y i : nat) :
  (i < res_x * res_y)%nat ->
  exists xy, xy ∈ grid2d (Cuda.blocks_for res_x blockSize2d)
                         (Cuda.blocks_for res_y blockSize2d)
                         blockSize2d blockSize2d
    /\ ((xy.1 <? res_x) && (xy.2 <? res_y))%nat = true
    /\ (xy.1 + xy.2 * res_x)%nat = i.
Proof.
  intros Hi.
  assert (Hx : (0 < res_x)%nat) by (destruct res_x; lia).
  exists ((i mod res_x)%nat, (i / res_x)%nat). cbn [fst snd].
  pose proof (Nat.mod_upper_bound i res_x ltac:(lia)) as Hm.
  pose proof (Nat.div_mod i res_x ltac:(lia)) as Hd.
  assert (Hy : (i / res_x < res_y)%nat).
  { apply Nat.Div0.div_lt_upper_bound. lia. }
  pose proof (blocks_for_covers_any res_x blockSize2d
                ltac:(unfold blockSize2d; lia)).
  pose proof (blocks_for_covers_any res_y blockSize2d
                ltac:(unfold blockSize2d; lia)).
  split; [|split].
  - unfold grid2d. apply list_elem_of_bind. exists (i / res_x)%nat.
    split.
    + apply list_elem_of_fmap. exists (i mod res_x)%nat.
      split; [done|]. apply elem_of_seq. lia.
    + apply elem_of_seq. lia.
  - apply andb_true_iff. split; apply Nat.ltb_lt; lia.
  - lia.
Qed.

Section WholeImageKernels.

Context (X : Collab).

(** The segment that the thread of the pixel [(x, y)] stores. *)
Definition camera_segment (cam : Camera) (iter traceDepth : Z)
    (xy : nat * nat) : PathSegment :=
  let index := (xy.1 + xy.2 * resolution_x cam)%nat in
  let rng := makeSeededRandomEngine X iter (Z.of_nat index) traceDepth in
  let dx := uniform_real X rng 0 F32.minus_half F32.half in
  let dy := uniform_real X rng 1 F32.minus_half F32.half in
  let sx :=
    F32.add (F32.sub (F32.of_int (Z.of_nat xy.1))
                     (F32.mul (F32.of_int (Z.of_nat (resolution_x cam)))
                              F32.half)) dx in
  let sy :=
    F32.add (F32.sub (F32.of_int (Z.of_nat xy.2))
                     (F32.mul (F32.of_int (Z.of_nat (resolution_y cam)))
                              F32.half)) dy in
  {| ray := {| origin := position cam;
               direction :=
                 normalize X
                   (Glm.vsub
                      (Glm.vsub (view cam)
                         (Glm.vscale
                            (Glm.vscale (right cam) (pixelLength_x cam)) sx))
                      (Glm.vscale
                         (Glm.vscale (up cam) (pixelLength_y cam)) sy)) |};
     color := mkvec3 F32.one F32.one F32.one;
     pixelIndex := Z.of_nat index;
     remainingBounces := traceDepth |}.

Lemma generateRayFromCamera_launch cam iter traceDepth
    (paths : list PathSegment) :
  Cuda.launch2d (Cuda.blocks_for (resolution_x cam) blockSize2d)
    (Cuda.blocks_for (resolution_y cam) blockSize2d) blockSize2d blockSize2d
    (generateRayFromCamera_thread X cam iter traceDepth) paths
  = foldl (fun m xy =>
             if ((xy.1 <? resolution_x cam) && (xy.2 <? resolution_y cam))%nat
             then <[(xy.1 + xy.2 * resolution_x cam)%nat
                    := camera_segment cam iter traceDepth xy]> m
             else m)
          paths
          (grid2d (Cuda.blocks_for (resolution_x cam) blockSize2d)
             (Cuda.blocks_for (resolution_y cam) blockSize2d)
             blockSize2d blockSize2d).
Proof. by rewrite launch2d_grid. Qed.

(** Ray generation overwrites the whole array of paths. *)
Lemma generateRayFromCamera_overwrites cam iter traceDepth
    (p q : list PathSegment) :
  length p = (resolution_x cam * resolution_y cam)%nat ->
  length q = (resolution_x cam * resolution_y cam)%nat ->
  Cuda.launch2d (Cuda.blocks_for (resolution_x cam) blockSize2d)
    (Cuda.blocks_for (resolution_y cam) blockSize2d) blockSize2d blockSize2d
    (generateRayFromCamera_thread X cam iter traceDepth) p
  = Cuda.launch2d (Cuda.blocks_for (resolution_x cam) blockSize2d)
      (Cuda.blocks_for (resolution_y cam) blockSize2d) blockSize2d
      blockSize2d
      (generateRayFromCamera_thread X cam iter traceDepth) q.
Proof.
  intros Hp Hq. rewrite !generateRayFromCamera_launch.
  apply (foldl_insert_agree
           (fun xy => ((xy.1 <? resolution_x cam)
                       && (xy.2 <? resolution_y cam))%nat)
           (fun xy => (xy.1 + xy.2 * resolution_x cam)%nat)
           (camera_segment cam iter traceDepth)); [congruence|].
  intros i.
  destruct (Nat.lt_ge_cases i (resolution_x cam * resolution_y cam))
    as [Hi|Hi].
  - right. by apply grid2d_covers.
  - left. rewrite !(proj2 (lookup_ge_None _ _)); [done| |]; lia.
Qed.

Lemma generateRayFromCamera_length cam iter traceDepth
    (p : list PathSegment) :
  length (Cuda.launch2d (Cuda.blocks_for (resolution_x cam) blockSize2d)
            (Cuda.blocks_for (resolution_y cam) blockSize2d) blockSize2d
            blockSize2d
            (generateRayFromCamera_thread X cam iter traceDepth) p)
  = length p.
Proof.
  rewrite generateRayFromCamera_launch.
  apply (foldl_insert_length
           (fun xy => ((xy.1 <? resolution_x cam)
                       && (xy.2 <? resolution_y cam))%nat)
           (fun xy => (xy.1 + xy.2 * resolution_x cam)%nat)
           (camera_segment cam iter traceDepth)).
Qed.

(** The pixel that [sendImageToPBO] stores for an accumulated color. *)
Definition displayed (iter : Z) (pix : vec3) : uchar4 :=
  {| cx := to_channel (vx pix) iter; cy := to_channel (vy pix) iter;
     cz := to_channel (vz pix) iter; cw := 0 |}.

Lemma sendImageToPBO_launch res_x res_y iter (image : list vec3)
    (pbo : list uchar4) :
  Cuda.launch2d (Cuda.blocks_for res_x blockSize2d)
    (Cuda.blocks_for res_y blockSize2d) blockSize2d blockSize2d
    (sendImageToPBO_thread res_x res_y iter image) pbo
  = foldl (fun m xy =>
             if ((xy.1 <? res_x) && (xy.2 <? res_y))%nat
                && bool_decide (is_Some (image !! (xy.1 + xy.2 * res_x)%nat))
             then <[(xy.1 + xy.2 * res_x)%nat
                    := displayed iter
                         (default (Glm.vec3_splat F32.zero)
                                  (image !! (xy.1 + xy.2 * res_x)%nat))]> m
             else m)
          pbo
          (grid2d (Cuda.blocks_for res_x blockSize2d)
             (Cuda.blocks_for res_y blockSize2d) blockSize2d blockSize2d).
Proof.
  rewrite launch2d_grid.
  generalize (grid2d (Cuda.blocks_for res_x blockSize2d)
                (Cuda.blocks_for res_y blockSize2d) blockSize2d blockSize2d).
  intros ks. revert pbo.
  induction ks as [|[x y] ks IH]; intros pbo; [done|].
  cbn [foldl fst snd]. rewrite <- IH. f_equal.
  unfold sendImageToPBO_thread.
  destruct ((x <? res_x) && (y <? res_y))%nat; [|done].
  by destruct (image !! (x + y * res_x)%nat).
Qed.

(** The display launch overwrites the whole pixel buffer. *)
Lemma sendImageToPBO_overwrites res_x res_y iter (image : list vec3)
    (p q : list uchar4) :
  length image = (res_x * res_y)%nat ->
  length p = (res_x * res_y)%nat ->
  length q = (res_x * res_y)%nat ->
  Cuda.launch2d (Cuda.blocks_for res_x blockSize2d)
    (Cuda.blocks_for res_y blockSize2d) blockSize2d blockSize2d
    (sendImageToPBO_thread res_x res_y iter image) p
  = Cuda.launch2d (Cuda.blocks_for res_x blockSize2d)
      (Cuda.blocks_for res_y blockSize2d) blockSize2d blockSize2d
      (sendImageToPBO_thread res_x res_y iter image) q.
Proof.
  intros Himg Hp Hq. rewrite !sendImageToPBO_launch.
  apply (foldl_insert_agree
           (fun xy => ((xy.1 <? res_x) && (xy.2 <? res_y))%nat
                      && bool_decide
                           (is_Some (image !! (xy.1 + xy.2 * res_x)%nat)))
           (fun xy => (xy.1 + xy.2 * res_x)%nat)
           (fun xy => displayed iter
                        (default (Glm.vec3_splat F32.zero)
                                 (image !! (xy.1 + xy.2 * res_x)%nat))));
    [congruence|].
  intros i.
  destruct (Nat.lt_ge_cases i (res_x * res_y)) as [Hi|Hi].
  - right. destruct (grid2d_covers res_x res_y i Hi) as (xy & Hin & Hc & Hix).
    exists xy. split; [done|]. split; [|done].
    rewrite Hc, Hix. cbn [andb]. apply bool_decide_eq_true.
    apply lookup_lt_is_Some. lia.
  - left. rewrite !(proj2 (lookup_ge_None _ _)); [done| |]; lia.
Qed.

Lemma sendImageToPBO_length res_x res_y iter (image : list vec3)
    (p : list uchar4) :
  length (Cuda.launch2d (Cuda.blocks_for res_x blockSize2d)
            (Cuda.blocks_for res_y blockSize2d) blockSize2d blockSize2d
            (sendImageToPBO_thread res_x res_y iter image) p)
  = length p.
Proof.
  rewrite sendImageToPBO_launch.
  apply (foldl_insert_length
           (fun xy => ((xy.1 <? res_x) && (xy.2 <? res_y))%nat
                      && bool_decide
                           (is_Some (image !! (xy.1 + xy.2 * res_x)%nat)))
           (fun xy => (xy.1 + xy.2 * res_x)%nat)
           (fun xy => displayed iter
                        (default (Glm.vec3_splat F32.zero)
                                 (image !! (xy.1 + xy.2 * res_x)%nat)))).
Qed.

Lemma finalGather_length blocks nPaths (paths : list PathSegment)
    (image : list vec3) :
  length (Cuda.launch blocks blockSize1d (finalGather_thread nPaths paths)
            image)
  = length image.
Proof.
  unfold Cuda.launch. generalize (seq 0 (blocks * blockSize1d)).
  intros l. revert image.
  induction l as [|i l IH]; intros image; [done|].
  cbn [foldl]. rewrite IH. unfold finalGather_thread.
  destruct (i <? nPaths)%nat; [|done].
  destruct (paths !! i); [|done].
  destruct (_ <? 0); [done|]. apply length_alter.
Qed.

End WholeImageKernels.

(** ** Sorting with the keys of [getMaterialId] *)

Section SortByMaterial.

Lemma insert_by_key_same {A : Type} (k : Z) (v : A) (l : list (Z * A)) :
  (forall p, p ∈ l -> p.1 = k) ->
  Thrust.insert_by_key k v l = (k, v) :: l.
Proof.
  destruct l as [|[k' v'] l]; [done|]. intros Hall.
  pose proof (Hall (k', v') ltac:(apply list_elem_of_here)) as Hk.
  cbn [fst] in Hk. subst k'. cbn [Thrust.insert_by_key].
  by rewrite Z.leb_refl.
Qed.

(** Keys that are all equal leave the values where they are. *)
Lemma sort_pairs_same {A : Type} (k : Z) (l : list (Z * A)) :
  (forall p, p ∈ l -> p.1 = k) -> Thrust.sort_pairs l = l.
Proof.
  induction l as [|[k' v] l IH]; intros Hall; [done|].
  cbn [Thrust.sort_pairs].
  rewrite IH by (intros p Hp; apply Hall; by apply list_elem_of_further).
  pose proof (Hall (k', v) ltac:(apply list_elem_of_here)) as Hk.
  cbn [fst] in Hk. subst k'.
  apply insert_by_key_same.
  intros p Hp. apply Hall. by apply list_elem_of_further.
Qed.

Lemma sort_by_key_in_place_same {A : Type} (n : nat) (k : Z)
    (keys : list Z) (vals : list A) :
  (n <= length vals)%nat ->
  take n keys = replicate n k ->
  (Thrust.sort_by_key_in_place n keys vals).2 = vals
  /\ length (Thrust.sort_by_key_in_place n keys vals).1 = length keys.
Proof.
  intros Hn Hk. unfold Thrust.sort_by_key_in_place, Thrust.sort_by_key.
  rewrite Hk.
  rewrite sort_pairs_same with (k := k).
  2:{ intros [k' v] Hp. apply elem_of_zip_l in Hp.
      by apply elem_of_replicate_inv in Hp. }
  cbn [fst snd].
  assert (Hlk : (n <= length keys)%nat).
  { rewrite <- (length_replicate n k), <- Hk, length_take. lia. }
  rewrite snd_zip by (rewrite length_take, length_replicate; lia).
  rewrite fst_zip by (rewrite length_take, length_replicate; lia).
  split.
  - rewrite length_take, Nat.min_l by done. apply take_drop.
  - rewrite length_app, length_drop, !length_replicate. lia.
Qed.

(** The keys that the launch of [getMaterialId] leaves. *)
Lemma getMaterialId_launch blocks nPaths
    (isecs : list ShadeableIntersection) (ids_isec ids_path : list Z) :
  Cuda.launch blocks blockSize1d (getMaterialId_thread nPaths isecs)
    (ids_isec, ids_path)
  = (Cuda.launch blocks blockSize1d
       (fun idx m =>
          alter (fun old =>
                   if (idx <? nPaths)%nat then
                     match isecs !! 0%nat with
                     | Some first => materialId first mod 256
                     | None => old
                     end
                   else old) idx m) ids_isec,
     Cuda.launch blocks blockSize1d
       (fun idx m =>
          alter (fun old =>
                   if (idx <? nPaths)%nat then
                     match isecs !! 0%nat with
                     | Some first => materialId first mod 256
                     | None => old
                     end
                   else old) idx m) ids_path).
Proof.
  rewrite <- (launch_pair blocks blockSize1d).
  apply launch_ext. intros idx [a b]. unfold getMaterialId_thread.
  cbn [fst snd].
  destruct (idx <? nPaths)%nat; [|by rewrite !list_alter_id].
  destruct (isecs !! 0%nat); [|by rewrite !list_alter_id].
  by rewrite !list_insert_alter.
Qed.

Lemma getMaterialId_keys blocks nPaths (isecs : list ShadeableIntersection)
    (ids : list Z) :
  (nPaths <= blocks * blockSize1d)%nat ->
  (nPaths <= length ids)%nat ->
  (nPaths <= length isecs)%nat ->
  exists k,
    take nPaths
      (Cuda.launch blocks blockSize1d
         (fun idx m =>
            alter (fun old =>
                     if (idx <? nPaths)%nat then
                       match isecs !! 0%nat with
                       | Some first => materialId first mod 256
                       | None => old
                       end
                     else old) idx m) ids)
    = replicate nPaths k.
Proof.
  intros Hb Hids Hisecs.
  destruct nPaths as [|n].
  { exists 0. done. }
  destruct (lookup_lt_is_Some_2 isecs 0 ltac:(lia)) as [first Hfirst].
  exists (materialId first mod 256).
  apply list_eq. intros i.
  destruct (Nat.lt_ge_cases i (S n)) as [Hi|Hi].
  - rewrite lookup_take_lt, lookup_replicate_2 by done.
    rewrite launch_alter_lookup.
    destruct (Nat.ltb_spec i (blocks * blockSize1d)); [|lia].
    destruct (Nat.ltb_spec i (S n)); [|lia].
    destruct (lookup_lt_is_Some_2 ids i ltac:(lia)) as [old ->].
    cbn. by rewrite Hfirst.
  - rewrite lookup_take_ge by done. symmetry.
    by apply lookup_replicate_None.
Qed.

(** With the keys as [getMaterialId] writes them, the reordering leaves
    both arrays as they are. *)
Lemma sortByMaterial_keeps blocks nPaths (ids_isec ids_path : list Z)
    (isecs : list ShadeableIntersection) (paths : list PathSegment) :
  (nPaths <= blocks * blockSize1d)%nat ->
  (nPaths <= length ids_isec)%nat ->
  (nPaths <= length ids_path)%nat ->
  (nPaths <= length isecs)%nat ->
  (nPaths <= length paths)%nat ->
  (sortByMaterial blocks nPaths ids_isec ids_path isecs paths).1.2 = isecs
  /\ (sortByMaterial blocks nPaths ids_isec ids_path isecs paths).2 = paths
  /\ length (sortByMaterial blocks nPaths ids_isec ids_path isecs paths).1.1.1
     = length ids_isec
  /\ length (sortByMaterial blocks nPaths ids_isec ids_path isecs paths).1.1.2
     = length ids_path.
Proof.
  intros Hb Hi1 Hi2 Hisecs Hpaths. unfold sortByMaterial.
  rewrite getMaterialId_launch.
  destruct (getMaterialId_keys blocks nPaths isecs ids_isec Hb Hi1 Hisecs)
    as [k1 Hk1].
  destruct (getMaterialId_keys blocks nPaths isecs ids_path Hb Hi2 Hisecs)
    as [k2 Hk2].
  pose proof (sort_by_key_in_place_same nPaths k1 _ isecs Hisecs Hk1)
    as [Hv1 Hl1].
  pose proof (sort_by_key_in_place_same nPaths k2 _ paths Hpaths Hk2)
    as [Hv2 Hl2].
  destruct (Thrust.sort_by_key_in_place nPaths _ isecs) as [ks1 vs1].
  destruct (Thrust.sort_by_key_in_place nPaths _ paths) as [ks2 vs2].
  cbn [fst snd] in *. rewrite launch_alter_length in Hl1, Hl2. done.
Qed.

End SortByMaterial.

(** ** Two runs side by side *)

(** Two results that end the same way, with related values when they
    return. *)
Definition result_rel {A B : Type} (R : A -> B -> Prop) (r1 : result A)
    (r2 : result B) : Prop :=
  match r1, r2 with
  | Done a, Done b => R a b
  | Exit m1, Exit m2 => m1 = m2
  | OutOfFuel, OutOfFuel => True
  | _, _ => False
  end.

Lemma result_rel_map {A B C : Type} (R : A -> B -> Prop) (f : A -> C)
    (g : B -> C) (r1 : result A) (r2 : result B) :
  (forall a b, R a b -> f a = g b) ->
  result_rel R r1 r2 -> result_map f r1 = result_map g r2.
Proof.
  intros Hfg. destruct r1, r2; cbn; try done.
  - intros HR. f_equal. by apply Hfg.
  - by intros ->.
Qed.

Lemma remove_if_in_place_length {A : Type} (n : nat) (arr : list A)
    (stencil : list bool) :
  length (Thrust.remove_if_in_place n arr stencil) = length arr.
Proof.
  unfold Thrust.remove_if_in_place.
  pose proof (sublist_length _ _
                (remove_if_sublist (take n arr) (take n stencil))) as Hk.
  rewrite length_take in Hk.
  rewrite length_app, length_drop. lia.
Qed.

Section Simulation.

Context (X : Collab) (scene : Scene X).

(** Two primitives that every update sends to the same primitive. *)
Definition geom_equiv (g g' : Geom X) : Prop :=
  forall dT, update X g dT = update X g' dT.

(** In a build with the reordering the two key arrays are allocated. *)
Definition keys_ready (b : bool) (d : Device X) : Prop :=
  b = true ->
  length (dev_materialIds_isec d) = pixelcount X scene
  /\ length (dev_materialIds_path d) = pixelcount X scene.

(** Two device states, of builds with the reordering switched to [b1] and
    to [b2], that hold the same image and materials, primitives that
    update alike, and arrays of the allocated sizes. *)
Record dev_sim (b1 b2 : bool) (d1 d2 : Device X) : Prop := mk_dev_sim {
  sim_image : dev_image d1 = dev_image d2;
  sim_image_len : length (dev_image d1) = pixelcount X scene;
  sim_materials : dev_materials d1 = dev_materials d2;
  sim_geoms : Forall2 geom_equiv (dev_geoms d1) (dev_geoms d2);
  sim_geoms_len : length (dev_geoms d1) = length (geoms scene);
  sim_paths_len1 : length (dev_paths d1) = pixelcount X scene;
  sim_paths_len2 : length (dev_paths d2) = pixelcount X scene;
  sim_flags_len1 : length (dev_hasIntersection d1) = pixelcount X scene;
  sim_flags_len2 : length (dev_hasIntersection d2) = pixelcount X scene;
  sim_keys1 : keys_ready b1 d1;
  sim_keys2 : keys_ready b2 d2
}.

Record loop_sim (b1 b2 : bool) (s1 s2 : LoopState X) : Prop := mk_loop_sim {
  ls_dev : dev_sim b1 b2 (dev s1) (dev s2);
  ls_paths : dev_paths (dev s1) = dev_paths (dev s2);
  ls_depth : depth s1 = depth s2;
  ls_num : num_paths s1 = num_paths s2;
  ls_bound : (num_paths s1 <= pixelcount X scene)%nat;
  ls_pending : pending_error s1 = pending_error s2
}.

Record host_sim (b1 b2 : bool) (h1 h2 : HostState X) : Prop := mk_host_sim {
  hs_dev : dev_sim b1 b2 (device h1) (device h2);
  hs_pbo_len1 : length (pbo h1) = pixelcount X scene;
  hs_pbo_len2 : length (pbo h2) = pixelcount X scene
}.

Lemma geom_equiv_refl (gs : list (Geom X)) : Forall2 geom_equiv gs gs.
Proof. induction gs; constructor; done. Qed.

Lemma pass_geoms_sim iter (s1 s2 : LoopState X) :
  Forall2 geom_equiv (dev_geoms (dev s1)) (dev_geoms (dev s2)) ->
  length (dev_geoms (dev s1)) = length (geoms scene) ->
  pass_geoms X scene iter s1 = pass_geoms X scene iter s2
  /\ length (pass_geoms X scene iter s1) = length (geoms scene).
Proof.
  intros Hg Hlen.
  pose proof (Forall2_length _ _ _ Hg) as Hlen2.
  rewrite !pass_geoms_imap by congruence. split.
  - apply list_eq. intros i. rewrite !list_lookup_imap.
    pose proof (proj1 (Forall2_lookup _ _ _) Hg i) as Hi.
    destruct Hi as [g g' Hgg|]; cbn; [|done]. by rewrite Hgg.
  - by rewrite length_imap.
Qed.

Lemma pass_traced_sim iter (s1 s2 : LoopState X) :
  pass_geoms X scene iter s1 = pass_geoms X scene iter s2 ->
  dev_paths (dev s1) = dev_paths (dev s2) ->
  num_paths s1 = num_paths s2 ->
  (num_paths s1 <= pixelcount X scene)%nat ->
  length (dev_paths (dev s1)) = pixelcount X scene ->
  length (dev_hasIntersection (dev s1)) = pixelcount X scene ->
  length (dev_hasIntersection (dev s2)) = pixelcount X scene ->
  (pass_traced X scene iter s1).1 = (pass_traced X scene iter s2).1
  /\ take (num_paths s1) (pass_traced X scene iter s1).2
     = take (num_paths s1) (pass_traced X scene iter s2).2
  /\ length (pass_traced X scene iter s1).1 = pixelcount X scene
  /\ length (pass_traced X scene iter s1).2 = pixelcount X scene
  /\ length (pass_traced X scene iter s2).2 = pixelcount X scene.
Proof.
  intros Hg Hp Hn Hb Hpl Hf1 Hf2. unfold pass_traced.
  rewrite !computeIntersections_launch. cbn [fst snd].
  rewrite <- Hg, <- Hp, <- Hn.
  split; [done|]. split; [|split; [|split]].
  - apply list_eq. intros i.
    destruct (Nat.lt_ge_cases i (num_paths s1)) as [Hi|Hi].
    2:{ by rewrite !lookup_take_ge. }
    rewrite !lookup_take_lt by done.
    rewrite !launch_alter_lookup.
    pose proof (blocks_for_covers (num_paths s1)).
    destruct (Nat.ltb_spec i
                (Cuda.blocks_for (num_paths s1) blockSize1d * blockSize1d));
      [|lia].
    destruct (lookup_lt_is_Some_2 (dev_hasIntersection (dev s1)) i
                ltac:(lia)) as [f1 ->].
    destruct (lookup_lt_is_Some_2 (dev_hasIntersection (dev s2)) i
                ltac:(lia)) as [f2 ->].
    destruct (lookup_lt_is_Some_2 (dev_paths (dev s1)) i ltac:(lia))
      as [seg Hseg].
    cbn. unfold flag_slot.
    destruct (Nat.ltb_spec i (num_paths s1)); [|lia]. by rewrite Hseg.
  - by rewrite launch_alter_length, length_replicate.
  - by rewrite launch_alter_length.
  - by rewrite launch_alter_length.
Qed.

Lemma pass_sorted_keeps iter b (s : LoopState X) :
  keys_ready b (dev s) ->
  (num_paths s <= pixelcount X scene)%nat ->
  length (pass_compacted X scene iter s).1.1 = pixelcount X scene ->
  length (pass_compacted X scene iter s).1.2 = pixelcount X scene ->
  ((pass_compacted X scene iter s).2 <= num_paths s)%nat ->
  (pass_sorted X b scene iter s).1.2 = (pass_compacted X scene iter s).1.1
  /\ (pass_sorted X b scene iter s).2 = (pass_compacted X scene iter s).1.2
  /\ (b = true ->
      length (pass_sorted X b scene iter s).1.1.1 = pixelcount X scene
      /\ length (pass_sorted X b scene iter s).1.1.2 = pixelcount X scene).
Proof.
  intros Hk Hn Hl1 Hl2 Hc. unfold pass_sorted.
  destruct b; [|done].
  destruct (Hk eq_refl) as [Hk1 Hk2].
  pose proof (blocks_for_covers (num_paths s)).
  destruct (sortByMaterial_keeps
              (Cuda.blocks_for (num_paths s) blockSize1d)
              (pass_compacted X scene iter s).2
              (dev_materialIds_isec (dev s)) (dev_materialIds_path (dev s))
              (pass_compacted X scene iter s).1.1
              (pass_compacted X scene iter s).1.2)
    as (H1 & H2 & H3 & H4); try lia.
  rewrite H1, H2, H3, H4. done.
Qed.

Lemma pass_compacted_lengths iter (s : LoopState X) :
  length (pass_traced X scene iter s).1 = pixelcount X scene ->
  length (pass_compacted X scene iter s).1.1 = pixelcount X scene
  /\ length (pass_compacted X scene iter s).1.2
     = length (dev_paths (dev s))
  /\ ((pass_compacted X scene iter s).2 <= num_paths s)%nat.
Proof.
  intros Hl. unfold pass_compacted, compaction. cbn [fst snd].
  rewrite !remove_if_in_place_length. repeat split; try done.
  etransitivity; [apply sublist_length, remove_if_sublist|].
  rewrite length_take. lia.
Qed.

Lemma pass_shaded_length iter b (s : LoopState X) :
  length (pass_shaded X b scene iter s)
  = length (pass_sorted X b scene iter s).2.
Proof.
  unfold pass_shaded.
  erewrite launch_ext by (intros; apply shadeFakeMaterial_thread_alter).
  apply launch_alter_length.
Qed.

(** One pass keeps the two runs side by side. *)
Lemma depthPass_sim b1 b2 iter (s1 s2 : LoopState X) :
  loop_sim b1 b2 s1 s2 ->
  result_rel (loop_sim b1 b2) (depthPass X b1 scene iter s1)
             (depthPass X b2 scene iter s2).
Proof.
  intros [[Himg Himgl Hmat Hgeo Hgeol Hpl1 Hpl2 Hfl1 Hfl2 Hk1 Hk2]
          Hpaths Hdepth Hnum Hbound Hpend].
  rewrite !depthPass_unfold.
  assert (Hfail : pass_failed X scene s1 = pass_failed X scene s2).
  { unfold pass_failed. by rewrite Hpend, Hnum. }
  rewrite Hfail. destruct (pass_failed X scene s2); [done|].
  cbn [result_rel].
  destruct (pass_geoms_sim iter s1 s2 Hgeo Hgeol) as [Hg Hgl].
  destruct (pass_traced_sim iter s1 s2 Hg Hpaths Hnum Hbound Hpl1 Hfl1 Hfl2)
    as (Ht1 & Ht2 & Htl & Htf1 & Htf2).
  assert (Htl2 : length (pass_traced X scene iter s2).1
                 = pixelcount X scene) by (by rewrite <- Ht1).
  assert (Hc : pass_compacted X scene iter s1
               = pass_compacted X scene iter s2).
  { unfold pass_compacted, compaction, Thrust.remove_if_in_place.
    by rewrite <- Ht1, <- Hpaths, <- Hnum, <- Ht2. }
  destruct (pass_compacted_lengths iter s1 Htl) as (Hc1 & Hc2 & Hc3).
  destruct (pass_compacted_lengths iter s2 Htl2) as (Hd1 & Hd2 & Hd3).
  rewrite Hpl1 in Hc2. rewrite Hpl2 in Hd2.
  destruct (pass_sorted_keeps iter b1 s1 Hk1 Hbound Hc1 Hc2 Hc3)
    as (Hs1 & Hs2 & Hs3).
  destruct (pass_sorted_keeps iter b2 s2 Hk2 ltac:(lia) Hd1 Hd2 Hd3)
    as (Hs4 & Hs5 & Hs6).
  assert (Hsh : pass_shaded X b1 scene iter s1
                = pass_shaded X b2 scene iter s2).
  { unfold pass_shaded. by rewrite Hs1, Hs2, Hs4, Hs5, Hc, Hnum, Hmat. }
  apply mk_loop_sim; [apply mk_dev_sim|..];
    cbn [dev depth num_paths pending_error pass_state dev_image dev_geoms
         dev_materials dev_paths dev_hasIntersection dev_materialIds_isec
         dev_materialIds_path]; try done; try lia.
  - rewrite Hg. apply geom_equiv_refl.
  - by rewrite pass_shaded_length, Hs2.
  - by rewrite pass_shaded_length, Hs5.
  - by rewrite Hc.
  - by rewrite Hnum.
Qed.

Lemma depthLoop_sim b1 b2 iter fuel (s1 s2 : LoopState X) :
  loop_sim b1 b2 s1 s2 ->
  result_rel (loop_sim b1 b2) (depthLoop X b1 scene iter fuel s1)
             (depthLoop X b2 scene iter fuel s2).
Proof.
  revert s1 s2. induction fuel as [|fuel IH]; intros s1 s2 Hs; [done|].
  cbn [depthLoop].
  pose proof (depthPass_sim b1 b2 iter s1 s2 Hs) as Hp.
  destruct (depthPass X b1 scene iter s1) as [s1'| |],
           (depthPass X b2 scene iter s2) as [s2'| |]; try done.
  cbn [result_rel] in Hp. rewrite (ls_depth _ _ _ _ Hp).
  destruct (depth s2' =? traceDepth scene); [done|]. by apply IH.
Qed.

End Simulation.

(** ** Whole iterations side by side *)

Section SessionSimulation.

Context (X : Collab) (scene : Scene X).

(** The image after [finalGather]. *)
Definition gathered (s : LoopState X) : list vec3 :=
  Cuda.launch (Cuda.blocks_for (pixelcount X scene) blockSize1d) blockSize1d
    (finalGather_thread (num_paths s) (dev_paths (dev s)))
    (dev_image (dev s)).

(** What [pathtrace] returns once the loop has ended in [s]. *)
Definition pathtrace_finish (iter : Z) (h : HostState X) (s : LoopState X)
    : HostState X :=
  {| device := {| dev_image := gathered s;
                  dev_geoms := dev_geoms (dev s);
                  dev_materials := dev_materials (dev s);
                  dev_paths := dev_paths (dev s);
                  dev_intersections := dev_intersections (dev s);
                  dev_hasIntersection := dev_hasIntersection (dev s);
                  dev_materialIds_isec := dev_materialIds_isec (dev s);
                  dev_materialIds_path := dev_materialIds_path (dev s) |};
     scene_image :=
       take (pixelcount X scene) (gathered s)
         ++ drop (pixelcount X scene) (scene_image h);
     pbo :=
       Cuda.launch2d
         (Cuda.blocks_for (resolution_x (camera scene)) blockSize2d)
         (Cuda.blocks_for (resolution_y (camera scene)) blockSize2d)
         blockSize2d blockSize2d
         (sendImageToPBO_thread (resolution_x (camera scene))
            (resolution_y (camera scene)) iter (gathered s))
         (pbo h) |}.

Lemma pathtrace_unfold b fuel iter (h : HostState X) :
  pathtrace X b scene fuel iter h
  = if Cuda.invalid_configuration
         (Cuda.blocks_for (resolution_x (camera scene)) blockSize2d)
       || Cuda.invalid_configuration
            (Cuda.blocks_for (resolution_y (camera scene)) blockSize2d)
    then Exit "generate camera ray"
    else
      match depthLoop X b scene iter fuel
              (loop_entry X scene iter (device h)) with
      | Done s =>
          if pending_error s
             || Cuda.invalid_configuration
                  (Cuda.blocks_for (pixelcount X scene) blockSize1d)
          then Exit "pathtrace"
          else Done (pathtrace_finish iter h s)
      | Exit msg => Exit msg
      | OutOfFuel => OutOfFuel
      end.
Proof. reflexivity. Qed.

Lemma loop_entry_sim b1 b2 iter (d1 d2 : Device X) :
  dev_sim X scene b1 b2 d1 d2 ->
  loop_sim X scene b1 b2 (loop_entry X scene iter d1)
           (loop_entry X scene iter d2).
Proof.
  intros [Himg Himgl Hmat Hgeo Hgeol Hpl1 Hpl2 Hfl1 Hfl2 Hk1 Hk2].
  assert (Hrays :
    dev_paths (dev (loop_entry X scene iter d1))
    = dev_paths (dev (loop_entry X scene iter d2))).
  { cbn [loop_entry dev dev_paths].
    by apply generateRayFromCamera_overwrites. }
  apply mk_loop_sim; [apply mk_dev_sim|..];
    cbn [loop_entry dev depth num_paths pending_error dev_image dev_geoms
         dev_materials dev_hasIntersection dev_materialIds_isec
         dev_materialIds_path]; try done.
  - cbn [dev_paths]. by rewrite generateRayFromCamera_length.
  - cbn [dev_paths]. by rewrite generateRayFromCamera_length.
Qed.

(** One iteration keeps the two runs side by side, and leaves the same
    image on the device and in the pixel buffer. *)
Lemma pathtrace_sim b1 b2 fuel iter (h1 h2 : HostState X) :
  host_sim X scene b1 b2 h1 h2 ->
  result_rel (fun a b => host_sim X scene b1 b2 a b /\ pbo a = pbo b)
             (pathtrace X b1 scene fuel iter h1)
             (pathtrace X b2 scene fuel iter h2).
Proof.
  intros [Hdev Hp1 Hp2]. rewrite !pathtrace_unfold.
  destruct (_ || _); [done|].
  pose proof (depthLoop_sim X scene b1 b2 iter fuel _ _
                (loop_entry_sim b1 b2 iter _ _ Hdev)) as Hloop.
  destruct (depthLoop X b1 scene iter fuel _) as [s1| |],
           (depthLoop X b2 scene iter fuel _) as [s2| |]; try done.
  cbn [result_rel] in Hloop.
  destruct Hloop as [[Himg Himgl Hmat Hgeo Hgeol Hpl1 Hpl2 Hfl1 Hfl2 Hk1 Hk2]
                     Hpaths Hdepth Hnum Hbound Hpend].
  rewrite Hpend. destruct (_ || _); [done|]. cbn [result_rel].
  assert (Hgath : gathered s1 = gathered s2).
  { unfold gathered. by rewrite Himg, Hpaths, Hnum. }
  assert (Hgl : length (gathered s1) = pixelcount X scene).
  { unfold gathered. by rewrite finalGather_length. }
  assert (Hpbo : pbo (pathtrace_finish iter h1 s1)
                 = pbo (pathtrace_finish iter h2 s2)).
  { cbn [pathtrace_finish pbo]. rewrite <- Hgath.
    by apply sendImageToPBO_overwrites. }
  split; [|exact Hpbo].
  apply mk_host_sim; [apply mk_dev_sim|..];
    cbn [pathtrace_finish device pbo dev_image dev_geoms dev_materials
         dev_paths dev_hasIntersection dev_materialIds_isec
         dev_materialIds_path]; try done.
  - by rewrite sendImageToPBO_length.
  - by rewrite sendImageToPBO_length.
Qed.

Lemma iterations_sim b1 b2 fuel first count (h1 h2 : HostState X) :
  host_sim X scene b1 b2 h1 h2 ->
  pbo h1 = pbo h2 ->
  result_rel (fun a b => host_sim X scene b1 b2 a b /\ pbo a = pbo b)
             (iterations X b1 scene fuel first count h1)
             (iterations X b2 scene fuel first count h2).
Proof.
  revert first h1 h2.
  induction count as [|count IH]; intros first h1 h2 Hs Hp; [done|].
  cbn [iterations].
  pose proof (pathtrace_sim b1 b2 fuel first h1 h2 Hs) as Hpt.
  destruct (pathtrace X b1 scene fuel first h1) as [h1'| |],
           (pathtrace X b2 scene fuel first h2) as [h2'| |]; try done.
  destruct Hpt as [Hs' Hp']. by apply IH.
Qed.



(** The initial device state is side by side with itself. *)
Lemma pathtraceInit_sim b1 b2 uninit1 uninit2 :
  dev_sim X scene b1 b2 (pathtraceInit X b1 scene uninit1)
          (pathtraceInit X b2 scene uninit2).
Proof.
  apply mk_dev_sim; cbn [pathtraceInit dev_image dev_geoms dev_materials
                         dev_paths dev_hasIntersection];
    rewrite ?length_replicate, ?length_map, ?length_seq; try done.
  - apply geom_equiv_refl.
  - intros ->. cbn. by rewrite !length_replicate.
  - intros ->. cbn. by rewrite !length_replicate.
Qed.

End SessionSimulation.

(** ** Reordering by material *)

Section Alignment.

Context {A B : Type}.

Lemma insert_by_key_values (f : A -> B) (k : Z) (v : A)
    (l : list (Z * A)) :
  Thrust.insert_by_key k (f v) ((fun p => (p.1, f p.2)) <$> l)
  = (fun p => (p.1, f p.2)) <$> Thrust.insert_by_key k v l.
Proof.
  induction l as [|[k' v'] l IH]; [done|].
  cbn [fmap list_fmap Thrust.insert_by_key fst snd].
  destruct (k <=? k'); [done|].
  cbn [fmap list_fmap fst snd]. f_equal. apply IH.
Qed.

(** The order that the sort gives depends on the keys only. *)
Lemma sort_pairs_values (f : A -> B) (l : list (Z * A)) :
  Thrust.sort_pairs ((fun p => (p.1, f p.2)) <$> l)
  = (fun p => (p.1, f p.2)) <$> Thrust.sort_pairs l.
Proof.
  induction l as [|[k v] l IH]; [done|].
  rewrite fmap_cons. cbn [fst snd].
  change (Thrust.sort_pairs ((k, v) :: l))
    with (Thrust.insert_by_key k v (Thrust.sort_pairs l)).
  rewrite <- insert_by_key_values, <- IH. reflexivity.
Qed.

End Alignment.

Section AlignedSort.

Context {A B : Type}.

Lemma zip_keys_fst (ks : list Z) (a : list A) (b : list B) :
  length a = length b ->
  (fun p : Z * (A * B) => (p.1, p.2.1)) <$> zip ks (zip a b) = zip ks a.
Proof.
  revert a b. induction ks as [|k ks IH]; intros [|x a] [|y b] Hl;
    try done.
  cbn. f_equal. apply IH. by injection Hl.
Qed.

Lemma zip_keys_snd (ks : list Z) (a : list A) (b : list B) :
  length a = length b ->
  (fun p : Z * (A * B) => (p.1, p.2.2)) <$> zip ks (zip a b) = zip ks b.
Proof.
  revert a b. induction ks as [|k ks IH]; intros [|x a] [|y b] Hl;
    try done.
  cbn. f_equal. apply IH. by injection Hl.
Qed.

Lemma zip_of_components (l : list (Z * (A * B))) :
  zip (((fun p : Z * (A * B) => (p.1, p.2.1)) <$> l).*2)
      (((fun p : Z * (A * B) => (p.1, p.2.2)) <$> l).*2)
  = l.*2.
Proof.
  induction l as [|[k [x y]] l IH]; [done|]. cbn. f_equal. apply IH.
Qed.

(** Sorting two arrays of one length with the same keys is sorting the
    array of their pairs. *)
Lemma sort_by_key_aligned (ks : list Z) (a : list A) (b : list B) :
  length a = length b ->
  zip (Thrust.sort_by_key ks a).2 (Thrust.sort_by_key ks b).2
  = (Thrust.sort_by_key ks (zip a b)).2.
Proof.
  intros Hl. unfold Thrust.sort_by_key. cbn [snd].
  rewrite <- (zip_keys_fst ks a b Hl), <- (zip_keys_snd ks a b Hl).
  rewrite (sort_pairs_values fst), (sort_pairs_values snd).
  apply zip_of_components.
Qed.

End AlignedSort.

(** The state in which a session starts, with the pixel buffer [pbo0], and
    the one in which it resumes. *)
Definition session_start (X : Collab) (b : bool) (scene : Scene X)
    (uninit : nat -> PathSegment) (pbo0 : list uchar4) : HostState X :=
  {| device := pathtraceInit X b scene uninit;
     scene_image := image scene;
     pbo := pbo0 |}.

Definition session_resume (X : Collab) (b : bool) (scene : Scene X)
    (uninit : nat -> PathSegment) (pbo0 : list uchar4) : HostState X :=
  {| device := pathtraceResume X b scene uninit;
     scene_image := image scene;
     pbo := pbo0 |}.


(** C9.  A build with the reordering by material and a build without it
    leave the same accumulated image and the same pixel buffer after any
    number of iterations.  The reordering keeps the two arrays aligned: it
    leaves both as they are with the keys that [getMaterialId] writes, and
    with any keys sorting both arrays is sorting the array of their
    pairs. *)
Theorem material_sort_is_invisible (X : Collab) (scene : Scene X)
    (uninit : nat -> PathSegment) (pbo0 : list uchar4) (fuel : nat)
    (first : Z) (count : nat) :
  length pbo0 = pixelcount X scene ->
  result_map (fun h => (dev_image (device h), pbo h))
    (iterations X true scene fuel first count
       (session_start X true scene uninit pbo0))
  = result_map (fun h => (dev_image (device h), pbo h))
      (iterations X false scene fuel first count
         (session_start X false scene uninit pbo0))
  /\ (forall blocks nPaths ids_isec ids_path isecs paths,
        (nPaths <= blocks * blockSize1d)%nat ->
        (nPaths <= length ids_isec)%nat ->
        (nPaths <= length ids_path)%nat ->
        (nPaths <= length isecs)%nat ->
        (nPaths <= length paths)%nat ->
        (sortByMaterial blocks nPaths ids_isec ids_path isecs paths).1.2
        = isecs
        /\ (sortByMaterial blocks nPaths ids_isec ids_path isecs paths).2
           = paths)
  /\ (forall keys (paths : list PathSegment)
             (isecs : list ShadeableIntersection),
        length paths = length isecs ->
        zip (Thrust.sort_by_key keys paths).2
            (Thrust.sort_by_key keys isecs).2
        = (Thrust.sort_by_key keys (zip paths isecs)).2).
Proof.
  intros Hpbo. split; [|split].
  - apply (result_rel_map
             (fun a b => host_sim X scene true false a b /\ pbo a = pbo b)).
    + intros a b [[Hd _ _] Hp]. by rewrite (sim_image _ _ _ _ _ _ Hd), Hp.
    + apply iterations_sim; [|done].
      apply mk_host_sim; [apply pathtraceInit_sim | done | done].
  - intros blocks nPaths ids1 ids2 isecs paths H1 H2 H3 H4 H5.
    destruct (sortByMaterial_keeps blocks nPaths ids1 ids2 isecs paths
                H1 H2 H3 H4 H5) as (Ha & Hb & _). done.
  - intros keys paths isecs Hl. by apply sort_by_key_aligned.
Qed.

Lemma material_sort_is_invisible_witness :
  result_map (fun h => (dev_image (device h), pbo h))
    (iterations Demo.collab true Demo.matte_room 5 1 2
       (session_start Demo.collab true Demo.matte_room (fun _ => Demo.blank)
          (replicate 2 (mkuchar4 0 0 0 0))))
  = result_map (fun h => (dev_image (device h), pbo h))
      (iterations Demo.collab false Demo.matte_room 5 1 2
         (session_start Demo.collab false Demo.matte_room
            (fun _ => Demo.blank) (replicate 2 (mkuchar4 0 0 0 0)))).
Proof.
  refine (proj1 (material_sort_is_invisible Demo.collab Demo.matte_room
                   (fun _ => Demo.blank) (replicate 2 (mkuchar4 0 0 0 0))
                   5 1 2 _)).
  reflexivity.
Defined.

(** ** Resuming a session *)

Section SceneImage.

Context (X : Collab) (scene : Scene X) (saved : list vec3).





End SceneImage.

Section Resume.

Context (X : Collab) (scene : Scene X).





Lemma depthLoop_image b iter fuel (s s' : LoopState X) :
  depthLoop X b scene iter fuel s = Done s' ->
  dev_image (dev s') = dev_image (dev s).
Proof.
  revert s. induction fuel as [|fuel IH]; intros s; cbn [depthLoop];
    [done|].
  destruct (depthPass X b scene iter s) as [s1| |] eqn:Hp; try done.
  apply depthPass_Done in Hp as [_ Hs1].
  assert (Himg : dev_image (dev s1) = dev_image (dev s)) by (by subst s1).
  destruct (depth s1 =? traceDepth scene).
  - intros [= <-]. done.
  - intros Hl. apply IH in Hl. congruence.
Qed.

Lemma pathtrace_Done b fuel iter (h h' : HostState X) :
  pathtrace X b scene fuel iter h = Done h' ->
  exists s,
    depthLoop X b scene iter fuel (loop_entry X scene iter (device h))
    = Done s
    /\ h' = pathtrace_finish X scene iter h s.
Proof.
  rewrite pathtrace_unfold. destruct (_ || _); [done|].
  destruct (depthLoop X b scene iter fuel _) as [s| |]; try done.
  destruct (_ || _); [done|]. intros [= <-]. by exists s.
Qed.



End Resume.



(** * Further properties of the kernels and of the driver *)

(** ** What the whole-image launches leave *)

Section Stores.

Context {K A : Type}.

(** Stores that write what the array holds already change nothing. *)
Lemma foldl_insert_same (c : K -> bool) (ix : K -> nat) (v : K -> A)
    (ks : list K) (q : list A) :
  (forall k, k ∈ ks -> c k = true -> q !! ix k = Some (v k)) ->
  foldl (fun m k => if c k then <[ix k := v k]> m else m) q ks = q.
Proof.
  induction ks as [|k ks IH]; intros Hq; [done|].
  cbn [foldl]. destruct (c k) eqn:Hc.
  - rewrite list_insert_id by (apply Hq; [apply list_elem_of_here | done]).
    apply IH. intros k' Hk'. apply Hq. by apply list_elem_of_further.
  - apply IH. intros k' Hk'. apply Hq. by apply list_elem_of_further.
Qed.

End Stores.

Lemma pixel_of_index (res_x x y : nat) :
  (x < res_x)%nat ->
  ((x + y * res_x) mod res_x = x /\ (x + y * res_x) / res_x = y)%nat.
Proof.
  intros Hx. split.
  - rewrite Nat.Div0.mod_add. by apply Nat.mod_small.
  - rewrite Nat.div_add by lia. rewrite Nat.div_small by done. lia.
Qed.

(** The paths that ray generation leaves, slot by slot. *)
Definition camera_paths (X : Collab) (cam : Camera) (iter traceDepth : Z)
    : list PathSegment :=
  (fun i => camera_segment X cam iter traceDepth
              ((i mod resolution_x cam)%nat, (i / resolution_x cam)%nat))
    <$> seq 0 (resolution_x cam * resolution_y cam).

Lemma camera_paths_length (X : Collab) (cam : Camera) (iter traceDepth : Z) :
  length (camera_paths X cam iter traceDepth)
  = (resolution_x cam * resolution_y cam)%nat.
Proof. unfold camera_paths. by rewrite length_fmap, length_seq. Qed.

Lemma camera_paths_lookup (X : Collab) (cam : Camera) (iter traceDepth : Z)
    (i : nat) (seg : PathSegment) :
  camera_paths X cam iter traceDepth !! i = Some seg ->
  (i < resolution_x cam * resolution_y cam)%nat
  /\ pixelIndex seg = Z.of_nat i
  /\ remainingBounces seg = traceDepth
  /\ color seg = mkvec3 F32.one F32.one F32.one
  /\ origin (ray seg) = position cam.
Proof.
  intros Hseg. unfold camera_paths in Hseg.
  rewrite list_lookup_fmap in Hseg.
  destruct (seq 0 _ !! i) as [j|] eqn:Hj; [|done].
  apply lookup_seq in Hj as [-> Hi]. cbn in Hseg.
  injection Hseg as <-.
  assert (Hx : (0 < resolution_x cam)%nat)
    by (destruct (resolution_x cam); lia).
  unfold camera_segment.
  cbn [pixelIndex remainingBounces color ray origin fst snd].
  split; [lia|]. repeat split. f_equal.
  pose proof (Nat.div_mod i (resolution_x cam) ltac:(lia)). lia.
Qed.

Lemma generateRayFromCamera_camera_paths (X : Collab) (cam : Camera)
    (iter traceDepth : Z) (paths : list PathSegment) :
  length paths = (resolution_x cam * resolution_y cam)%nat ->
  Cuda.launch2d (Cuda.blocks_for (resolution_x cam) blockSize2d)
    (Cuda.blocks_for (resolution_y cam) blockSize2d) blockSize2d blockSize2d
    (generateRayFromCamera_thread X cam iter traceDepth) paths
  = camera_paths X cam iter traceDepth.
Proof.
  intros Hlen.
  rewrite (generateRayFromCamera_overwrites X cam iter traceDepth paths
             (camera_paths X cam iter traceDepth) Hlen
             (camera_paths_length X cam iter traceDepth)).
  rewrite generateRayFromCamera_launch.
  apply (foldl_insert_same
           (fun xy => ((xy.1 <? resolution_x cam)
                       && (xy.2 <? resolution_y cam))%nat)
           (fun xy => (xy.1 + xy.2 * resolution_x cam)%nat)
           (camera_segment X cam iter traceDepth)).
  intros [x y] _ Hc. cbn [fst snd] in *.
  apply andb_true_iff in Hc as [Hx Hy].
  apply Nat.ltb_lt in Hx, Hy.
  unfold camera_paths. rewrite list_lookup_fmap.
  rewrite lookup_seq_lt by nia. cbn [fmap option_fmap option_map plus].
  destruct (pixel_of_index (resolution_x cam) x y Hx) as [-> ->]. done.
Qed.

(** X1.  [generateRayFromCamera] overwrites the whole array of paths,
    whatever it held: slot [i] gets the path of the pixel
    [(i mod width, i / width)], with the pixel index [i], the trace depth as
    its budget, a white throughput and the camera position as origin. *)
Theorem generateRayFromCamera_fills_every_slot (X : Collab) (cam : Camera)
    (iter traceDepth : Z) (paths : list PathSegment) :
  length paths = (resolution_x cam * resolution_y cam)%nat ->
  Cuda.launch2d (Cuda.blocks_for (resolution_x cam) blockSize2d)
    (Cuda.blocks_for (resolution_y cam) blockSize2d) blockSize2d blockSize2d
    (generateRayFromCamera_thread X cam iter traceDepth) paths
  = camera_paths X cam iter traceDepth
  /\ (forall i seg,
        camera_paths X cam iter traceDepth !! i = Some seg ->
        pixelIndex seg = Z.of_nat i
        /\ remainingBounces seg = traceDepth
        /\ color seg = mkvec3 F32.one F32.one F32.one
        /\ origin (ray seg) = position cam)
  /\ length (camera_paths X cam iter traceDepth) = length paths.
Proof.
  intros Hlen. split; [|split].
  - by apply generateRayFromCamera_camera_paths.
  - intros i seg Hseg.
    by destruct (camera_paths_lookup X cam iter traceDepth i seg Hseg)
      as (_ & ? & ? & ? & ?).
  - by rewrite camera_paths_length.
Qed.

Lemma generateRayFromCamera_fills_every_slot_witness :
  Cuda.launch2d (Cuda.blocks_for 2 blockSize2d) (Cuda.blocks_for 1 blockSize2d)
    blockSize2d blockSize2d
    (generateRayFromCamera_thread Demo.collab (Demo.cam 2 1) 1 3)
    [Demo.blank; Demo.blank]
  = camera_paths Demo.collab (Demo.cam 2 1) 1 3.
Proof.
  refine (proj1 (generateRayFromCamera_fills_every_slot Demo.collab
                   (Demo.cam 2 1) 1 3 [Demo.blank; Demo.blank] _)).
  reflexivity.
Defined.

Lemma to_channel_range (p : float) (iter : Z) :
  0 <= to_channel p iter <= 255.
Proof. unfold to_channel, clamp. lia. Qed.

Lemma sendImageToPBO_displayed (res_x res_y : nat) (iter : Z)
    (image : list vec3) (pbo : list uchar4) :
  length image = (res_x * res_y)%nat ->
  length pbo = (res_x * res_y)%nat ->
  Cuda.launch2d (Cuda.blocks_for res_x blockSize2d)
    (Cuda.blocks_for res_y blockSize2d) blockSize2d blockSize2d
    (sendImageToPBO_thread res_x res_y iter image) pbo
  = displayed iter <$> image.
Proof.
  intros Himg Hpbo.
  rewrite (sendImageToPBO_overwrites res_x res_y iter image pbo
             (displayed iter <$> image) Himg Hpbo)
    by (by rewrite length_fmap).
  rewrite sendImageToPBO_launch.
  apply (foldl_insert_same
           (fun xy => ((xy.1 <? res_x) && (xy.2 <? res_y))%nat
                      && bool_decide
                           (is_Some (image !! (xy.1 + xy.2 * res_x)%nat)))
           (fun xy => (xy.1 + xy.2 * res_x)%nat)
           (fun xy => displayed iter
                        (default (Glm.vec3_splat F32.zero)
                                 (image !! (xy.1 + xy.2 * res_x)%nat)))).
  intros [x y] _ Hc. cbn [fst snd] in *.
  apply andb_true_iff in Hc as [_ Hs].
  apply bool_decide_eq_true in Hs as [pix Hpix].
  rewrite list_lookup_fmap, Hpix. done.
Qed.

(** X2.  [sendImageToPBO] overwrites the whole pixel buffer: pixel [i] gets
    the three channels of the accumulated color [i], each divided by the
    iteration count, scaled by 255, truncated and clamped, so that every
    channel lies between 0 and 255; the fourth component is 0. *)
Theorem sendImageToPBO_fills_every_pixel (res_x res_y : nat) (iter : Z)
    (image : list vec3) (pbo : list uchar4) :
  length image = (res_x * res_y)%nat ->
  length pbo = (res_x * res_y)%nat ->
  Cuda.launch2d (Cuda.blocks_for res_x blockSize2d)
    (Cuda.blocks_for res_y blockSize2d) blockSize2d blockSize2d
    (sendImageToPBO_thread res_x res_y iter image) pbo
  = displayed iter <$> image
  /\ (forall i px,
        (displayed iter <$> image) !! i = Some px ->
        0 <= cx px <= 255 /\ 0 <= cy px <= 255 /\ 0 <= cz px <= 255
        /\ cw px = 0).
Proof.
  intros Himg Hpbo. split.
  - by apply sendImageToPBO_displayed.
  - intros i px Hpx. rewrite list_lookup_fmap in Hpx.
    destruct (image !! i) as [pix|]; [|done]. injection Hpx as <-.
    cbn [displayed cx cy cz cw].
    pose proof (to_channel_range (vx pix) iter).
    pose proof (to_channel_range (vy pix) iter).
    pose proof (to_channel_range (vz pix) iter). done.
Qed.

Lemma sendImageToPBO_fills_every_pixel_witness :
  Cuda.launch2d (Cuda.blocks_for 2 blockSize2d) (Cuda.blocks_for 1 blockSize2d)
    blockSize2d blockSize2d
    (sendImageToPBO_thread 2 1 4 [Demo.v1; Demo.v0])
    [mkuchar4 7 7 7 7; mkuchar4 7 7 7 7]
  = displayed 4 <$> [Demo.v1; Demo.v0].
Proof.
  refine (proj1 (sendImageToPBO_fills_every_pixel 2 1 4 [Demo.v1; Demo.v0]
                   [mkuchar4 7 7 7 7; mkuchar4 7 7 7 7] _ _)); reflexivity.
Defined.

(** ** Image accumulation *)

(** The colors that the paths [ps] carry for the pixel [i], in the order of
    the paths. *)
Definition contributions (i : nat) (ps : list PathSegment) : list vec3 :=
  color <$> filter (fun p => pixelIndex p = Z.of_nat i) ps.

Lemma contributions_snoc (i : nat) (ps : list PathSegment) (p : PathSegment) :
  contributions i (ps ++ [p])
  = contributions i ps
    ++ (if decide (pixelIndex p = Z.of_nat i) then [color p] else []).
Proof.
  unfold contributions. rewrite filter_app, fmap_app. f_equal.
  case_decide as Hd.
  - by rewrite filter_cons_True.
  - by rewrite filter_cons_False.
Qed.

Lemma foldl_snoc {A B : Type} (f : A -> B -> A) (a : A) (l : list B) (x : B) :
  foldl f a (l ++ [x]) = f (foldl f a l) x.
Proof. by rewrite foldl_app. Qed.

Lemma finalGather_prefix (nPaths : nat) (paths : list PathSegment)
    (image : list vec3) (i k : nat) :
  foldl (fun m idx => finalGather_thread nPaths paths idx m) image (seq 0 k)
    !! i
  = (fun pix =>
       foldl Glm.vadd pix (contributions i (take (k `min` nPaths) paths)))
      <$> image !! i.
Proof.
  induction k as [|k IH].
  - cbn. by destruct (image !! i).
  - rewrite seq_S, foldl_snoc, Nat.add_0_l.
    unfold finalGather_thread at 1.
    destruct (Nat.ltb_spec k nPaths) as [Hk|Hk].
    2:{ rewrite IH. by rewrite !Nat.min_r by lia. }
    rewrite Nat.min_l in IH by lia. rewrite Nat.min_l by lia.
    destruct (paths !! k) as [p|] eqn:Hp.
    2:{ rewrite IH. apply lookup_ge_None in Hp.
        by rewrite !take_ge by lia. }
    rewrite (take_S_r _ _ _ Hp), contributions_snoc.
    destruct (Z.ltb_spec (pixelIndex p) 0) as [Hneg|Hpos].
    { rewrite IH. rewrite decide_False by lia. by rewrite app_nil_r. }
    rewrite list_lookup_alter.
    destruct (decide (Z.to_nat (pixelIndex p) = i)) as [Hi|Hi].
    + rewrite Hi, IH. rewrite decide_True by lia.
      destruct (image !! i); cbn; [|done]. by rewrite foldl_app.
    + rewrite IH. rewrite decide_False by lia. by rewrite app_nil_r.
Qed.

Lemma finalGather_launch_lookup (blocks nPaths : nat)
    (paths : list PathSegment) (image : list vec3) (i : nat) :
  (nPaths <= blocks * blockSize1d)%nat ->
  Cuda.launch blocks blockSize1d (finalGather_thread nPaths paths) image !! i
  = (fun pix => foldl Glm.vadd pix (contributions i (take nPaths paths)))
      <$> image !! i.
Proof.
  intros Hb. unfold Cuda.launch. rewrite finalGather_prefix.
  by rewrite Nat.min_r by lia.
Qed.

(** Among entries with distinct keys at most one has a given key. *)
Lemma filter_of_distinct {A : Type} (f : A -> Z) (k : Z) (l : list A) :
  NoDup (f <$> l) ->
  filter (fun p => f p = k) l = []
  \/ exists p, p ∈ l /\ f p = k /\ filter (fun p => f p = k) l = [p].
Proof.
  induction l as [|x l IH]; [by left|].
  rewrite fmap_cons. intros [Hx Hl]%NoDup_cons.
  destruct (decide (f x = k)) as [Hk|Hk].
  - right. exists x. split; [apply list_elem_of_here|]. split; [done|].
    rewrite filter_cons_True by done. f_equal.
    destruct (IH Hl) as [Hnil|(p & Hp & Hfp & _)]; [done|].
    exfalso. apply Hx. rewrite Hk, <- Hfp. by apply list_elem_of_fmap_2.
  - rewrite filter_cons_False by done.
    destruct (IH Hl) as [Hnil|(p & Hp & Hfp & Heq)]; [by left|].
    right. exists p. split; [by apply list_elem_of_further|done].
Qed.

(** X3.  Take a launch of [finalGather] whose grid covers the active
    range, on active paths that lie inside the array of paths and carry
    pixel indices inside the image, no two of them the same; then no two
    threads touch the same pixel.  The pixel of an active path holds what
    it held plus the color of that path, every other pixel holds what it
    held, and the image keeps its size. *)
Theorem finalGather_adds_active_colors (blocks nPaths : nat)
    (paths : list PathSegment) (image : list vec3) :
  (nPaths <= blocks * blockSize1d)%nat ->
  (nPaths <= length paths)%nat ->
  Forall (fun p => 0 <= pixelIndex p < Z.of_nat (length image))
         (take nPaths paths) ->
  NoDup (pixelIndex <$> take nPaths paths) ->
  (forall i p,
     p ∈ take nPaths paths -> pixelIndex p = Z.of_nat i ->
     Cuda.launch blocks blockSize1d (finalGather_thread nPaths paths) image
       !! i
     = (fun pix => Glm.vadd pix (color p)) <$> image !! i)
  /\ (forall i,
        (forall p, p ∈ take nPaths paths -> pixelIndex p <> Z.of_nat i) ->
        Cuda.launch blocks blockSize1d (finalGather_thread nPaths paths)
          image !! i
        = image !! i)
  /\ length (Cuda.launch blocks blockSize1d
               (finalGather_thread nPaths paths) image)
     = length image.
Proof.
  intros Hb _ _ Hdistinct.
  split; [|split; [|apply finalGather_length]].
  - intros i p Hp Hi. rewrite finalGather_launch_lookup by done.
    unfold contributions.
    destruct (filter_of_distinct pixelIndex (Z.of_nat i)
                (take nPaths paths) Hdistinct)
      as [Hnil|(q & _ & _ & Hone)].
    + exfalso.
      assert (Hin : p ∈ filter (fun p => pixelIndex p = Z.of_nat i)
                               (take nPaths paths))
        by (by apply list_elem_of_filter).
      rewrite Hnil in Hin. by apply elem_of_nil in Hin.
    + assert (Hin : p ∈ filter (fun p => pixelIndex p = Z.of_nat i)
                               (take nPaths paths))
        by (by apply list_elem_of_filter).
      rewrite Hone in Hin. apply list_elem_of_singleton in Hin. subst q.
      rewrite Hone. by destruct (image !! i).
  - intros i Hnone. rewrite finalGather_launch_lookup by done.
    unfold contributions.
    destruct (filter_of_distinct pixelIndex (Z.of_nat i)
                (take nPaths paths) Hdistinct)
      as [->|(q & Hq & Hqi & _)].
    + by destruct (image !! i).
    + by destruct (Hnone q Hq).
Qed.

Lemma finalGather_adds_active_colors_witness :
  Cuda.launch 1 blockSize1d
    (finalGather_thread 2 [fresh_path; Demo.blank; fresh_path])
    [Demo.v0; Demo.v0] !! 1%nat
  = (fun pix => Glm.vadd pix (color fresh_path))
      <$> [Demo.v0; Demo.v0] !! 1%nat.
Proof.
  refine (proj1 (finalGather_adds_active_colors 1 2
                   [fresh_path; Demo.blank; fresh_path]
                   [Demo.v0; Demo.v0] _ _ _ _) 1%nat fresh_path _ _).
  - unfold blockSize1d. lia.
  - cbn. lia.
  - cbn [take]. repeat constructor; cbn; lia.
  - cbn [take fmap list_fmap]. apply NoDup_cons. split.
    + intros Hin. apply list_elem_of_singleton in Hin. discriminate Hin.
    + apply NoDup_singleton.
  - cbn [take]. apply list_elem_of_here.
  - reflexivity.
Defined.

(** ** Where a call gives up *)

Section ErrorChecks.

Context (X : Collab) (SORT_BY_MATERIAL : bool) (scene : Scene X) (iter : Z).

Lemma depthLoop_Done_pending fuel (s s' : LoopState X) :
  depthLoop X SORT_BY_MATERIAL scene iter fuel s = Done s' ->
  pending_error s' = false.
Proof.
  revert s. induction fuel as [|fuel IH]; intros s; [done|].
  cbn [depthLoop]. rewrite depthPass_unfold.
  destruct (pass_failed X scene s) eqn:Hf; [done|].
  destruct (_ =? _).
  - intros [= <-]. cbn [pass_state pending_error].
    unfold pass_failed in Hf. by apply orb_false_iff in Hf as [_ ->].
  - apply IH.
Qed.

Lemma depthLoop_no_geoms fuel (s : LoopState X) :
  geoms scene = [] -> fuel <> 0%nat ->
  depthLoop X SORT_BY_MATERIAL scene iter fuel s = Exit "trace one bounce".
Proof.
  intros Hg Hfuel. destruct fuel as [|fuel]; [done|].
  cbn [depthLoop]. rewrite depthPass_unfold.
  destruct (pass_failed X scene s) eqn:Hf; [done|].
  apply pass_failed_false in Hf as (_ & Hne & _). done.
Qed.

Lemma depthLoop_Exit fuel (s : LoopState X) msg :
  depthLoop X SORT_BY_MATERIAL scene iter fuel s = Exit msg ->
  msg = "trace one bounce"%string.
Proof.
  revert s. induction fuel as [|fuel IH]; intros s; [done|].
  cbn [depthLoop]. rewrite depthPass_unfold.
  destruct (pass_failed X scene s); [by intros [= <-]|].
  destruct (_ =? _); [done|]. apply IH.
Qed.

Lemma invalid_configuration_2d :
  Cuda.invalid_configuration
    (Cuda.blocks_for (resolution_x (camera scene)) blockSize2d)
  || Cuda.invalid_configuration
       (Cuda.blocks_for (resolution_y (camera scene)) blockSize2d) = true
  <-> pixelcount X scene = 0%nat.
Proof.
  unfold pixelcount. rewrite orb_true_iff.
  rewrite !blocks_for_zero by (unfold blockSize2d; lia). nia.
Qed.

End ErrorChecks.

(** X5.  What a call of [pathtrace] does with a scene it cannot render.  A
    camera without pixels makes the camera launch fail and the call ends
    the program with "generate camera ray".  With pixels but without
    primitives the first pass of the depth loop ends it with
    "trace one bounce".  The last check of the call, "pathtrace", never
    fires. *)
Theorem pathtrace_gives_up_on_empty_scene (X : Collab)
    (SORT_BY_MATERIAL : bool) (scene : Scene X) (fuel : nat) (iter : Z)
    (h : HostState X) :
  (pixelcount X scene = 0%nat ->
   pathtrace X SORT_BY_MATERIAL scene fuel iter h
   = Exit "generate camera ray")
  /\ (pixelcount X scene <> 0%nat -> geoms scene = [] -> fuel <> 0%nat ->
      pathtrace X SORT_BY_MATERIAL scene fuel iter h
      = Exit "trace one bounce")
  /\ pathtrace X SORT_BY_MATERIAL scene fuel iter h <> Exit "pathtrace".
Proof.
  rewrite pathtrace_unfold.
  pose proof (invalid_configuration_2d X scene) as H2d.
  destruct (_ || _) eqn:Hcfg.
  - destruct H2d as [H2d _]. specialize (H2d eq_refl).
    split; [done|]. split; [|done]. intros Hn. done.
  - assert (Hpix : pixelcount X scene <> 0%nat).
    { intros Hz. destruct H2d as [_ H2d]. by specialize (H2d Hz). }
    split; [done|]. split.
    + intros _ Hg Hfuel. by rewrite depthLoop_no_geoms.
    + destruct (depthLoop _ _ _ _ _ _) as [s|msg|] eqn:Hloop; [| |done].
      * rewrite (depthLoop_Done_pending _ _ _ _ _ _ _ Hloop).
        pose proof (blocks_for_zero (pixelcount X scene) blockSize1d
                      ltac:(unfold blockSize1d; lia)) as Hb.
        cbn [orb].
        destruct (Cuda.invalid_configuration
                    (Cuda.blocks_for (pixelcount X scene) blockSize1d));
          [|by intros [=]].
        destruct Hb as [Hb _]. by specialize (Hb eq_refl).
      * by rewrite (depthLoop_Exit _ _ _ _ _ _ _ Hloop).
Qed.

Lemma pathtrace_gives_up_on_empty_scene_witness :
  pathtrace Demo.collab false
    (Demo.scene_of 2 1 3 [] [Demo.light]) 5 1
    (Demo.start false (Demo.scene_of 2 1 3 [] [Demo.light]))
  = Exit "trace one bounce".
Proof.
  apply (proj1 (proj2 (pathtrace_gives_up_on_empty_scene Demo.collab false
                         (Demo.scene_of 2 1 3 [] [Demo.light]) 5 1
                         (Demo.start false
                            (Demo.scene_of 2 1 3 [] [Demo.light]))))).
  - vm_compute. lia.
  - reflexivity.
  - lia.
Defined.

(** ** The buffers across a session *)

Section Allocation.

Context (X : Collab) (scene : Scene X).

(** The buffers have the sizes that [pathtraceInit] and [pathtraceResume]
    allocate; the pixel buffer, which the caller maps, has one entry for
    every pixel. *)
Record allocated (b : bool) (h : HostState X) : Prop := mk_allocated {
  al_image : length (dev_image (device h)) = pixelcount X scene;
  al_paths : length (dev_paths (device h)) = pixelcount X scene;
  al_flags : length (dev_hasIntersection (device h)) = pixelcount X scene;
  al_geoms : length (dev_geoms (device h)) = length (geoms scene);
  al_keys : keys_ready X scene b (device h);
  al_pbo : length (pbo h) = pixelcount X scene
}.

Lemma allocated_sim b (h : HostState X) :
  allocated b h <-> host_sim X scene b b h h.
Proof.
  split.
  - intros [? ? ? ? ? ?].
    apply mk_host_sim; [apply mk_dev_sim|..]; try done.
    apply geom_equiv_refl.
  - intros [[? ? ? ? ? ? ? ? ? ? ?] ? ?]. by apply mk_allocated.
Qed.

Lemma session_start_allocated b uninit (pbo0 : list uchar4) :
  length pbo0 = pixelcount X scene ->
  allocated b (session_start X b scene uninit pbo0).
Proof.
  intros Hpbo. apply allocated_sim.
  apply mk_host_sim; [apply pathtraceInit_sim|done|done].
Qed.

Lemma session_resume_allocated b uninit (pbo0 : list uchar4) :
  (pixelcount X scene <= length (image scene))%nat ->
  length pbo0 = pixelcount X scene ->
  allocated b (session_resume X b scene uninit pbo0).
Proof.
  intros Himg Hpbo.
  apply mk_allocated;
    cbn [session_resume device pbo pathtraceResume dev_image dev_paths
         dev_hasIntersection dev_geoms];
    rewrite ?length_replicate, ?length_map, ?length_seq, ?length_take;
    try done; try lia.
  intros ->.
  cbn [pathtraceResume dev_materialIds_isec dev_materialIds_path].
  by rewrite !length_replicate.
Qed.

(** The loop states whose buffers have these sizes and whose active range
    lies inside them. *)
Definition loop_allocated (b : bool) (s : LoopState X) : Prop :=
  loop_sim X scene b b s s.

Lemma loop_entry_allocated b iter (h : HostState X) :
  allocated b h -> loop_allocated b (loop_entry X scene iter (device h)).
Proof.
  intros Ha. apply allocated_sim in Ha as [Hdev _ _].
  by apply loop_entry_sim.
Qed.

Lemma depthPass_allocated b iter (s s' : LoopState X) :
  loop_allocated b s ->
  depthPass X b scene iter s = Done s' ->
  loop_allocated b s'
  /\ length (dev_intersections (dev s')) = pixelcount X scene
  /\ dev_materials (dev s') = dev_materials (dev s)
  /\ dev_image (dev s') = dev_image (dev s).
Proof.
  intros Hs Hpass.
  pose proof (depthPass_sim X scene b b iter s s Hs) as Hsim.
  rewrite Hpass in Hsim. cbn [result_rel] in Hsim.
  split; [exact Hsim|].
  apply depthPass_Done in Hpass as [_ ->].
  cbn [pass_state dev dev_intersections dev_materials dev_image].
  split; [|done].
  destruct Hs as [[Himg Himgl Hmat Hgeo Hgeol Hpl1 Hpl2 Hfl1 Hfl2 Hk1 Hk2]
                  Hpaths Hdepth Hnum Hbound Hpend].
  destruct (pass_geoms_sim X scene iter s s Hgeo Hgeol) as [Hg Hgl].
  destruct (pass_traced_sim X scene iter s s Hg Hpaths Hnum Hbound Hpl1
              Hfl1 Hfl2) as (_ & _ & Htl & _ & _).
  destruct (pass_compacted_lengths X scene iter s Htl) as (Hc1 & Hc2 & Hc3).
  rewrite Hpl1 in Hc2.
  destruct (pass_sorted_keeps X scene iter b s Hk1 Hbound Hc1 Hc2 Hc3)
    as (-> & _ & _).
  done.
Qed.

Lemma depthLoop_allocated b iter fuel (s s' : LoopState X) :
  loop_allocated b s ->
  depthLoop X b scene iter fuel s = Done s' ->
  loop_allocated b s'
  /\ length (dev_intersections (dev s')) = pixelcount X scene
  /\ dev_materials (dev s') = dev_materials (dev s)
  /\ dev_image (dev s') = dev_image (dev s).
Proof.
  revert s. induction fuel as [|fuel IH]; intros s Hs; [done|].
  cbn [depthLoop].
  destruct (depthPass X b scene iter s) as [s1| |] eqn:Hpass; try done.
  destruct (depthPass_allocated b iter s s1 Hs Hpass)
    as (Hs1 & Hl1 & Hm1 & Hi1).
  destruct (_ =? _).
  - intros [= <-]. done.
  - intros Hloop. destruct (IH s1 Hs1 Hloop) as (? & ? & Hm & Hi).
    rewrite Hm, Hi. done.
Qed.

Lemma pathtrace_allocated b fuel iter (h h' : HostState X) :
  allocated b h ->
  pathtrace X b scene fuel iter h = Done h' ->
  allocated b h'
  /\ length (dev_intersections (device h')) = pixelcount X scene
  /\ dev_materials (device h') = dev_materials (device h).
Proof.
  intros Ha Hpt.
  pose proof (pathtrace_sim X scene b b fuel iter h h
                (proj1 (allocated_sim b h) Ha)) as Hsim.
  rewrite Hpt in Hsim. cbn [result_rel] in Hsim.
  split; [apply allocated_sim; by destruct Hsim|].
  apply pathtrace_Done in Hpt as (s & Hloop & ->).
  destruct (depthLoop_allocated b iter fuel _ s
              (loop_entry_allocated b iter h Ha) Hloop) as (_ & Hl & Hm & _).
  cbn [pathtrace_finish device dev_intersections dev_materials]. done.
Qed.

(** The image that [finalGather] leaves when the depth loop has ended in
    the state [s]. *)
Lemma depthLoop_gathered b fuel iter (h : HostState X) (s : LoopState X) :
  allocated b h ->
  depthLoop X b scene iter fuel (loop_entry X scene iter (device h))
  = Done s ->
  length (gathered X scene s) = pixelcount X scene
  /\ forall i,
       gathered X scene s !! i
       = (fun pix =>
            foldl Glm.vadd pix
              (contributions i (take (num_paths s) (dev_paths (dev s)))))
           <$> dev_image (device h) !! i.
Proof.
  intros Ha Hloop.
  destruct (depthLoop_allocated b iter fuel _ s
              (loop_entry_allocated b iter h Ha) Hloop)
    as (Hs & _ & _ & Himg).
  cbn [loop_entry dev dev_image] in Himg.
  pose proof (ls_bound _ _ _ _ _ _ Hs) as Hbound.
  pose proof (blocks_for_covers (pixelcount X scene)) as Hcov.
  split.
  - unfold gathered. rewrite finalGather_length, Himg. by destruct Ha.
  - intros i. unfold gathered.
    rewrite finalGather_launch_lookup by lia. by rewrite Himg.
Qed.

Lemma iterations_allocated b fuel first count (h h' : HostState X) :
  allocated b h ->
  iterations X b scene fuel first count h = Done h' ->
  allocated b h'
  /\ dev_materials (device h') = dev_materials (device h)
  /\ (count <> 0%nat ->
      length (dev_intersections (device h')) = pixelcount X scene).
Proof.
  revert first h. induction count as [|count IH]; intros first h Ha.
  - cbn [iterations]. intros [= <-]. done.
  - cbn [iterations].
    destruct (pathtrace X b scene fuel first h) as [h1| |] eqn:Hpt;
      try done.
    destruct (pathtrace_allocated b fuel first h h1 Ha Hpt)
      as (Ha1 & Hl1 & Hm1).
    intros Hit. destruct (IH (first + 1) h1 Ha1 Hit) as (Ha' & Hm' & Hl').
    split; [done|]. split; [by rewrite Hm'|]. intros _.
    destruct count as [|count]; [|by apply Hl'].
    cbn [iterations] in Hit. by injection Hit as <-.
Qed.

(** *** Grids inside the arrays *)

(** The threads of a pass index the arrays by their own index: below
    [num_paths] in the tracing launch and in the [if] branch of the
    shading launch, and up to the end of the grid in its [else] branch.
    A pass is in bounds when the buffers have their sizes, the active
    range lies inside them and the grid of the pass, which is rounded up
    to whole blocks, does not reach behind the array of paths. *)
Definition in_bounds (b : bool) (s : LoopState X) : Prop :=
  loop_allocated b s
  /\ (Cuda.blocks_for (num_paths s) blockSize1d * blockSize1d
      <= pixelcount X scene)%nat.

Lemma blocks_for_mono (n m : nat) :
  (n <= m)%nat ->
  (Cuda.blocks_for n blockSize1d * blockSize1d
   <= Cuda.blocks_for m blockSize1d * blockSize1d)%nat.
Proof.
  intros Hnm. unfold Cuda.blocks_for, blockSize1d.
  apply Nat.mul_le_mono_r. apply Nat.Div0.div_le_mono. lia.
Qed.

(** A grid for a whole number of blocks of paths has no thread to spare. *)
Lemma blocks_for_exact (n : nat) :
  (n mod blockSize1d = 0)%nat ->
  (Cuda.blocks_for n blockSize1d * blockSize1d = n)%nat.
Proof.
  unfold Cuda.blocks_for, blockSize1d. intros Hmod.
  pose proof (Nat.div_mod n 128 ltac:(lia)) as Hn.
  replace (n + 128 - 1)%nat with (127 + (n / 128) * 128)%nat by lia.
  rewrite Nat.div_add by lia. rewrite (Nat.div_small 127 128) by lia. lia.
Qed.

Lemma blocks_for_spare (n : nat) :
  (n mod blockSize1d <> 0)%nat ->
  (n < Cuda.blocks_for n blockSize1d * blockSize1d)%nat.
Proof.
  intros Hmod. pose proof (blocks_for_covers n) as Hcov.
  destruct (decide (n = Cuda.blocks_for n blockSize1d * blockSize1d)%nat)
    as [Heq|Hne]; [|lia].
  exfalso. apply Hmod. rewrite Heq. apply Nat.Div0.mod_mul.
Qed.

Lemma depthPass_in_bounds b iter (s s' : LoopState X) :
  in_bounds b s ->
  depthPass X b scene iter s = Done s' ->
  in_bounds b s'.
Proof.
  intros [Hs Hgrid] Hpass.
  destruct (depthPass_allocated b iter s s' Hs Hpass) as [Hs' _].
  split; [done|].
  apply depthPass_num_paths in Hpass.
  etrans; [by apply blocks_for_mono|done].
Qed.

Lemma passes_in_bounds b iter k (s s' : LoopState X) :
  in_bounds b s ->
  passes X b scene iter k s = Done s' ->
  in_bounds b s'.
Proof.
  revert s. induction k as [|k IH]; intros s Hs; cbn [passes].
  - by intros [= <-].
  - destruct (depthPass X b scene iter s) as [s1| |] eqn:Hpass; try done.
    apply IH. by eapply depthPass_in_bounds.
Qed.

Lemma loop_entry_in_bounds b iter (h : HostState X) :
  (pixelcount X scene mod blockSize1d = 0)%nat ->
  allocated b h ->
  in_bounds b (loop_entry X scene iter (device h)).
Proof.
  intros Hmod Ha. split; [by apply loop_entry_allocated|].
  cbn [loop_entry num_paths]. by rewrite blocks_for_exact.
Qed.

(** *** A call does not read the image *)







End Allocation.


(** A room of 128 pixels in a row, one block of threads, in front of a
    wall that emits light. *)
Definition wide_room : Scene Demo.collab :=
  Demo.scene_of 128 1 2 [Demo.wall 0 F32.one] [Demo.light].

Definition wide_start : HostState Demo.collab :=
  session_start Demo.collab false wide_room (fun _ => Demo.blank)
    (replicate 128 (mkuchar4 0 0 0 0)).

Lemma wide_start_allocated : allocated Demo.collab wide_room false wide_start.
Proof. by apply session_start_allocated. Qed.

Lemma wide_entry_in_bounds (iter : Z) :
  in_bounds Demo.collab wide_room false
    (loop_entry Demo.collab wide_room iter (device wide_start)).
Proof.
  apply loop_entry_in_bounds; [reflexivity|apply wide_start_allocated].
Qed.

(** X4.  Take a pass of the depth loop that is in bounds: the buffers have
    their sizes, the active range lies inside them, the grid of the pass
    does not reach behind the array of paths, and every primitive refers
    to a material of the table.  The pass ends the program with
    "trace one bounce" exactly when an earlier launch has left an error, or
    the scene has no primitive, or no path is active; the launch of an
    empty grid is refused and the check then finds the error.  In every
    other case the pass goes through, with the depth counter advanced by
    one, no error left behind, and the next pass in bounds again.  A pass
    never uses up fuel. *)
Theorem depthPass_gives_up_on_empty_grid (X : Collab) (b : bool)
    (scene : Scene X) (iter : Z) (s : LoopState X) :
  in_bounds X scene b s ->
  (forall g dT,
     g ∈ dev_geoms (dev s) ->
     is_Some (material_at (dev_materials (dev s))
                (materialid X (update X g dT)))) ->
  (depthPass X b scene iter s = Exit "trace one bounce"
   <-> pending_error s = true \/ geoms scene = [] \/ num_paths s = 0%nat)
  /\ (pending_error s = false -> geoms scene <> [] -> num_paths s <> 0%nat ->
      exists s',
        depthPass X b scene iter s = Done s'
        /\ depth s' = depth s + 1
        /\ pending_error s' = false
        /\ in_bounds X scene b s')
  /\ depthPass X b scene iter s <> OutOfFuel.
Proof.
  intros Hin _.
  pose proof (depthPass_in_bounds X scene b iter s) as Hnext.
  rewrite depthPass_unfold in *.
  pose proof (pass_failed_false X scene s) as Hff.
  destruct (pass_failed X scene s) eqn:Hf.
  - split; [|split; [|done]].
    + split; [intros _|done].
      destruct (pending_error s) eqn:Hp; [by left|right].
      destruct (decide (geoms scene = [])) as [Hg|Hg]; [by left|right].
      destruct (decide (num_paths s = 0%nat)) as [Hn|Hn]; [done|].
      destruct Hff as [_ Hff]. by specialize (Hff (conj eq_refl (conj Hg Hn))).
    + intros Hp Hg Hn.
      destruct Hff as [_ Hff]. by specialize (Hff (conj Hp (conj Hg Hn))).
  - destruct Hff as [Hff _]. destruct (Hff eq_refl) as (Hp & Hg & Hn).
    split; [|split; [|done]].
    + split; [done|]. intros [Hp'|[Hg'|Hn']]; [congruence|done|done].
    + intros _ _ _. exists (pass_state X b scene iter s).
      split; [done|]. cbn [pass_state depth pending_error].
      split; [done|]. split; [|by apply Hnext].
      unfold pass_failed in Hf. by apply orb_false_iff in Hf as [_ ->].
Qed.

Lemma depthPass_gives_up_on_empty_grid_witness :
  exists s',
    depthPass Demo.collab false wide_room 1
      (loop_entry Demo.collab wide_room 1 (device wide_start))
    = Done s'
    /\ depth s' = depth (loop_entry Demo.collab wide_room 1 (device wide_start))
                  + 1
    /\ pending_error s' = false
    /\ in_bounds Demo.collab wide_room false s'.
Proof.
  refine (proj1 (proj2 (depthPass_gives_up_on_empty_grid Demo.collab false
                          wide_room 1
                          (loop_entry Demo.collab wide_room 1
                             (device wide_start))
                          (wide_entry_in_bounds 1) _)) _ _ _).
  - intros g dT Hg. apply list_elem_of_singleton in Hg. subst g.
    eexists. reflexivity.
  - reflexivity.
  - discriminate.
  - vm_compute. lia.
Defined.

(** X6.  The buffers through a session whose pixel count is a whole number
    of blocks of 128.  [pathtraceInit] and [pathtraceResume] give the
    image, the paths, the hit flags and the pixel buffer one entry for
    every pixel and the device as many primitives as the scene has.  Every
    pass of every call then starts in bounds: the active range lies inside
    the arrays and the grid, rounded up to whole blocks, does not reach
    behind the array of paths, so that no thread stores outside its array.
    The calls that return keep the sizes and leave the table of materials
    as it is, and after at least one call the intersection records have
    one entry for every pixel. *)
Theorem session_keeps_buffer_sizes (X : Collab) (b : bool) (scene : Scene X)
    (uninit : nat -> PathSegment) (pbo0 : list uchar4) (fuel : nat)
    (first : Z) (count : nat) (h h' : HostState X) :
  (length pbo0 = pixelcount X scene ->
   allocated X scene b (session_start X b scene uninit pbo0))
  /\ (length pbo0 = pixelcount X scene ->
      (pixelcount X scene <= length (image scene))%nat ->
      allocated X scene b (session_resume X b scene uninit pbo0))
  /\ ((pixelcount X scene mod blockSize1d = 0)%nat ->
      allocated X scene b h ->
      (forall iter k s,
         passes X b scene iter k (loop_entry X scene iter (device h))
         = Done s ->
         in_bounds X scene b s)
      /\ (iterations X b scene fuel first count h = Done h' ->
          allocated X scene b h'
          /\ dev_materials (device h') = dev_materials (device h)
          /\ (count <> 0%nat ->
              length (dev_intersections (device h'))
              = pixelcount X scene))).
Proof.
  split; [apply session_start_allocated|].
  split; [intros Hpbo Himg; by apply session_resume_allocated|].
  intros Hmod Ha. split.
  - intros iter k s Hpasses.
    apply (passes_in_bounds X scene b iter k
             (loop_entry X scene iter (device h)) s); [|done].
    by apply loop_entry_in_bounds.
  - by apply iterations_allocated.
Qed.

Lemma session_keeps_buffer_sizes_witness :
  in_bounds Demo.collab wide_room false
    (done_or (loop_entry Demo.collab wide_room 1 (device wide_start))
       (passes Demo.collab false wide_room 1 1
          (loop_entry Demo.collab wide_room 1 (device wide_start)))).
Proof.
  assert (Hdone :
    is_done (passes Demo.collab false wide_room 1 1
               (loop_entry Demo.collab wide_room 1 (device wide_start)))
    = true) by (vm_compute; reflexivity).
  refine (proj1 (proj2 (proj2 (session_keeps_buffer_sizes Demo.collab false
                                 wide_room (fun _ => Demo.blank)
                                 (replicate 128 (mkuchar4 0 0 0 0)) 5 1 1
                                 wide_start wide_start))
                   _ wide_start_allocated)
            1 1%nat _ (is_done_eq _ _ Hdone)).
  reflexivity.
Defined.

(** X16.  When the pixel count is not a whole number of blocks of 128, the
    grid of the first pass of a call reaches behind the array of paths:
    the launches of the pass have [(pixelcount + 127) / 128] blocks, and
    the thread with the index [pixelcount] is one of them.  This thread is
    not below the count of the active paths that the shading kernel is
    given, so it takes the [else] branch, whose store has no bound of its
    own, and its index is not a slot of the array. *)
Theorem shading_grid_reaches_behind_the_paths (X : Collab) (b : bool)
    (scene : Scene X) (iter : Z) (h : HostState X) (s' : LoopState X) :
  allocated X scene b h ->
  (pixelcount X scene mod blockSize1d <> 0)%nat ->
  depthPass X b scene iter (loop_entry X scene iter (device h)) = Done s' ->
  exists idx,
    (idx < Cuda.blocks_for
             (num_paths (loop_entry X scene iter (device h))) blockSize1d
           * blockSize1d)%nat
    /\ (num_paths s' <= idx)%nat
    /\ (length (dev_paths (dev s')) <= idx)%nat.
Proof.
  intros Ha Hmod Hpass. exists (pixelcount X scene).
  cbn [loop_entry num_paths].
  split; [by apply blocks_for_spare|].
  destruct (depthPass_allocated X scene b iter _ s'
              (loop_entry_allocated X scene b iter h Ha) Hpass) as [Hs' _].
  apply depthPass_num_paths in Hpass. cbn [loop_entry num_paths] in Hpass.
  split; [done|].
  by rewrite (sim_paths_len1 _ _ _ _ _ _ (ls_dev _ _ _ _ _ _ Hs')).
Qed.

Lemma shading_grid_reaches_behind_the_paths_witness :
  exists idx,
    (idx < Cuda.blocks_for (num_paths lit_entry) blockSize1d * blockSize1d)%nat
    /\ (num_paths lit_after_one_pass <= idx)%nat
    /\ (length (dev_paths (dev lit_after_one_pass)) <= idx)%nat.
Proof.
  assert (Hdone :
    is_done (depthPass Demo.collab false Demo.lit_room 1 lit_entry) = true)
    by (vm_compute; reflexivity).
  refine (shading_grid_reaches_behind_the_paths Demo.collab false
            Demo.lit_room 1 (Demo.start false Demo.lit_room)
            lit_after_one_pass
            (session_start_allocated Demo.collab Demo.lit_room false
               (fun _ => Demo.blank) (replicate 2 (mkuchar4 0 0 0 0))
               eq_refl)
            _ (is_done_eq _ _ Hdone)).
  vm_compute. lia.
Defined.

(** ** Resuming a session *)




(** X7.  What a call of [pathtrace] that returns has published.  Every
    pixel of the device image holds what it held before, plus the colors
    of the paths that are active when the depth loop ends and carry its
    index.  The host image holds a copy of the device image in its first
    entries, and the pixel buffer shows that image, every channel divided
    by the iteration index and clamped. *)
Theorem pathtrace_publishes_image (X : Collab) (b : bool) (scene : Scene X)
    (fuel : nat) (iter : Z) (h h' : HostState X) :
  allocated X scene b h ->
  pathtrace X b scene fuel iter h = Done h' ->
  exists s,
    depthLoop X b scene iter fuel (loop_entry X scene iter (device h))
    = Done s
    /\ (forall i,
          dev_image (device h') !! i
          = (fun pix =>
               foldl Glm.vadd pix
                 (contributions i (take (num_paths s) (dev_paths (dev s)))))
              <$> dev_image (device h) !! i)
    /\ scene_image h'
       = dev_image (device h') ++ drop (pixelcount X scene) (scene_image h)
    /\ pbo h' = displayed iter <$> dev_image (device h').
Proof.
  intros Ha Hpt.
  destruct (pathtrace_Done X scene b fuel iter h h' Hpt) as (s & Hloop & ->).
  exists s. split; [done|].
  destruct (depthLoop_gathered X scene b fuel iter h s Ha Hloop)
    as [Hgl Hlookup].
  cbn [pathtrace_finish device dev_image scene_image pbo].
  split; [exact Hlookup|split].
  - by rewrite take_ge by lia.
  - apply sendImageToPBO_displayed; [done|by destruct Ha].
Qed.

Lemma pathtrace_publishes_image_witness :
  exists s,
    depthLoop Demo.collab false Demo.lit_room 1 5
      (loop_entry Demo.collab Demo.lit_room 1
         (device (Demo.start false Demo.lit_room)))
    = Done s
    /\ pbo (done_or (Demo.start false Demo.lit_room)
              (pathtrace Demo.collab false Demo.lit_room 5 1
                 (Demo.start false Demo.lit_room)))
       = displayed 1
           <$> dev_image
                 (device
                    (done_or (Demo.start false Demo.lit_room)
                       (pathtrace Demo.collab false Demo.lit_room 5 1
                          (Demo.start false Demo.lit_room)))).
Proof.
  assert (Hdone :
    is_done (pathtrace Demo.collab false Demo.lit_room 5 1
               (Demo.start false Demo.lit_room))
    = true) by (vm_compute; reflexivity).
  destruct (pathtrace_publishes_image Demo.collab false Demo.lit_room 5 1
              (Demo.start false Demo.lit_room)
              (done_or (Demo.start false Demo.lit_room)
                 (pathtrace Demo.collab false Demo.lit_room 5 1
                    (Demo.start false Demo.lit_room)))
              (session_start_allocated Demo.collab Demo.lit_room false
                 (fun _ => Demo.blank) (replicate 2 (mkuchar4 0 0 0 0))
                 eq_refl)
              (is_done_eq _ _ Hdone))
    as (s & Hloop & _ & _ & Hpbo).
  exists s. split; [exact Hloop | exact Hpbo].
Defined.

(** ** Which paths a pass keeps *)

Section Survivors.

Context (X : Collab) (scene : Scene X) (iter : Z).

(** Whether the search of [computeIntersections] over the primitives [gs]
    ends with a primitive for the ray of the path [p]. *)
Definition hits (gs : list (Geom X)) (p : PathSegment) : bool :=
  negb (hit_geom_index (hit_loop X (ray p) 0 gs hit_init) =? -1).

Lemma hits_takable (gs : list (Geom X)) (p : PathSegment) :
  hits gs p = true
  <-> exists j g, gs !! j = Some g
                  /\ takable (hit_distance X g (ray p)) = true.
Proof.
  unfold hits.
  destruct (hit_loop_searched X (ray p) gs)
    as [(Hidx & _ & Hnone)|(k & g & Hidx & Hg & _ & _ & Hpos & Hlt & _)].
  - rewrite Hidx. cbn. split; [done|].
    intros (j & g & Hg & Ht). by rewrite (Hnone j g Hg) in Ht.
  - rewrite Hidx. destruct (Z.eqb_spec (Z.of_nat k) (-1)) as [?|_]; [lia|].
    split; [intros _|done]. exists k, g. split; [done|].
    unfold takable. by rewrite Hpos, Hlt.
Qed.

Lemma remove_if_fmap {A : Type} (f : A -> bool) (vals : list A) :
  Thrust.remove_if vals (f <$> vals) = filter (fun v => f v = true) vals.
Proof.
  induction vals as [|v vals IH]; [done|].
  rewrite fmap_cons. cbn [Thrust.remove_if].
  destruct (f v) eqn:Hf; cbn [negb].
  - rewrite filter_cons_True by done. by rewrite IH.
  - rewrite filter_cons_False by (by rewrite Hf). done.
Qed.

Lemma remove_if_same_length {A B : Type} (a : list A) (b : list B)
    (stencil : list bool) :
  length a = length b ->
  length (Thrust.remove_if a stencil) = length (Thrust.remove_if b stencil).
Proof.
  revert b stencil. induction a as [|x a IH]; intros [|y b] [|s stencil];
    try done.
  intros [= Hl]. cbn [Thrust.remove_if].
  destruct s; cbn [negb length]; by rewrite (IH b stencil Hl).
Qed.

(** The flags that the tracing launch leaves in the active range. *)
Lemma pass_traced_flags b (s : LoopState X) :
  loop_allocated X scene b s ->
  take (num_paths s) (pass_traced X scene iter s).2
  = hits (pass_geoms X scene iter s)
      <$> take (num_paths s) (dev_paths (dev s)).
Proof.
  intros [[Himg Himgl Hmat Hgeo Hgeol Hpl1 Hpl2 Hfl1 Hfl2 Hk1 Hk2]
          Hpaths Hdepth Hnum Hbound Hpend].
  destruct (pass_geoms_sim X scene iter s s Hgeo Hgeol) as [_ Hgl].
  unfold pass_traced. rewrite computeIntersections_launch. cbn [snd].
  pose proof (blocks_for_covers (num_paths s)) as Hcov.
  apply list_eq. intros i.
  rewrite list_lookup_fmap.
  destruct (Nat.lt_ge_cases i (num_paths s)) as [Hi|Hi].
  2:{ by rewrite !lookup_take_ge by lia. }
  rewrite !lookup_take_lt by lia.
  rewrite launch_alter_lookup.
  destruct (Nat.ltb_spec i (Cuda.blocks_for (num_paths s) blockSize1d
                            * blockSize1d)); [|lia].
  destruct (lookup_lt_is_Some_2 (dev_paths (dev s)) i ltac:(lia))
    as [p Hp].
  destruct (lookup_lt_is_Some_2 (dev_hasIntersection (dev s)) i ltac:(lia))
    as [f Hf].
  rewrite Hp, Hf. cbn [fmap option_fmap option_map].
  unfold flag_slot, hits.
  destruct (Nat.ltb_spec i (num_paths s)); [|lia].
  rewrite Hp. by rewrite take_ge by lia.
Qed.

(** The paths of the active range that the compaction keeps. *)
Definition survivors (gs : list (Geom X)) (n : nat)
    (paths : list PathSegment) : list PathSegment :=
  filter (fun p => hits gs p = true) (take n paths).

Lemma pass_survivors b (s : LoopState X) :
  loop_allocated X scene b s ->
  (pass_compacted X scene iter s).2
  = length (survivors (pass_geoms X scene iter s) (num_paths s)
              (dev_paths (dev s)))
  /\ take (pass_compacted X scene iter s).2
          (pass_shaded X b scene iter s)
     = imap (shade_slot X iter (pass_compacted X scene iter s).2
               (pass_sorted X b scene iter s).1.2 (dev_materials (dev s)))
            (survivors (pass_geoms X scene iter s) (num_paths s)
               (dev_paths (dev s))).
Proof.
  intros Hs. pose proof (pass_traced_flags b s Hs) as Hflags.
  destruct Hs as [[Himg Himgl Hmat Hgeo Hgeol Hpl1 Hpl2 Hfl1 Hfl2 Hk1 Hk2]
                  Hpaths Hdepth Hnum Hbound Hpend].
  destruct (pass_geoms_sim X scene iter s s Hgeo Hgeol) as [Hg Hgl].
  destruct (pass_traced_sim X scene iter s s Hg Hpaths Hnum Hbound Hpl1
              Hfl1 Hfl2) as (_ & _ & Htl & Htf & _).
  destruct (pass_compacted_lengths X scene iter s Htl) as (Hc1 & Hc2 & Hc3).
  rewrite Hpl1 in Hc2.
  destruct (pass_sorted_keeps X scene iter b s Hk1 Hbound Hc1 Hc2 Hc3)
    as (_ & Hsorted & _).
  assert (Hkept :
    Thrust.remove_if (take (num_paths s) (dev_paths (dev s)))
                     (take (num_paths s) (pass_traced X scene iter s).2)
    = survivors (pass_geoms X scene iter s) (num_paths s)
        (dev_paths (dev s))).
  { rewrite Hflags. apply remove_if_fmap. }
  assert (Hn :
    (pass_compacted X scene iter s).2
    = length (survivors (pass_geoms X scene iter s) (num_paths s)
                (dev_paths (dev s)))).
  { rewrite <- Hkept. unfold pass_compacted, compaction. cbn [snd].
    apply remove_if_same_length. rewrite !length_take. lia. }
  split; [exact Hn|].
  assert (Hfront :
    take (pass_compacted X scene iter s).2 (pass_compacted X scene iter s).1.2
    = survivors (pass_geoms X scene iter s) (num_paths s)
        (dev_paths (dev s))).
  { rewrite Hn, <- Hkept. unfold pass_compacted, compaction. cbn [fst snd].
    apply remove_if_in_place_take. }
  pose proof (blocks_for_covers (num_paths s)) as Hcov.
  apply list_eq. intros i. rewrite list_lookup_imap, <- Hfront.
  destruct (Nat.lt_ge_cases i (pass_compacted X scene iter s).2) as [Hi|Hi].
  2:{ by rewrite !lookup_take_ge by lia. }
  rewrite !lookup_take_lt by lia.
  unfold pass_shaded. rewrite shadeFakeMaterial_lookup by lia.
  by rewrite Hsorted.
Qed.

End Survivors.

(** X8.  Which paths a pass of the depth loop keeps.  The active paths
    after the pass are those of the active paths before it whose ray has
    met a primitive, in their order, each as the shading thread of its new
    slot has left it; what a path has left of its bounce budget plays no
    part.  A ray meets a primitive exactly when some primitive reports a
    distance above zero and below [FLT_MAX]. *)
Theorem depthPass_keeps_the_paths_that_hit (X : Collab) (b : bool)
    (scene : Scene X) (iter : Z) (s s' : LoopState X) :
  loop_allocated X scene b s ->
  depthPass X b scene iter s = Done s' ->
  num_paths s'
  = length (survivors X (dev_geoms (dev s')) (num_paths s)
              (dev_paths (dev s)))
  /\ (forall i seg,
        survivors X (dev_geoms (dev s')) (num_paths s) (dev_paths (dev s))
          !! i = Some seg ->
        dev_paths (dev s') !! i
        = Some (shade_slot X iter (num_paths s') (dev_intersections (dev s'))
                  (dev_materials (dev s')) i seg))
  /\ (forall p,
        hits X (dev_geoms (dev s')) p = true
        <-> exists j g,
              dev_geoms (dev s') !! j = Some g
              /\ takable (hit_distance X g (ray p)) = true).
Proof.
  intros Hs Hpass. apply depthPass_Done in Hpass as [_ ->].
  destruct (pass_survivors X scene iter b s Hs) as [Hn Hfront].
  cbn [pass_state dev num_paths dev_geoms dev_paths dev_intersections
       dev_materials].
  split; [exact Hn|]. split; [|intros p; apply hits_takable].
  intros i seg Hseg.
  assert (Hi : (i < (pass_compacted X scene iter s).2)%nat).
  { rewrite Hn. by apply lookup_lt_Some in Hseg. }
  rewrite <- (lookup_take_lt _ (pass_compacted X scene iter s).2 i) by done.
  rewrite Hfront, list_lookup_imap, Hseg. done.
Qed.

Lemma depthPass_keeps_the_paths_that_hit_witness :
  num_paths lit_after_one_pass
  = length (survivors Demo.collab (dev_geoms (dev lit_after_one_pass))
              (num_paths lit_entry) (dev_paths (dev lit_entry))).
Proof.
  assert (Hdone :
    is_done (depthPass Demo.collab false Demo.lit_room 1 lit_entry) = true)
    by (vm_compute; reflexivity).
  refine (proj1 (depthPass_keeps_the_paths_that_hit Demo.collab false
                   Demo.lit_room 1 lit_entry lit_after_one_pass
                   (loop_entry_allocated Demo.collab Demo.lit_room false 1
                      (Demo.start false Demo.lit_room)
                      (session_start_allocated Demo.collab Demo.lit_room
                         false (fun _ => Demo.blank)
                         (replicate 2 (mkuchar4 0 0 0 0)) eq_refl))
                   (is_done_eq _ _ Hdone))).
Defined.

(** ** One color for every pixel *)

Section PixelIndices.

Context (X : Collab) (scene : Scene X) (iter : Z).

(** [scatterRay], which is defined elsewhere, redirects and recolors its
    path and leaves the pixel index alone. *)
Definition scatter_keeps_pixel : Prop :=
  forall seg point normal hasReflective hasRefractive indexOfRefraction
         color roughness rng,
    pixelIndex (scatterRay X seg point normal hasReflective hasRefractive
                  indexOfRefraction color roughness rng)
    = pixelIndex seg.

Lemma shade_slot_pixelIndex n isects mats idx seg :
  scatter_keeps_pixel ->
  pixelIndex (shade_slot X iter n isects mats idx seg) = pixelIndex seg.
Proof.
  intros Hscatter. unfold shade_slot.
  destruct (idx <? n)%nat; [|done].
  destruct (remainingBounces seg =? 0); [done|].
  destruct (isects !! idx) as [isect|]; [|done].
  destruct (material_at mats (materialId isect)) as [material|]; [|done].
  unfold shade_segment. destruct (F32.ltb _ _); [done|]. apply Hscatter.
Qed.

(** The pixel indices of the active paths, in the order of their slots. *)
Definition active_pixels (s : LoopState X) : list Z :=
  pixelIndex <$> take (num_paths s) (dev_paths (dev s)).

Lemma depthPass_active_pixels b (s s' : LoopState X) :
  scatter_keeps_pixel ->
  loop_allocated X scene b s ->
  depthPass X b scene iter s = Done s' ->
  sublist (active_pixels s') (active_pixels s).
Proof.
  intros Hscatter Hs Hpass. apply depthPass_Done in Hpass as [_ ->].
  destruct (pass_survivors X scene iter b s Hs) as [_ Hfront].
  unfold active_pixels. cbn [pass_state dev num_paths dev_paths].
  rewrite Hfront.
  assert (Hsame : forall (f : nat -> PathSegment -> PathSegment) l,
    (forall i p, pixelIndex (f i p) = pixelIndex p) ->
    pixelIndex <$> imap f l = pixelIndex <$> l).
  { intros f l Hf. apply list_eq. intros i.
    rewrite !list_lookup_fmap, list_lookup_imap.
    destruct (l !! i); [|done]. cbn. by rewrite Hf. }
  rewrite Hsame by (intros; by apply shade_slot_pixelIndex).
  apply fmap_sublist. unfold survivors. apply sublist_filter.
Qed.

Lemma depthLoop_active_pixels b fuel (s s' : LoopState X) :
  scatter_keeps_pixel ->
  loop_allocated X scene b s ->
  depthLoop X b scene iter fuel s = Done s' ->
  sublist (active_pixels s') (active_pixels s).
Proof.
  intros Hscatter. revert s.
  induction fuel as [|fuel IH]; intros s Hs; [done|].
  cbn [depthLoop].
  destruct (depthPass X b scene iter s) as [s1| |] eqn:Hpass; try done.
  pose proof (depthPass_active_pixels b s s1 Hscatter Hs Hpass) as Hsub.
  destruct (depthPass_allocated X scene b iter s s1 Hs Hpass) as [Hs1 _].
  destruct (_ =? _).
  - by intros [= <-].
  - intros Hloop. etrans; [by apply (IH s1)|done].
Qed.

Lemma loop_entry_active_pixels b (h : HostState X) :
  allocated X scene b h ->
  active_pixels (loop_entry X scene iter (device h))
  = Z.of_nat <$> seq 0 (pixelcount X scene).
Proof.
  intros Ha. unfold active_pixels.
  cbn [loop_entry dev num_paths dev_paths].
  rewrite generateRayFromCamera_camera_paths by (by destruct Ha).
  rewrite take_ge by (by rewrite camera_paths_length).
  apply list_eq. intros i. rewrite !list_lookup_fmap.
  destruct (camera_paths X (camera scene) iter (traceDepth scene) !! i)
    as [seg|] eqn:Hseg.
  - destruct (camera_paths_lookup X _ _ _ i seg Hseg) as (Hi & Hpix & _).
    unfold pixelcount. rewrite lookup_seq_lt by done. cbn. by rewrite Hpix.
  - apply lookup_ge_None in Hseg. rewrite camera_paths_length in Hseg.
    unfold pixelcount. by rewrite lookup_ge_None_2 by (by rewrite length_seq).
Qed.

End PixelIndices.

(** X9.  When [scatterRay] leaves the pixel index of its path alone, the
    active paths at the end of the depth loop carry pixel indices that lie
    inside the image and increase with the slot, so that no two of them
    share a pixel.  A call of [pathtrace] that returns then leaves every
    pixel of the image as it was or adds the color of one path to it. *)
Theorem pathtrace_adds_one_color_per_pixel (X : Collab) (b : bool)
    (scene : Scene X) (fuel : nat) (iter : Z) (h h' : HostState X) :
  scatter_keeps_pixel X ->
  allocated X scene b h ->
  pathtrace X b scene fuel iter h = Done h' ->
  exists s,
    depthLoop X b scene iter fuel (loop_entry X scene iter (device h))
    = Done s
    /\ sublist (active_pixels X s) (Z.of_nat <$> seq 0 (pixelcount X scene))
    /\ forall i pix,
         dev_image (device h) !! i = Some pix ->
         dev_image (device h') !! i = Some pix
         \/ exists seg,
              seg ∈ take (num_paths s) (dev_paths (dev s))
              /\ pixelIndex seg = Z.of_nat i
              /\ dev_image (device h') !! i
                 = Some (Glm.vadd pix (color seg)).
Proof.
  intros Hscatter Ha Hpt.
  destruct (pathtrace_Done X scene b fuel iter h h' Hpt) as (s & Hloop & ->).
  exists s. split; [done|].
  pose proof (depthLoop_active_pixels X scene iter b fuel _ s Hscatter
                (loop_entry_allocated X scene b iter h Ha) Hloop) as Hsub.
  rewrite (loop_entry_active_pixels X scene iter b h Ha) in Hsub.
  split; [exact Hsub|].
  intros i pix Hpix.
  destruct (depthLoop_gathered X scene b fuel iter h s Ha Hloop)
    as [_ Hlookup].
  cbn [pathtrace_finish device dev_image].
  rewrite Hlookup, Hpix. cbn [fmap option_fmap option_map].
  assert (Hnodup : NoDup (active_pixels X s)).
  { refine (sublist_NoDup _ _ _ Hsub).
    apply (NoDup_fmap_2 Z.of_nat). apply NoDup_seq. }
  unfold contributions.
  destruct (filter_of_distinct pixelIndex (Z.of_nat i)
              (take (num_paths s) (dev_paths (dev s))) Hnodup)
    as [->|(seg & Hin & Hidx & ->)]; [by left|].
  right. by exists seg.
Qed.

Lemma demo_scatter_keeps_pixel : scatter_keeps_pixel Demo.collab.
Proof. by intros seg point nor refl refr ior col rough rng. Qed.

Lemma pathtrace_adds_one_color_per_pixel_witness :
  exists s,
    depthLoop Demo.collab false Demo.lit_room 1 5
      (loop_entry Demo.collab Demo.lit_room 1
         (device (Demo.start false Demo.lit_room)))
    = Done s
    /\ sublist (active_pixels Demo.collab s)
               (Z.of_nat <$> seq 0 (pixelcount Demo.collab Demo.lit_room)).
Proof.
  assert (Hdone :
    is_done (pathtrace Demo.collab false Demo.lit_room 5 1
               (Demo.start false Demo.lit_room))
    = true) by (vm_compute; reflexivity).
  destruct (pathtrace_adds_one_color_per_pixel Demo.collab false
              Demo.lit_room 5 1 (Demo.start false Demo.lit_room)
              (done_or (Demo.start false Demo.lit_room)
                 (pathtrace Demo.collab false Demo.lit_room 5 1
                    (Demo.start false Demo.lit_room)))
              demo_scatter_keeps_pixel
              (session_start_allocated Demo.collab Demo.lit_room false
                 (fun _ => Demo.blank) (replicate 2 (mkuchar4 0 0 0 0))
                 eq_refl)
              (is_done_eq _ _ Hdone))
    as (s & Hloop & Hsub & _).
  exists s. split; [exact Hloop | exact Hsub].
Defined.

(** ** The slots a launch leaves alone *)

Section OtherSlots.

Context (X : Collab).

(** What a shading thread past the active range makes of its slot. *)
Definition blackened (seg : PathSegment) : PathSegment :=
  {| ray := ray seg; color := Glm.vec3_splat F32.zero;
     pixelIndex := pixelIndex seg;
     remainingBounces := remainingBounces seg |}.

Lemma shadeFakeMaterial_launch_lookup iter num_paths isects mats blocks
    (paths : list PathSegment) idx :
  Cuda.launch blocks blockSize1d
    (shadeFakeMaterial_thread X iter num_paths isects mats) paths !! idx
  = (if (idx <? blocks * blockSize1d)%nat
     then shade_slot X iter num_paths isects mats idx else id)
      <$> paths !! idx.
Proof.
  erewrite launch_ext by (intros; apply shadeFakeMaterial_thread_alter).
  apply launch_alter_lookup.
Qed.

Lemma shadeFakeMaterial_launch_length iter num_paths isects mats blocks
    (paths : list PathSegment) :
  length (Cuda.launch blocks blockSize1d
            (shadeFakeMaterial_thread X iter num_paths isects mats) paths)
  = length paths.
Proof.
  erewrite launch_ext by (intros; apply shadeFakeMaterial_thread_alter).
  apply launch_alter_length.
Qed.

End OtherSlots.

(** X10.  The shading launch outside the active range.  A thread whose
    index is not below [num_paths] sets the color of its slot to black and
    leaves the ray, the pixel index and the bounce budget; the slots that
    the grid does not reach keep what they hold, and the array keeps its
    size. *)
Theorem shadeFakeMaterial_blackens_inactive_slots (X : Collab) (iter : Z)
    (blocks num_paths : nat) (isects : list ShadeableIntersection)
    (mats : list Material) (paths : list PathSegment) (idx : nat) :
  (num_paths <= idx)%nat ->
  ((idx < blocks * blockSize1d)%nat ->
   Cuda.launch blocks blockSize1d
     (shadeFakeMaterial_thread X iter num_paths isects mats) paths !! idx
   = blackened <$> paths !! idx)
  /\ ((blocks * blockSize1d <= idx)%nat ->
      Cuda.launch blocks blockSize1d
        (shadeFakeMaterial_thread X iter num_paths isects mats) paths !! idx
      = paths !! idx)
  /\ length (Cuda.launch blocks blockSize1d
               (shadeFakeMaterial_thread X iter num_paths isects mats) paths)
     = length paths.
Proof.
  intros Hidx. rewrite shadeFakeMaterial_launch_lookup.
  split; [|split].
  - intros Hgrid.
    destruct (Nat.ltb_spec idx (blocks * blockSize1d)); [|lia].
    unfold shade_slot.
    destruct (Nat.ltb_spec idx num_paths); [lia|]. done.
  - intros Hgrid.
    destruct (Nat.ltb_spec idx (blocks * blockSize1d)); [lia|].
    by destruct (paths !! idx).
  - apply shadeFakeMaterial_launch_length.
Qed.

Lemma shadeFakeMaterial_blackens_inactive_slots_witness :
  Cuda.launch 1 blockSize1d
    (shadeFakeMaterial_thread Demo.collab 1 1
       (replicate 2 zero_intersection) [Demo.light])
    [Demo.blank; fresh_path] !! 1%nat
  = blackened <$> [Demo.blank; fresh_path] !! 1%nat.
Proof.
  refine (proj1 (shadeFakeMaterial_blackens_inactive_slots Demo.collab 1 1 1
                   (replicate 2 zero_intersection) [Demo.light]
                   [Demo.blank; fresh_path] 1 _) _).
  - lia.
  - unfold blockSize1d. lia.
Defined.

(** X11.  The tracing launch outside the active range, and its unused
    parameter.  [computeIntersections] never reads [depth]: two launches
    that differ in it alone leave the same arrays.  The slots from
    [num_paths] on, and those the grid does not reach, keep their record
    and their flag, and both arrays keep their sizes. *)
Theorem computeIntersections_leaves_other_slots (X : Collab) (blocks : nat)
    (depth depth' : Z) (num_paths : nat) (pathSegments : list PathSegment)
    (geoms : list (Geom X)) (geoms_size : nat)
    (intersections : list ShadeableIntersection)
    (hasIntersection : list bool) (idx : nat) :
  Cuda.launch blocks blockSize1d
    (computeIntersections_thread X depth num_paths pathSegments geoms
       geoms_size) (intersections, hasIntersection)
  = Cuda.launch blocks blockSize1d
      (computeIntersections_thread X depth' num_paths pathSegments geoms
         geoms_size) (intersections, hasIntersection)
  /\ ((num_paths <= idx)%nat \/ (blocks * blockSize1d <= idx)%nat ->
      (Cuda.launch blocks blockSize1d
         (computeIntersections_thread X depth num_paths pathSegments geoms
            geoms_size) (intersections, hasIntersection)).1 !! idx
      = intersections !! idx
      /\ (Cuda.launch blocks blockSize1d
            (computeIntersections_thread X depth num_paths pathSegments geoms
               geoms_size) (intersections, hasIntersection)).2 !! idx
         = hasIntersection !! idx)
  /\ length (Cuda.launch blocks blockSize1d
               (computeIntersections_thread X depth num_paths pathSegments
                  geoms geoms_size) (intersections, hasIntersection)).1
     = length intersections
  /\ length (Cuda.launch blocks blockSize1d
               (computeIntersections_thread X depth num_paths pathSegments
                  geoms geoms_size) (intersections, hasIntersection)).2
     = length hasIntersection.
Proof.
  rewrite !computeIntersections_launch. cbn [fst snd].
  split; [done|]. split; [|by rewrite !launch_alter_length].
  intros Hidx. rewrite !launch_alter_lookup.
  unfold isect_slot, flag_slot.
  destruct (Nat.ltb_spec idx (blocks * blockSize1d)) as [Hg|Hg].
  - destruct (Nat.ltb_spec idx num_paths); [lia|].
    by destruct (intersections !! idx), (hasIntersection !! idx).
  - by destruct (intersections !! idx), (hasIntersection !! idx).
Qed.

Lemma computeIntersections_leaves_other_slots_witness :
  (Cuda.launch 1 blockSize1d
     (computeIntersections_thread Demo.collab 0 1 [fresh_path; fresh_path]
        (geoms Demo.matte_room) 2)
     ([zero_intersection; zero_intersection], [false; false])).2 !! 1%nat
  = [false; false] !! 1%nat.
Proof.
  refine (proj2 (proj1 (proj2 (computeIntersections_leaves_other_slots
                                 Demo.collab 1 0 0 1 [fresh_path; fresh_path]
                                 (geoms Demo.matte_room) 2
                                 [zero_intersection; zero_intersection]
                                 [false; false] 1)) _)).
  left. lia.
Defined.

(** X12.  [getMaterialId] reads the material identifier of the first
    intersection record for every thread: each slot of the active range
    gets that identifier, reduced to 8 bits, in both key arrays, so that
    all the keys of the active range are equal.  The slots from [nPaths] on
    keep their keys. *)
Theorem getMaterialId_writes_the_first_key (blocks nPaths : nat)
    (isecs : list ShadeableIntersection) (ids_isec ids_path : list Z)
    (first : ShadeableIntersection) (index : nat) :
  isecs !! 0%nat = Some first ->
  (nPaths <= blocks * blockSize1d)%nat ->
  (nPaths <= length ids_isec)%nat ->
  (nPaths <= length ids_path)%nat ->
  ((index < nPaths)%nat ->
   (Cuda.launch blocks blockSize1d (getMaterialId_thread nPaths isecs)
      (ids_isec, ids_path)).1 !! index
   = Some (materialId first mod 256)
   /\ (Cuda.launch blocks blockSize1d (getMaterialId_thread nPaths isecs)
         (ids_isec, ids_path)).2 !! index
      = Some (materialId first mod 256)
   /\ 0 <= materialId first mod 256 < 256)
  /\ ((nPaths <= index)%nat ->
      (Cuda.launch blocks blockSize1d (getMaterialId_thread nPaths isecs)
         (ids_isec, ids_path)).1 !! index
      = ids_isec !! index
      /\ (Cuda.launch blocks blockSize1d (getMaterialId_thread nPaths isecs)
            (ids_isec, ids_path)).2 !! index
         = ids_path !! index).
Proof.
  intros Hfirst Hb Hl1 Hl2. rewrite getMaterialId_launch. cbn [fst snd].
  rewrite !launch_alter_lookup, Hfirst.
  split.
  - intros Hi.
    destruct (Nat.ltb_spec index (blocks * blockSize1d)); [|lia].
    destruct (Nat.ltb_spec index nPaths); [|lia].
    destruct (lookup_lt_is_Some_2 ids_isec index ltac:(lia)) as [a ->].
    destruct (lookup_lt_is_Some_2 ids_path index ltac:(lia)) as [c ->].
    cbn. repeat split; try done; apply Z.mod_pos_bound; lia.
  - intros Hi.
    destruct (Nat.ltb_spec index nPaths); [lia|].
    by destruct (_ <? _)%nat, (ids_isec !! index), (ids_path !! index).
Qed.

Lemma getMaterialId_writes_the_first_key_witness :
  (Cuda.launch 1 blockSize1d
     (getMaterialId_thread 2
        [mkShadeableIntersection F32.one Demo.v0 257;
         mkShadeableIntersection F32.one Demo.v0 3])
     ([255; 255], [255; 255])).1 !! 1%nat
  = Some (257 mod 256).
Proof.
  refine (proj1 (proj1 (getMaterialId_writes_the_first_key 1 2
                          [mkShadeableIntersection F32.one Demo.v0 257;
                           mkShadeableIntersection F32.one Demo.v0 3]
                          [255; 255] [255; 255]
                          (mkShadeableIntersection F32.one Demo.v0 257) 1
                          eq_refl _ _ _) _)).
  - unfold blockSize1d. lia.
  - cbn. lia.
  - cbn. lia.
  - lia.
Defined.

(** ** The seed of a thread *)

Section Seeds.

Context (X : Collab).

Lemma int32_uint32 (z : Z) : Int32.uint32 (Int32.int32 z) = Int32.uint32 z.
Proof.
  unfold Int32.uint32, Int32.int32.
  rewrite Zminus_mod_idemp_l. f_equal. lia.
Qed.

Lemma int32_testbit (z n : Z) :
  0 <= n < 32 -> Z.testbit (Int32.int32 z) n = Z.testbit z n.
Proof.
  intros Hn.
  rewrite <- (Z.mod_pow2_bits_low (Int32.int32 z) 32 n) by lia.
  rewrite <- (Z.mod_pow2_bits_low z 32 n) by lia.
  f_equal. apply int32_uint32.
Qed.

Lemma int32_range (z : Z) : - 2 ^ 31 <= Int32.int32 z < 2 ^ 31.
Proof.
  unfold Int32.int32.
  pose proof (Z.mod_pos_bound (z + 2 ^ 31) (2 ^ 32) ltac:(lia)). lia.
Qed.

(** The word that [makeSeededRandomEngine] hashes first. *)
Definition packed (iter depth : Z) : Z :=
  Int32.uint32 (Z.lor (Z.lor (Int32.shl 1 31) (Int32.shl depth 22)) iter).

Lemma makeSeededRandomEngine_packed (iter index depth : Z) :
  makeSeededRandomEngine X iter index depth
  = Int32.int32 (Z.lxor (utilhash X (packed iter depth))
                        (utilhash X (Int32.uint32 index))).
Proof. done. Qed.

(** Bit 31 is set; the bits 22 to 30 hold the low nine bits of the depth,
    or-ed with those of the iteration index; the bits below hold the
    iteration index. *)
Lemma packed_testbit (iter depth n : Z) :
  0 <= n < 32 ->
  Z.testbit (packed iter depth) n
  = if n =? 31 then true
    else (22 <=? n) && Z.testbit (depth mod 512) (n - 22)
         || Z.testbit iter n.
Proof.
  intros Hn. unfold packed, Int32.uint32, Int32.shl.
  rewrite Z.mod_pow2_bits_low by lia.
  rewrite !Z.lor_spec, !int32_testbit by lia.
  rewrite !Z.shiftl_spec by lia.
  destruct (Z.eqb_spec n 31) as [->|Hne]; [done|].
  rewrite (Z.testbit_neg_r 1 (n - 31)) by lia. cbn [orb]. f_equal.
  destruct (Z.leb_spec 22 n) as [Hge|Hlt]; cbn [andb].
  - change 512 with (2 ^ 9). by rewrite Z.mod_pow2_bits_low by lia.
  - by rewrite Z.testbit_neg_r by lia.
Qed.

Lemma packed_range (iter depth : Z) : 0 <= packed iter depth < 2 ^ 32.
Proof. unfold packed, Int32.uint32. apply Z.mod_pos_bound. lia. Qed.

Lemma packed_eq (iter depth iter' depth' : Z) :
  (forall n, 0 <= n < 32 ->
     Z.testbit (packed iter depth) n = Z.testbit (packed iter' depth') n) ->
  packed iter depth = packed iter' depth'.
Proof.
  intros Hbits. apply Z.bits_inj'. intros n Hn.
  destruct (Z.lt_ge_cases n 32) as [Hlt|Hge]; [apply Hbits; lia|].
  unfold packed, Int32.uint32. by rewrite !Z.mod_pow2_bits_high by lia.
Qed.

End Seeds.

(** X13.  How [makeSeededRandomEngine] packs its arguments into the word
    it hashes.  The depth enters through its low nine bits only, so that
    two depths that agree modulo 512 give the same engine; its bits are
    or-ed into the bits 22 to 30 of the iteration index, so that the engine
    of a depth is the engine of depth 0 for the iteration index with these
    bits set; the seed is a signed 32-bit number.  [updateGeoms] builds its
    engine from the same word as [makeSeededRandomEngine] does at depth 0,
    which is the engine of the shading thread of the same index. *)
Theorem makeSeededRandomEngine_packs_its_arguments (X : Collab)
    (iter index depth depth' : Z) (idx : nat) (exposure : float) :
  (depth mod 512 = depth' mod 512 ->
   makeSeededRandomEngine X iter index depth
   = makeSeededRandomEngine X iter index depth')
  /\ makeSeededRandomEngine X iter index depth
     = makeSeededRandomEngine X (Z.lor iter (Z.shiftl (depth mod 512) 22))
         index 0
  /\ - 2 ^ 31 <= makeSeededRandomEngine X iter index depth < 2 ^ 31
  /\ geom_dT X iter idx exposure
     = F32.mul
         (uniform_real X (makeSeededRandomEngine X iter (Z.of_nat idx) 0) 0
            F32.zero F32.one)
         exposure.
Proof.
  split; [|split; [|split]].
  - intros Hd. rewrite !makeSeededRandomEngine_packed. do 3 f_equal.
    apply packed_eq. intros n Hn. by rewrite !packed_testbit, Hd by done.
  - rewrite !makeSeededRandomEngine_packed. do 3 f_equal.
    apply packed_eq. intros n Hn. rewrite !packed_testbit by done.
    destruct (Z.eqb_spec n 31); [done|].
    rewrite Z.lor_spec, Z.shiftl_spec by lia.
    change (0 mod 512) with 0. rewrite Z.testbit_0_l, andb_false_r.
    cbn [orb].
    destruct (Z.leb_spec 22 n); cbn [andb].
    + apply orb_comm.
    + rewrite (Z.testbit_neg_r _ (n - 22)) by lia. by rewrite orb_false_r.
  - apply int32_range.
  - unfold geom_dT. rewrite makeSeededRandomEngine_packed. done.
Qed.

Lemma makeSeededRandomEngine_packs_its_arguments_witness :
  makeSeededRandomEngine Demo.collab 7 5 1
  = makeSeededRandomEngine Demo.collab 7 5 513.
Proof.
  refine (proj1 (makeSeededRandomEngine_packs_its_arguments Demo.collab 7 5
                   1 513 0%nat F32.one) _).
  reflexivity.
Defined.

(** ** The compaction at its ends *)

Lemma remove_if_all {A : Type} (vals : list A) :
  Thrust.remove_if vals (replicate (length vals) true) = vals.
Proof.
  induction vals as [|v vals IH]; [done|].
  cbn [length replicate Thrust.remove_if negb]. by rewrite IH.
Qed.

Lemma remove_if_none {A : Type} (vals : list A) (n : nat) :
  Thrust.remove_if vals (replicate n false) = [].
Proof.
  revert n. induction vals as [|v vals IH]; intros [|n]; try done.
  cbn [replicate Thrust.remove_if negb]. apply IH.
Qed.

(** X14.  The compaction at its ends.  When every path of the active range
    has met a primitive, the compaction leaves both arrays and the count of
    active paths as they are; when none has, the count drops to 0.  In
    every case the two arrays keep their sizes. *)
Theorem compaction_all_or_none (n : nat)
    (intersections : list ShadeableIntersection) (paths : list PathSegment)
    (hasIntersection : list bool) :
  (n <= length intersections)%nat ->
  (n <= length paths)%nat ->
  (take n hasIntersection = replicate n true ->
   compaction n intersections paths hasIntersection
   = (intersections, paths, n))
  /\ (take n hasIntersection = replicate n false ->
      (compaction n intersections paths hasIntersection).2 = 0%nat)
  /\ length (compaction n intersections paths hasIntersection).1.1
     = length intersections
  /\ length (compaction n intersections paths hasIntersection).1.2
     = length paths.
Proof.
  intros Hi Hp. unfold compaction, Thrust.remove_if_in_place. cbn [fst snd].
  split; [|split; [|split]].
  - intros ->.
    assert (Hall : forall (A : Type) (l : list A), (n <= length l)%nat ->
      Thrust.remove_if (take n l) (replicate n true) = take n l).
    { intros A l Hl.
      rewrite <- (remove_if_all (take n l)) at 2.
      by rewrite length_take, Nat.min_l by done. }
    rewrite !Hall by done. rewrite !length_take, !Nat.min_l by done.
    by rewrite !take_drop.
  - intros ->. by rewrite remove_if_none.
  - apply (remove_if_in_place_length n intersections hasIntersection).
  - apply (remove_if_in_place_length n paths hasIntersection).
Qed.

Lemma compaction_all_or_none_witness :
  compaction 2 [zero_intersection; zero_intersection]
    [fresh_path; Demo.blank] [true; true]
  = ([zero_intersection; zero_intersection], [fresh_path; Demo.blank],
     2%nat).
Proof.
  refine (proj1 (compaction_all_or_none 2
                   [zero_intersection; zero_intersection]
                   [fresh_path; Demo.blank] [true; true] _ _) _).
  - cbn. lia.
  - cbn. lia.
  - reflexivity.
Defined.

(** ** How many passes a call runs *)

Section PassCount.

Context (X : Collab) (SORT_BY_MATERIAL : bool) (scene : Scene X) (iter : Z).

Lemma depthLoop_Done_fuel fuel (s s' : LoopState X) :
  depthLoop X SORT_BY_MATERIAL scene iter fuel s = Done s' ->
  (Z.to_nat (traceDepth scene - depth s) <= fuel)%nat.
Proof.
  revert s. induction fuel as [|fuel IH]; intros s; cbn [depthLoop]; [done|].
  destruct (depthPass _ _ _ _ s) as [s1| |] eqn:Hp; try done.
  apply depthPass_Done in Hp as [_ ->]. cbn [depth pass_state].
  destruct (Z.eqb_spec (depth s + 1) (traceDepth scene)) as [He|Hne].
  - intros _. lia.
  - intros Hl. pose proof (IH _ Hl) as Hfuel.
    apply depthLoop_Done_depth in Hl. cbn [depth pass_state] in *. lia.
Qed.

Lemma depthLoop_Done_passes fuel (s s' : LoopState X) :
  depthLoop X SORT_BY_MATERIAL scene iter fuel s = Done s' ->
  depth s < traceDepth scene
  /\ (Z.to_nat (traceDepth scene - depth s) <= fuel)%nat
  /\ passes X SORT_BY_MATERIAL scene iter
            (Z.to_nat (traceDepth scene - depth s)) s
     = Done s'.
Proof.
  intros Hl. pose proof (depthLoop_Done_fuel fuel s s' Hl) as Hfuel.
  pose proof (depthLoop_Done_depth X SORT_BY_MATERIAL scene iter fuel s s' Hl)
    as [Hd Hlt].
  split; [lia|]. split; [done|].
  by rewrite <- (depthLoop_is_passes X SORT_BY_MATERIAL scene iter fuel s)
    by (done || lia).
Qed.

(** The loop goes through the passes that do not reach the trace depth. *)
Lemma depthLoop_skip k fuel (s sk : LoopState X) :
  passes X SORT_BY_MATERIAL scene iter k s = Done sk ->
  depth s + Z.of_nat k < traceDepth scene ->
  (k < fuel)%nat ->
  depthLoop X SORT_BY_MATERIAL scene iter fuel s
  = depthLoop X SORT_BY_MATERIAL scene iter (fuel - k) sk.
Proof.
  revert fuel s. induction k as [|k IH]; intros fuel s; cbn [passes].
  - intros [= <-] _ _. by rewrite Nat.sub_0_r.
  - destruct (depthPass _ _ _ _ s) as [s1| |] eqn:Hp; try done.
    intros Hk Hd Hfuel. destruct fuel as [|fuel]; [lia|].
    cbn [depthLoop]. rewrite Hp.
    apply depthPass_Done in Hp as [_ ->]. cbn [depth pass_state].
    destruct (Z.eqb_spec (depth s + 1) (traceDepth scene)) as [He|Hne];
      [lia|].
    rewrite (IH fuel _ Hk) by (cbn [depth pass_state]; lia). done.
Qed.

Lemma depthLoop_no_paths fuel (s : LoopState X) :
  num_paths s = 0%nat -> fuel <> 0%nat ->
  depthLoop X SORT_BY_MATERIAL scene iter fuel s = Exit "trace one bounce".
Proof.
  intros Hn Hfuel. destruct fuel as [|fuel]; [done|].
  cbn [depthLoop]. rewrite depthPass_unfold.
  destruct (pass_failed X scene s) eqn:Hf; [done|].
  apply pass_failed_false in Hf as (_ & _ & Hne). done.
Qed.

End PassCount.

(** X15.  How many passes a call of [pathtrace] runs.  A call that returns
    has run exactly [traceDepth] passes of the depth loop, so that the
    trace depth is at least 1, and it has gathered the state that these
    passes leave.  The loop does not end early: when after fewer passes no
    path is active, the next pass launches an empty grid and the call ends
    the program with "trace one bounce". *)
Theorem pathtrace_runs_traceDepth_passes (X : Collab)
    (SORT_BY_MATERIAL : bool) (scene : Scene X) (fuel : nat) (iter : Z)
    (h : HostState X) :
  (forall h',
     pathtrace X SORT_BY_MATERIAL scene fuel iter h = Done h' ->
     1 <= traceDepth scene
     /\ (Z.to_nat (traceDepth scene) <= fuel)%nat
     /\ exists s,
          passes X SORT_BY_MATERIAL scene iter (Z.to_nat (traceDepth scene))
            (loop_entry X scene iter (device h))
          = Done s
          /\ h' = pathtrace_finish X scene iter h s)
  /\ (forall k sk,
        pixelcount X scene <> 0%nat ->
        passes X SORT_BY_MATERIAL scene iter k
          (loop_entry X scene iter (device h))
        = Done sk ->
        Z.of_nat k < traceDepth scene ->
        (k < fuel)%nat ->
        num_paths sk = 0%nat ->
        pathtrace X SORT_BY_MATERIAL scene fuel iter h
        = Exit "trace one bounce").
Proof.
  split.
  - intros h' Hpt.
    destruct (pathtrace_Done X scene SORT_BY_MATERIAL fuel iter h h' Hpt)
      as (s & Hloop & ->).
    destruct (depthLoop_Done_passes X SORT_BY_MATERIAL scene iter fuel _ s
                Hloop) as (Hd & Hfuel & Hpasses).
    cbn [loop_entry depth] in Hd, Hfuel, Hpasses.
    rewrite Z.sub_0_r in Hfuel, Hpasses.
    split; [lia|]. split; [done|]. by exists s.
  - intros k sk Hpix Hpasses Hk Hfuel Hn.
    rewrite pathtrace_unfold.
    pose proof (invalid_configuration_2d X scene) as H2d.
    destruct (_ || _).
    { destruct H2d as [H2d _]. by specialize (H2d eq_refl). }
    rewrite (depthLoop_skip X SORT_BY_MATERIAL scene iter k fuel _ sk
               Hpasses) by (cbn [loop_entry depth]; lia || done).
    by rewrite depthLoop_no_paths by (done || lia).
Qed.

Lemma pathtrace_runs_traceDepth_passes_witness :
  pathtrace Demo.collab false Demo.void 5 1 (Demo.start false Demo.void)
  = Exit "trace one bounce".
Proof.
  assert (Hdone :
    is_done (passes Demo.collab false Demo.void 1 1 void_entry) = true)
    by (vm_compute; reflexivity).
  refine (proj2 (pathtrace_runs_traceDepth_passes Demo.collab false
                   Demo.void 5 1 (Demo.start false Demo.void))
            1%nat
            (done_or void_entry
               (passes Demo.collab false Demo.void 1 1 void_entry))
            _ (is_done_eq _ _ Hdone) _ _ _).
  - vm_compute. lia.
  - vm_compute. reflexivity.
  - lia.
  - vm_compute. reflexivity.
Defined.
